(** * Keyframe interpolation core of the motion-graphic player

    A shallow embedding of [components/VideoPlayer.tsx]: the transform
    parser, the per-property style resolver [useAnimatedStyle], the base/
    animated style merge of [AnimatedElement], the cross-fade schedule and
    the background effect of [SceneComponent], and the scene sequencing of
    [Animation].

    Modelling conventions.
    - A JavaScript number is an exact rational ([Q]); equalities between
      computed numbers are stated up to [Qeq] ([==]).  Rounding of IEEE
      doubles is not represented.  A value that is not a finite number
      (NaN, an infinity, [undefined]) is [None] in an [option Q].
    - A JavaScript string is a [string] of bytes.
    - A thrown exception is the [Throws] outcome of a small error monad.
    - The rendering library's [interpolate], [Sequence] and frame hooks are
      not part of the repository; they are modelled after the library's
      documented behaviour, in the module [Remotion]. *)

From Stdlib Require Import QArith Qminmax Lqa ZArith Lia Bool List Ascii String
  DecimalString Sorted Qround.
From stdpp Require Import gmap strings sorting.
Import ListNotations.

Local Open Scope Q_scope.

(** ** Outcomes of fallible code *)

Inductive error : Type :=
| InterpolateLengthMismatch
| InterpolateTooFewElements
| InterpolateNotFinite
| InterpolateNotIncreasing
| ColorError.

Inductive outcome (A : Type) : Type :=
| Returns (a : A)
| Throws (e : error).
Arguments Returns {A} a.
Arguments Throws {A} e.

Definition obind {A B : Type} (m : outcome A) (k : A -> outcome B) : outcome B :=
  match m with
  | Returns a => k a
  | Throws e => Throws e
  end.

Notation "'let!' x ':=' m 'in' k" := (obind m (fun x => k))
  (at level 10, x name, m at level 100, k at level 200).

(** ** The rendering library *)

Module Remotion.

(** The two extrapolation modes the player uses: ['extend'] is the
    library's default, ['clamp'] is requested explicitly. *)
Inductive ExtrapolateType : Type := extend | clamp.

Record InterpolateOptions : Type := {
  extrapolateLeft : ExtrapolateType;
  extrapolateRight : ExtrapolateType
}.

Definition defaultOptions : InterpolateOptions :=
  {| extrapolateLeft := extend; extrapolateRight := extend |}.
Definition clampBoth : InterpolateOptions :=
  {| extrapolateLeft := clamp; extrapolateRight := clamp |}.
Definition clampLeft : InterpolateOptions :=
  {| extrapolateLeft := clamp; extrapolateRight := extend |}.
Definition clampRight : InterpolateOptions :=
  {| extrapolateLeft := extend; extrapolateRight := clamp |}.

Definition Qltb (a b : Q) : bool := negb (Qle_bool b a).

(** One segment: clamp the input when asked, then map it affinely. *)
Definition interpolateFunction (input inputMin inputMax outputMin outputMax : Q)
    (options : InterpolateOptions) : Q :=
  let result := input in
  let result :=
    if Qltb result inputMin then
      match extrapolateLeft options with clamp => inputMin | extend => result end
    else result in
  let result :=
    if Qltb inputMax result then
      match extrapolateRight options with clamp => inputMax | extend => result end
    else result in
  if Qeq_bool outputMin outputMax then outputMin
  else
    let result := (result - inputMin) / (inputMax - inputMin) in
    result * (outputMax - outputMin) + outputMin.

(** [findRangeFrom i input rest] is the loop
    [for (; i < length - 1; ++i) if (inputRange[i] >= input) break],
    with [rest] the suffix of the range starting at index [i]. *)
Fixpoint findRangeFrom (i : nat) (input : Q) (rest : list Q) : nat :=
  match rest with
  | x :: ((_ :: _) as rest') =>
      if Qle_bool input x then i else findRangeFrom (S i) input rest'
  | _ => i
  end.

Definition findRange (input : Q) (inputRange : list Q) : nat :=
  (findRangeFrom 1 input (List.tl inputRange) - 1)%nat.

Fixpoint strictlyIncreasing (l : list Q) : bool :=
  match l with
  | x :: ((y :: _) as l') => Qltb x y && strictlyIncreasing l'
  | _ => true
  end.

Fixpoint allFinite (l : list (option Q)) : option (list Q) :=
  match l with
  | [] => Some []
  | Some q :: l' => option_map (cons q) (allFinite l')
  | None :: _ => None
  end.

(** [interpolate input inputRange outputRange options]: validation in
    the library's order, then the segment found by [findRange]. *)
Definition interpolate (input : Q) (inputRange : list Q)
    (outputRange : list (option Q)) (options : InterpolateOptions) : outcome Q :=
  if negb (Nat.eqb (List.length inputRange) (List.length outputRange))
  then Throws InterpolateLengthMismatch
  else if Nat.ltb (List.length inputRange) 2 then Throws InterpolateTooFewElements
  else match allFinite outputRange with
       | None => Throws InterpolateNotFinite
       | Some outs =>
           if negb (strictlyIncreasing inputRange) then Throws InterpolateNotIncreasing
           else
             let range := findRange input inputRange in
             Returns (interpolateFunction input
                        (List.nth range inputRange 0) (List.nth (S range) inputRange 0)
                        (List.nth range outs 0) (List.nth (S range) outs 0)
                        options)
       end.

(** A [Sequence] mounts its children from frame [from] to frame
    [from + durationInFrames - 1]; inside it the current frame is counted
    from [from]. *)
Definition sequenceMounted (from durationInFrames frame : Q) : bool :=
  Qle_bool from frame && Qle_bool frame (from + durationInFrames - 1).

Definition sequenceFrame (from frame : Q) : Q := frame - from.

End Remotion.

(** ** Strings and numbers *)

Module Js.

Local Open Scope string_scope.

Definition isDigit (c : ascii) : bool :=
  let n := nat_of_ascii c in Nat.leb 48 n && Nat.leb n 57.

(** The class [\w] of a regular expression without the unicode flag. *)
Definition isWordChar (c : ascii) : bool :=
  let n := nat_of_ascii c in
  isDigit c || (Nat.leb 65 n && Nat.leb n 90) || (Nat.leb 97 n && Nat.leb n 122)
  || Nat.eqb n 95.

Definition isWhiteSpace (c : ascii) : bool :=
  let n := nat_of_ascii c in
  (Nat.leb 9 n && Nat.leb n 13) || Nat.eqb n 32.

(** Longest prefix of characters satisfying [p], and the rest. *)
Fixpoint span (p : ascii -> bool) (s : string) : string * string :=
  match s with
  | String c s' =>
      if p c then let '(a, b) := span p s' in (String c a, b) else ("", s)
  | EmptyString => ("", "")
  end.

Definition isEmpty (s : string) : bool :=
  match s with EmptyString => true | _ => false end.

(** [String.prototype.includes]. *)
Fixpoint includes (hay needle : string) : bool :=
  String.prefix needle hay ||
  match hay with
  | String _ hay' => includes hay' needle
  | EmptyString => false
  end.

(** [Array.prototype.join]. *)
Fixpoint join (sep : string) (l : list string) : string :=
  match l with
  | [] => ""
  | [x] => x
  | x :: l' => x ++ sep ++ join sep l'
  end.

Definition digitValue (c : ascii) : N := N.of_nat (nat_of_ascii c - 48).

Fixpoint digitsValue (acc : N) (s : string) : N :=
  match s with
  | String c s' => digitsValue (10 * acc + digitValue c) s'
  | EmptyString => acc
  end.

(** The number denoted by integer digits [ip], fraction digits [fp] and
    a decimal exponent [e]. *)
Definition decimalValue (negative : bool) (ip fp : string) (e : Z) : Q :=
  let mantissa := Z.of_N (digitsValue 0 (ip ++ fp)) in
  let q := (inject_Z mantissa * Qpower 10 (e - Z.of_nat (String.length fp)))%Q in
  if negative then Qopp q else q.

Definition readSign (s : string) : bool * string :=
  match s with
  | String "-" s' => (true, s')
  | String "+" s' => (false, s')
  | _ => (false, s)
  end.

Definition readExponent (s : string) : Z :=
  match s with
  | String c s' =>
      if Ascii.eqb c "e" || Ascii.eqb c "E" then
        let '(negative, s'') := readSign s' in
        let '(ds, _) := span isDigit s'' in
        if isEmpty ds then 0%Z
        else let e := Z.of_N (digitsValue 0 ds) in
             if negative then Z.opp e else e
      else 0%Z
  | EmptyString => 0%Z
  end.

(** [parseFloat]: leading white space is skipped and the longest prefix
    that is a decimal literal is read; [None] stands for a result that is
    not a finite number (no literal at all, or an infinity). *)
Definition parseFloat (s : string) : option Q :=
  let '(_, s) := span isWhiteSpace s in
  let '(negative, s) := readSign s in
  if String.prefix "Infinity" s then None
  else
    let '(ip, s1) := span isDigit s in
    let '(fp, s2) :=
      match s1 with
      | String "." r => span isDigit r
      | _ => ("", s1)
      end in
    if isEmpty ip && isEmpty fp then None
    else Some (decimalValue negative ip fp (readExponent s2)).

(** Fraction digits of [r / d] (with [r < d]), at most [fuel] of them. *)
Fixpoint fractionDigits (fuel : nat) (r d : N) : string :=
  match fuel with
  | O => ""
  | S fuel' =>
      if N.eqb r 0 then ""
      else NilZero.string_of_uint (N.to_uint (10 * r / d))
           ++ fractionDigits fuel' (10 * r mod d) d
  end.

(** Conversion of a number to a string, as in a template literal.  Exact
    on integers and on terminating decimal fractions of at most twenty
    fraction digits; longer expansions are cut there, where a double
    prints its shortest round-trip form, and the exponent notation of
    very large or very small magnitudes is not represented. *)
Definition numberToString (q : Q) : string :=
  let q := Qred q in
  let n := Z.abs_N (Qnum q) in
  let d := Npos (Qden q) in
  let ip := NilZero.string_of_uint (N.to_uint (n / d)) in
  let fp := fractionDigits 20 (n mod d) d in
  (if Z.ltb (Qnum q) 0 then "-" else "")
  ++ ip ++ (if isEmpty fp then "" else "." ++ fp).

End Js.

(** ** Style values and keyframes *)

(** A value of a style property as the storyboard document can carry it:
    a number, a string or [null].  An absent key is [undefined]. *)
Inductive jsval : Type :=
| JNum (q : Q)
| JStr (s : string)
| JNull.

(** [String(v)]. *)
Definition jsToString (v : jsval) : string :=
  match v with
  | JNum q => Js.numberToString q
  | JStr s => s
  | JNull => "null"
  end.

(** Truthiness of a style value. *)
Definition truthy (v : jsval) : bool :=
  match v with
  | JNum q => negb (Qeq_bool q 0)
  | JStr s => negb (Js.isEmpty s)
  | JNull => false
  end.

Record AnimationKeyframe : Type := {
  kf_at : Q;
  style : gmap string jsval
}.

(** ** Transform strings *)

(** One transform function channel, [{ value, unit }]; a value that is not
    a finite number is [None]. *)
Record Channel : Type := {
  value : option Q;
  unit : string
}.

(** The object built by [parseTransform]: its own properties in insertion
    order, and the channel installed as its prototype when a function is
    named [__proto__] (assigning that key sets the prototype instead of
    creating a property). *)
Record Parsed : Type := {
  own : list (string * Channel);
  proto : option Channel
}.

Definition emptyObject : Parsed := {| own := []; proto := None |}.

Fixpoint assoc {A : Type} (k : string) (l : list (string * A)) : option A :=
  match l with
  | [] => None
  | (k', v) :: l' => if String.eqb k k' then Some v else assoc k l'
  end.

(** Assignment to an own property keeps the position of an existing key. *)
Fixpoint assign {A : Type} (k : string) (v : A) (l : list (string * A))
    : list (string * A) :=
  match l with
  | [] => [(k, v)]
  | (k', v') :: l' =>
      if String.eqb k k' then (k, v) :: l' else (k', v') :: assign k v l'
  end.

(** [result[func] = c]. *)
Definition setProp (result : Parsed) (func : string) (c : Channel) : Parsed :=
  if String.eqb func "__proto__"
  then {| own := own result; proto := Some c |}
  else {| own := assign func c (own result); proto := proto result |}.

(** Names every object inherits from [Object.prototype]. *)
Definition objectPrototypeNames : list string :=
  [ "constructor"; "__defineGetter__"; "__defineSetter__"; "hasOwnProperty";
    "__lookupGetter__"; "__lookupSetter__"; "isPrototypeOf";
    "propertyIsEnumerable"; "toString"; "valueOf"; "toLocaleString";
    "__proto__" ]%string.

(** What [parsed[func]] evaluates to: an own channel object, a truthy
    inherited value that is no channel (its [value] and [unit] are
    [undefined]), or a falsy value. *)
Inductive Slot : Type :=
| Own (c : Channel)
| Alien
| Absent.

Definition inheritedSlot (func : string) : Slot :=
  if existsb (String.eqb func) objectPrototypeNames then Alien else Absent.

Definition getProp (parsed : Parsed) (func : string) : Slot :=
  match assoc func (own parsed) with
  | Some c => Own c
  | None =>
      match proto parsed with
      | Some c =>
          if String.eqb func "value" then
            match value c with
            | Some v => if Qeq_bool v 0 then Absent else Alien
            | None => Absent
            end
          else if String.eqb func "unit" then
            if Js.isEmpty (unit c) then Absent else Alien
          else inheritedSlot func
      | None => inheritedSlot func
      end
  end.

(** An own key that is a canonical array index is enumerated before the
    other keys, in ascending numeric order. *)
Definition isArrayIndex (k : string) : bool :=
  match k with
  | EmptyString => false
  | String "0" EmptyString => true
  | String c _ =>
      negb (Ascii.eqb c "0") && Js.isEmpty (snd (Js.span Js.isDigit k))
      && (Js.digitsValue 0 k <? 4294967295)%N
  end.

Fixpoint insertIndex (k : string) (l : list string) : list string :=
  match l with
  | [] => [k]
  | k' :: l' =>
      if (Js.digitsValue 0 k <=? Js.digitsValue 0 k')%N
      then k :: l else k' :: insertIndex k l'
  end.

(** [Object.keys(parsed)]. *)
Definition objectKeys (parsed : Parsed) : list string :=
  let keys := map fst (own parsed) in
  fold_right insertIndex [] (List.filter isArrayIndex keys)
  ++ List.filter (fun k => negb (isArrayIndex k)) keys.

(** Scanning with [/(\w+)\(([^)]+)\)/g].  [InWord w]: the word [w] has been
    read; [InArgs func args]: [func(] and the argument characters [args]
    have been read.  A word not followed by an opening parenthesis, or an
    empty argument, yields no term. *)
Inductive ScanState : Type :=
| Idle
| InWord (w : string)
| InArgs (func args : string).

Fixpoint scanTerms (st : ScanState) (s : string) : list (string * string) :=
  match s with
  | EmptyString => []
  | String c s' =>
      match st with
      | Idle =>
          if Js.isWordChar c then scanTerms (InWord (String c "")) s'
          else scanTerms Idle s'
      | InWord w =>
          if Js.isWordChar c then scanTerms (InWord (w +:+ String c "")) s'
          else if Ascii.eqb c "(" then scanTerms (InArgs w "") s'
          else scanTerms Idle s'
      | InArgs func args =>
          if Ascii.eqb c ")" then
            if Js.isEmpty args then scanTerms Idle s'
            else (func, args) :: scanTerms Idle s'
          else scanTerms (InArgs func (args +:+ String c "")) s'
      end
  end.

(** [-?\d*\.?\d+] anchored at the head of [s]: the matched text and the
    rest of the string. *)
Definition matchNumberAt (s : string) : option (string * string) :=
  let '(sign, s1) :=
    match s with
    | String "-" r => ("-"%string, r)
    | _ => (""%string, s)
    end in
  let '(d1, s2) := Js.span Js.isDigit s1 in
  let integerOnly :=
    if Js.isEmpty d1 then None else Some (sign +:+ d1, s2) in
  match s2 with
  | String "." s3 =>
      let '(d2, s4) := Js.span Js.isDigit s3 in
      if Js.isEmpty d2 then integerOnly
      else Some (sign +:+ d1 +:+ "." +:+ d2, s4)
  | _ => integerOnly
  end.

(** The rest of the line: a line terminator ends the text matched by the
    second group. *)
Fixpoint dotStar (s : string) : string :=
  match s with
  | String c s' =>
      if Ascii.eqb c "010" || Ascii.eqb c "013"
         || String.prefix (String "226" (String "128" (String "168" ""))) s
         || String.prefix (String "226" (String "128" (String "169" ""))) s
      then ""%string
      else String c (dotStar s')
  | EmptyString => ""%string
  end.

(** [valStr.match] with the pattern [-?\d*\.?\d+] followed by a group
    taking the rest of the line: the leftmost match. *)
Fixpoint valMatch (valStr : string) : option (string * string) :=
  match matchNumberAt valStr with
  | Some (num, rest) => Some (num, dotStar rest)
  | None =>
      match valStr with
      | String _ s' => valMatch s'
      | EmptyString => None
      end
  end.

Definition parseTransform (transform : option jsval) : Parsed :=
  match transform with
  | Some (JStr s) =>
      fold_left
        (fun result '(func, valStr) =>
           match valMatch valStr with
           | Some (num, u) =>
               setProp result func {| value := Js.parseFloat num; unit := u |}
           | None => result
           end)
        (scanTerms Idle s) emptyObject
  | _ => emptyObject
  end.

(** ** The style resolver *)

(** [[...keyframes].sort((a, b) => a.at - b.at)]: a stable sort by [at]. *)
Fixpoint insertKeyframe (kf : AnimationKeyframe) (l : list AnimationKeyframe)
    : list AnimationKeyframe :=
  match l with
  | [] => [kf]
  | kf' :: l' =>
      if Qle_bool (kf_at kf) (kf_at kf') then kf :: l
      else kf' :: insertKeyframe kf l'
  end.

Definition sortKeyframes (keyframes : list AnimationKeyframe)
    : list AnimationKeyframe :=
  fold_right insertKeyframe [] keyframes.

(** Whether a keyframe defines a property ([kf.style[prop] !== undefined]). *)
Definition defines (prop : string) (kf : AnimationKeyframe) : Prop :=
  is_Some (style kf !! prop).

#[global] Instance defines_dec (prop : string) (kf : AnimationKeyframe)
  : Decision (defines prop kf).
Proof. unfold defines. apply _. Defined.

(** The property's value in a keyframe that defines it. *)
Definition styleOf (prop : string) (kf : AnimationKeyframe) : jsval :=
  match style kf !! prop with Some v => v | None => JNull end.

(** The set of property names of all keyframes. *)
Definition properties (sortedKeyframes : list AnimationKeyframe) : gset string :=
  fold_right (fun kf acc => dom (style kf) ∪ acc) ∅ sortedKeyframes.

(** [parseFloat(String(kf.style.opacity ?? 1))]; a number survives the
    round trip through its string. *)
Definition opacityNumber (v : jsval) : option Q :=
  match v with
  | JNum q => Some q
  | JStr s => Js.parseFloat s
  | JNull => Some 1
  end.

(** Adds the keys to an insertion-ordered set. *)
Definition addAll (keys : list string) (set : list string) : list string :=
  fold_left
    (fun acc k => if existsb (String.eqb k) acc then acc else acc ++ [k])
    keys set.

Definition allFuncs (keyframesForProp : list AnimationKeyframe) : list string :=
  fold_left
    (fun acc kf => addAll (objectKeys (parseTransform (style kf !! "transform"))) acc)
    keyframesForProp [].

Definition defaultValue (func : string) : Q :=
  if Js.includes func "scale" then 1 else 0.

Definition defaultUnit (func : string) : string :=
  if Js.includes func "rotate" then "deg"
  else if Js.includes func "translate" then "px" else "".

(** The two variables carried through the scan of one channel; [None] is
    [undefined]. *)
Record ScanVars : Type := {
  lastValue : option (option Q);
  lastUnit : option string
}.

Definition initialVars : ScanVars := {| lastValue := None; lastUnit := None |}.

(** The body of the loop over the sorted keyframes, up to the two pushes. *)
Definition channelStep (func : string) (parsed : Parsed) (vars : ScanVars)
    : ScanVars :=
  let lastUnit1 :=
    match lastUnit vars with
    | None => Some (defaultUnit func)
    | Some u => Some u
    end in
  let unitIsDefault :=
    match lastUnit1 with
    | Some u => String.eqb u (defaultUnit func)
    | None => false
    end in
  match getProp parsed func with
  | Own c =>
      {| lastValue := Some (value c);
         lastUnit := if unitIsDefault then Some (unit c) else lastUnit1 |}
  | Alien =>
      {| lastValue := None;
         lastUnit := if unitIsDefault then None else lastUnit1 |}
  | Absent =>
      {| lastValue :=
           match lastValue vars with
           | None => Some (Some (defaultValue func))
           | Some v => Some v
           end;
         lastUnit := lastUnit1 |}
  end.

(** The number pushed onto the output range: [undefined] is not a finite
    number either. *)
Definition pushed (vars : ScanVars) : option Q :=
  match lastValue vars with
  | Some v => v
  | None => None
  end.

(** The scan of one channel over the sorted keyframes: the input range, the
    output range and the variables after the last keyframe. *)
Fixpoint channelScan (func : string) (duration : Q) (vars : ScanVars)
    (sortedKeyframes : list AnimationKeyframe)
    : list Q * list (option Q) * ScanVars :=
  match sortedKeyframes with
  | [] => ([], [], vars)
  | kf :: rest =>
      let vars' := channelStep func (parseTransform (style kf !! "transform")) vars in
      let '(ins, outs, final) := channelScan func duration vars' rest in
      (kf_at kf * duration :: ins, pushed vars' :: outs, final)
  end.

Definition unitText (u : option string) : string :=
  match u with Some s => s | None => "undefined" end.

(** One channel of the animated transform; [None] when nothing is pushed
    onto [finalTransforms]. *)
Definition animateChannel (func : string) (sortedKeyframes : list AnimationKeyframe)
    (duration frame : Q) : outcome (option string) :=
  let '(funcInputRange, funcOutputRange, final) :=
    channelScan func duration initialVars sortedKeyframes in
  if Nat.ltb 1 (List.length funcInputRange) then
    let! interpolatedValue :=
      Remotion.interpolate frame funcInputRange funcOutputRange
        Remotion.defaultOptions in
    Returns (Some (func +:+ "(" +:+ Js.numberToString interpolatedValue
                   +:+ unitText (lastUnit final) +:+ ")"))
  else Returns None.

Fixpoint animateChannels (funcs : list string) (sortedKeyframes : list AnimationKeyframe)
    (duration frame : Q) : outcome (list string) :=
  match funcs with
  | [] => Returns []
  | func :: funcs' =>
      let! t := animateChannel func sortedKeyframes duration frame in
      let! ts := animateChannels funcs' sortedKeyframes duration frame in
      Returns (match t with Some s => s :: ts | None => ts end)
  end.

(** The step selection of the last branch: the value of the last keyframe,
    in sorted order, whose position the frame has reached. *)
Fixpoint stepValue (frame duration : Q) (current : jsval) (prop : string)
    (keyframesForProp : list AnimationKeyframe) : jsval :=
  match keyframesForProp with
  | [] => current
  | kf :: rest =>
      stepValue frame duration
        (if Qle_bool (kf_at kf * duration) frame then styleOf prop kf else current)
        prop rest
  end.

Section Resolver.

(** The library's colour interpolation is left abstract. *)
Variable interpolateColors : Q -> list Q -> list string -> outcome string.

(** The body of [properties.forEach]: the value the property receives in
    [finalStyle], if any. *)
Definition animateProperty (prop : string) (sortedKeyframes : list AnimationKeyframe)
    (duration frame : Q) : outcome (option jsval) :=
  let keyframesForProp := filter (defines prop) sortedKeyframes in
  match keyframesForProp with
  | [] => Returns None
  | [kf] => Returns (Some (styleOf prop kf))
  | first :: _ =>
      let inputRange := map (fun kf => kf_at kf * duration) keyframesForProp in
      if String.eqb prop "opacity" then
        let outputRange := map (fun kf => opacityNumber (styleOf prop kf)) keyframesForProp in
        let! v := Remotion.interpolate frame inputRange outputRange Remotion.clampBoth in
        Returns (Some (JNum v))
      else if String.eqb prop "color" || String.eqb prop "backgroundColor" then
        let outputRange := map (fun kf => jsToString (styleOf prop kf)) keyframesForProp in
        let! c := interpolateColors frame inputRange outputRange in
        Returns (Some (JStr c))
      else if String.eqb prop "transform" then
        let! finalTransforms :=
          animateChannels (allFuncs keyframesForProp) sortedKeyframes duration frame in
        Returns (Some (JStr (Js.join " " finalTransforms)))
      else
        Returns (Some (stepValue frame duration (styleOf prop first) prop keyframesForProp))
  end.

Fixpoint animateProperties (props : list string) (sortedKeyframes : list AnimationKeyframe)
    (duration frame : Q) (finalStyle : gmap string jsval)
    : outcome (gmap string jsval) :=
  match props with
  | [] => Returns finalStyle
  | prop :: props' =>
      let! r := animateProperty prop sortedKeyframes duration frame in
      animateProperties props' sortedKeyframes duration frame
        (match r with Some v => <[prop := v]> finalStyle | None => finalStyle end)
  end.

(** [useAnimatedStyle(keyframes, duration)] at the current [frame].  The
    properties are visited in the order of [elements]; the order decides
    only which error is raised when several properties fail. *)
Definition useAnimatedStyle (keyframes : option (list AnimationKeyframe))
    (duration frame : Q) : outcome (gmap string jsval) :=
  match keyframes with
  | None | Some [] => Returns ∅
  | Some keyframes =>
      let sortedKeyframes := sortKeyframes keyframes in
      animateProperties (elements (properties sortedKeyframes))
        sortedKeyframes duration frame ∅
  end.

End Resolver.

(** ** Elements, scenes and the composition *)

Inductive ElementType : Type := shape | text.
Inductive ShapeType : Type := rectangle | circle.

Record AnimationElement : Type := {
  el_id : string;
  el_type : ElementType;
  el_shape : option ShapeType;
  el_text : option string;
  keyframes : list AnimationKeyframe
}.

Record Scene : Type := {
  animationElements : list AnimationElement;
  cameraAnimation : option (list AnimationKeyframe);
  imageUrl : option string;
  backgroundColor : option string
}.

(** The fields of the root document the compositor reads. *)
Record VideoResult : Type := {
  scenes : option (list Scene);
  videoBackgroundColor : option string
}.

(** What an element renders to: the style of its [div] and its text. *)
Record RenderedElement : Type := {
  divStyle : gmap string jsval;
  divText : option string
}.

Record RenderedScene : Type := {
  sceneOpacityValue : Q;
  sceneBackground : string;
  sceneImage : option (string * string);
  sceneCameraStyle : gmap string jsval;
  sceneElements : list RenderedElement
}.

Inductive RenderedAnimation : Type :=
| Placeholder (fillStyle : gmap string jsval) (message : string)
| Composition (layers : list RenderedScene).

Definition DURATION_PER_SCENE : Q := 90.
Definition TRANSITION_DURATION : Q := 30.

Definition baseTransform : string := "translate(-50%, -50%)".

Definition baseStyle (element : AnimationElement) : gmap string jsval :=
  let base : gmap string jsval :=
    <["transform" := JStr baseTransform]>
    (<["left" := JStr "50%"]>
    (<["top" := JStr "50%"]>
    (<["justifyContent" := JStr "center"]>
    (<["alignItems" := JStr "center"]>
    (<["display" := JStr "flex"]>
    {["position" := JStr "absolute"]}))))) in
  let base :=
    match el_type element, el_shape element with
    | shape, Some circle => <["borderRadius" := JStr "50%"]> base
    | _, _ => base
    end in
  match el_type element with
  | text =>
      <["color" := JStr "white"]>
      (<["lineHeight" := JStr "1.2"]>
      (<["fontWeight" := JNum 700]>
      (<["fontSize" := JStr "clamp(1rem, 5vw, 3.5rem)"]>
      (<["textAlign" := JStr "center"]> base))))
  | shape => base
  end.

(** [{...baseStyle, ...animatedStyle}], then the two transforms joined when
    both are truthy. *)
Definition mergeStyles (base animatedStyle : gmap string jsval) : gmap string jsval :=
  let finalStyle := animatedStyle ∪ base in
  match base !! "transform", animatedStyle !! "transform" with
  | Some b, Some a =>
      if truthy b && truthy a
      then <["transform" := JStr (jsToString b +:+ " " +:+ jsToString a)]> finalStyle
      else finalStyle
  | _, _ => finalStyle
  end.

Definition getKenBurnsValues (frame duration : Q) (index : nat) : outcome (Q * Q) :=
  let progress := frame / duration in
  let isEven := Nat.eqb (index mod 2) 0 in
  let! scale :=
    Remotion.interpolate progress [0; 1]
      (if isEven then [Some 1; Some (11 # 10)] else [Some (11 # 10); Some 1])
      Remotion.defaultOptions in
  let! rotate :=
    Remotion.interpolate progress [0; 1]
      (if isEven then [Some (-1); Some 1] else [Some 1; Some (-1)])
      Remotion.defaultOptions in
  Returns (scale, rotate).

Definition getKenBurnsEffect (frame duration : Q) (index : nat) : outcome string :=
  let! values := getKenBurnsValues frame duration index in
  let '(scale, rotate) := values in
  Returns ("scale(" +:+ Js.numberToString scale +:+ ") rotate("
           +:+ Js.numberToString rotate +:+ "deg)").

(** The opacity of a scene at its own frame. *)
Definition sceneOpacity (isFirst isLast : bool) (sceneDuration transitionDuration frame : Q)
    : outcome Q :=
  if isFirst && isLast then Returns 1
  else if isFirst then
    Remotion.interpolate frame [sceneDuration; sceneDuration + transitionDuration]
      [Some 1; Some 0] Remotion.clampBoth
  else if isLast then
    Remotion.interpolate frame [0; transitionDuration] [Some 0; Some 1] Remotion.clampBoth
  else
    let! fadeIn :=
      Remotion.interpolate frame [0; transitionDuration] [Some 0; Some 1]
        Remotion.clampRight in
    let! fadeOut :=
      Remotion.interpolate frame [sceneDuration; sceneDuration + transitionDuration]
        [Some 1; Some 0] Remotion.clampLeft in
    Returns (Qmin fadeIn fadeOut).

Definition nonEmpty (s : option string) : bool :=
  match s with Some s => negb (Js.isEmpty s) | None => false end.

Section Components.

Variable interpolateColors : Q -> list Q -> list string -> outcome string.

Definition AnimatedElement (element : AnimationElement) (sceneDuration frame : Q)
    : outcome RenderedElement :=
  let! animatedStyle :=
    useAnimatedStyle interpolateColors (Some (keyframes element)) sceneDuration frame in
  Returns {| divStyle := mergeStyles (baseStyle element) animatedStyle;
             divText := match el_type element with
                        | text => el_text element
                        | shape => None
                        end |}.

Fixpoint renderElements (elements : list AnimationElement) (sceneDuration frame : Q)
    : outcome (list RenderedElement) :=
  match elements with
  | [] => Returns []
  | el :: rest =>
      let! r := AnimatedElement el sceneDuration frame in
      let! rs := renderElements rest sceneDuration frame in
      Returns (r :: rs)
  end.

(** [frame] is the frame inside the scene's sequence and
    [durationInFrames] the duration the video configuration reports. *)
Definition SceneComponent (scene : Scene) (isFirst isLast : bool)
    (sceneDuration transitionDuration : Q) (index : nat)
    (durationInFrames frame : Q) : outcome RenderedScene :=
  let! opacity := sceneOpacity isFirst isLast sceneDuration transitionDuration frame in
  let! imageTransforms := getKenBurnsEffect frame durationInFrames index in
  let! cameraStyle :=
    useAnimatedStyle interpolateColors (cameraAnimation scene) sceneDuration frame in
  let! rendered := renderElements (animationElements scene) sceneDuration frame in
  Returns {| sceneOpacityValue := opacity;
             sceneBackground :=
               if nonEmpty (backgroundColor scene)
               then default "" (backgroundColor scene) else "transparent";
             sceneImage :=
               if nonEmpty (imageUrl scene)
               then Some (default "" (imageUrl scene), imageTransforms) else None;
             sceneCameraStyle := cameraStyle;
             sceneElements := rendered |}.

Definition placeholderStyle : gmap string jsval :=
  <["fontSize" := JNum 24]>
  (<["color" := JStr "white"]>
  (<["alignItems" := JStr "center"]>
  (<["justifyContent" := JStr "center"]>
  {["backgroundColor" := JStr "black"]}))).

Definition placeholderMessage : string := "Animation data is missing or invalid.".

(** The scenes from position [index] on, each inside its sequence; a
    scene whose sequence is not mounted at [frame] renders nothing.
    Inside the sequence the frame is counted from the sequence's start,
    and the video configuration reports the sequence's own duration, the
    window of [DURATION_PER_SCENE + TRANSITION_DURATION] frames, not the
    composition's.  (The library caps that duration by what the
    composition has left after the sequence's start; the composition the
    player configures, [scenes * 90 + 30] frames, leaves every scene its
    full window, so that the cap never applies.) *)
Fixpoint renderScenes (rest : list Scene) (index count : nat)
    (videoBackground : option string) (frame : Q)
    : outcome (list RenderedScene) :=
  match rest with
  | [] => Returns []
  | scene :: rest' =>
      let finalScene :=
        {| animationElements := animationElements scene;
           cameraAnimation := cameraAnimation scene;
           imageUrl := imageUrl scene;
           backgroundColor :=
             if negb (nonEmpty (imageUrl scene)) && nonEmpty videoBackground
             then videoBackground else backgroundColor scene |} in
      let from := inject_Z (Z.of_nat index) * DURATION_PER_SCENE in
      let window := DURATION_PER_SCENE + TRANSITION_DURATION in
      let! layer :=
        if Remotion.sequenceMounted from window frame then
          let! r :=
            SceneComponent finalScene (Nat.eqb index 0) (Nat.eqb index (count - 1))
              DURATION_PER_SCENE TRANSITION_DURATION index window
              (Remotion.sequenceFrame from frame) in
          Returns [r]
        else Returns [] in
      let! layers :=
        renderScenes rest' (S index) count videoBackground frame in
      Returns (layer ++ layers)
  end.

(** [Animation] at the frame [frame] of a composition of
    [durationInFrames] frames.  The component itself does not read the
    composition's duration, and its scenes are told the duration of their
    own sequence. *)
Definition Animation (videoResult : VideoResult) (durationInFrames frame : Q)
    : outcome RenderedAnimation :=
  match scenes videoResult with
  | None | Some [] => Returns (Placeholder placeholderStyle placeholderMessage)
  | Some scenes =>
      let! layers :=
        renderScenes scenes 0 (List.length scenes)
          (videoBackgroundColor videoResult) frame in
      Returns (Composition layers)
  end.

End Components.

(** The length of the whole composition, as the player computes it. *)
Definition compositionDuration (videoResult : VideoResult) : Q :=
  match scenes videoResult with
  | None | Some [] => DURATION_PER_SCENE
  | Some scenes =>
      inject_Z (Z.of_nat (List.length scenes)) * DURATION_PER_SCENE + TRANSITION_DURATION
  end.

(** ** Reference formulas *)

(** The straight line through [(x0, y0)] and [(x1, y1)], evaluated at [t]. *)
Definition linearBetween (x0 y0 x1 y1 t : Q) : Q :=
  y0 + (t - x0) * (y1 - y0) / (x1 - x0).

(** The segment walk of [interpolate] over zipped ranges, by recursion on
    the ranges instead of an index. *)
Fixpoint segmentValue (t : Q) (ins outs : list Q)
    (options : Remotion.InterpolateOptions) : Q :=
  match ins, outs with
  | x0 :: ((x1 :: ins2) as ins'), y0 :: ((y1 :: _) as outs') =>
      match ins2 with
      | [] => Remotion.interpolateFunction t x0 x1 y0 y1 options
      | _ :: _ =>
          if Qle_bool t x1 then Remotion.interpolateFunction t x0 x1 y0 y1 options
          else segmentValue t ins' outs' options
      end
  | _, _ => Remotion.interpolateFunction t 0 0 0 0 options
  end.

(** The position of a keyframe on the scene's frame axis. *)
Definition position (duration : Q) (kf : AnimationKeyframe) : Q :=
  kf_at kf * duration.

(** The variables of a channel scan after a prefix of the keyframes. *)
Definition scanVarsAfter (func : string) (processed : list AnimationKeyframe)
    : ScanVars :=
  fold_left
    (fun vars kf => channelStep func (parseTransform (style kf !! "transform")) vars)
    processed initialVars.

Definition channelInputs (func : string) (duration : Q)
    (sortedKeyframes : list AnimationKeyframe) : list Q :=
  fst (fst (channelScan func duration initialVars sortedKeyframes)).

Definition channelOutputs (func : string) (duration : Q)
    (sortedKeyframes : list AnimationKeyframe) : list (option Q) :=
  snd (fst (channelScan func duration initialVars sortedKeyframes)).

Definition channelUnit (func : string) (duration : Q)
    (sortedKeyframes : list AnimationKeyframe) : string :=
  unitText (lastUnit (snd (channelScan func duration initialVars sortedKeyframes))).

(** The text of one transform function in the resolved transform. *)
Definition channelText (func : string) (v : Q) (u : string) : string :=
  func +:+ "(" +:+ Js.numberToString v +:+ u +:+ ")".

(** The fade ramps of the cross-fade, as the schedule describes them:
    opacity 1 up to [sceneDuration], then linearly down to 0 over
    [transitionDuration]; and 0 up to frame 0, then linearly up to 1 over
    [transitionDuration]. *)
Definition fadeOutRamp (sceneDuration transitionDuration f : Q) : Q :=
  if Qle_bool f sceneDuration then 1
  else if Qle_bool (sceneDuration + transitionDuration) f then 0
  else 1 - (f - sceneDuration) / transitionDuration.

Definition fadeInRamp (transitionDuration f : Q) : Q :=
  if Qle_bool f 0 then 0
  else if Qle_bool transitionDuration f then 1
  else f / transitionDuration.

(** The opacity [Animation] gives scene [index] of [count] scenes at a
    frame of the master timeline: the scene sits in a sequence starting at
    [index * DURATION_PER_SCENE]. *)
Definition sceneOpacityAt (count index : nat) (frame : Q) : outcome Q :=
  sceneOpacity (Nat.eqb index 0) (Nat.eqb index (count - 1))
    DURATION_PER_SCENE TRANSITION_DURATION
    (Remotion.sequenceFrame (inject_Z (Z.of_nat index) * DURATION_PER_SCENE) frame).

(** A colour interpolation that always fails, for inputs without colours. *)
Definition noColors (frame : Q) (inputRange : list Q) (outputRange : list string)
    : outcome string :=
  Throws ColorError.

Definition emptyScene : Scene :=
  {| animationElements := []; cameraAnimation := None;
     imageUrl := None; backgroundColor := None |}.

Definition imageScene : Scene :=
  {| animationElements := []; cameraAnimation := None;
     imageUrl := Some "bg.png"; backgroundColor := None |}.

Definition threeScenes : VideoResult :=
  {| scenes := Some [emptyScene; emptyScene; emptyScene];
     videoBackgroundColor := None |}.

Definition threeImageScenes : VideoResult :=
  {| scenes := Some [imageScene; imageScene; imageScene];
     videoBackgroundColor := None |}.

(** The background effect as a function of the overall progress
    [frame / total] of the master timeline. *)
Definition kenBurnsByOverallProgress (videoResult : VideoResult) (index : nat)
    (frame : Q) : outcome string :=
  getKenBurnsEffect frame (compositionDuration videoResult) index.

(** The opacity a keyframe contributes to the output range. *)
Definition opacityOf (kf : AnimationKeyframe) : option Q :=
  opacityNumber (styleOf "opacity" kf).

(** The clamping example of the specification: opacity 0 at 0.2 and 1 at
    0.8 of the scene. *)
Definition clampingExample : list AnimationKeyframe :=
  [ {| kf_at := 8 # 10; style := {[ "opacity"%string := JNum 1 ]} |};
    {| kf_at := 2 # 10; style := {[ "opacity"%string := JNum 0 ]} |} ].

(** Two opacity keyframes at the same position. *)
Definition tiedOpacityExample : list AnimationKeyframe :=
  [ {| kf_at := 1 # 2; style := {[ "opacity"%string := JNum 0 ]} |};
    {| kf_at := 1 # 2; style := {[ "opacity"%string := JNum 1 ]} |} ].

(** An opacity given as a string that is no number. *)
Definition badOpacityExample : list AnimationKeyframe :=
  [ {| kf_at := 0; style := {[ "opacity"%string := JStr "abc" ]} |};
    {| kf_at := 1; style := {[ "opacity"%string := JNum 1 ]} |} ].

Definition badOpacityElement : AnimationElement :=
  {| el_id := "title"; el_type := text; el_shape := None;
     el_text := Some "Hello"%string; keyframes := badOpacityExample |}.

Definition badOpacityVideo : VideoResult :=
  {| scenes := Some [ {| animationElements := [badOpacityElement];
                         cameraAnimation := None; imageUrl := None;
                         backgroundColor := None |} ];
     videoBackgroundColor := None |}.

(** The step example of the specification: a filter defined at the start
    and at the middle of the scene. *)
Definition filterExample : list AnimationKeyframe :=
  [ {| kf_at := 0; style := {[ "filter"%string := JStr "blur(0px)" ]} |};
    {| kf_at := 1 # 2; style := {[ "filter"%string := JStr "blur(10px)" ]} |} ].

(** What a keyframe holds for a transform function. *)
Definition slotAt (func : string) (kf : AnimationKeyframe) : Slot :=
  getProp (parseTransform (style kf !! "transform")) func.

(** The variables of a channel scan that starts from [vars]. *)
Definition scanVarsFrom (func : string) (vars : ScanVars)
    (processed : list AnimationKeyframe) : ScanVars :=
  fold_left
    (fun vars kf => channelStep func (parseTransform (style kf !! "transform")) vars)
    processed vars.

(** An element whose two transform keyframes hold no transform function. *)
Definition unparsableElement : AnimationElement :=
  {| el_id := "box"; el_type := shape; el_shape := Some rectangle; el_text := None;
     keyframes :=
       [ {| kf_at := 0; style := {[ "transform"%string := JStr "" ]} |};
         {| kf_at := 1; style := {[ "transform"%string := JStr "none" ]} |} ] |}.

(** The channel example of the specification. *)
Definition transformExample : list AnimationKeyframe :=
  [ {| kf_at := 0;
       style := {[ "transform"%string := JStr "translateX(0px) scale(1)" ]} |};
    {| kf_at := 1; style := {[ "transform"%string := JStr "translateX(100px)" ]} |} ].

Definition transformElement : AnimationElement :=
  {| el_id := "box"; el_type := shape; el_shape := Some rectangle; el_text := None;
     keyframes := transformExample |}.

(** The order the keyframes are sorted by. *)
Definition atLe (a b : AnimationKeyframe) : Prop := kf_at a <= kf_at b.

(** ** Further definitions *)

(** The strict order of keyframes at different positions. *)
Definition atLt (a b : AnimationKeyframe) : Prop := kf_at a < kf_at b.

(** No two keyframes share a value of [at]. *)
Definition distinctAts (keyframes : list AnimationKeyframe) : Prop :=
  NoDup (map (fun kf => Qred (kf_at kf)) keyframes).

(** One opacity keyframe among keyframes of another property. *)
Definition singleOpacityExample : list AnimationKeyframe :=
  [ {| kf_at := 1 # 2; style := {[ "opacity"%string := JNum (3 # 10) ]} |};
    {| kf_at := 0; style := {[ "filter"%string := JStr "blur(0px)" ]} |};
    {| kf_at := 1; style := {[ "filter"%string := JStr "blur(4px)" ]} |} ].

Definition badOpacityScene : Scene :=
  {| animationElements := [badOpacityElement]; cameraAnimation := None;
     imageUrl := None; backgroundColor := None |}.

(** The scene [Animation] hands to the scene component: a scene without an
    image takes the video-level background colour when there is one. *)
Definition withVideoBackground (videoBackground : option string) (scene : Scene)
    : Scene :=
  {| animationElements := animationElements scene;
     cameraAnimation := cameraAnimation scene;
     imageUrl := imageUrl scene;
     backgroundColor :=
       if negb (nonEmpty (imageUrl scene)) && nonEmpty videoBackground
       then videoBackground else backgroundColor scene |}.

(** Whether the sequence of scene [k] is mounted at a master frame. *)
Definition sceneMountedAt (k : nat) (frame : Q) : bool :=
  Remotion.sequenceMounted (inject_Z (Z.of_nat k) * DURATION_PER_SCENE)
    (DURATION_PER_SCENE + TRANSITION_DURATION) frame.

(** The scenes among [index, index + n) that are mounted at a frame. *)
Definition mountedIndices (index n : nat) (frame : Q) : list nat :=
  List.filter (fun k => sceneMountedAt k frame) (seq index n).

(** A text element with one opacity keyframe. *)
Definition titleElement : AnimationElement :=
  {| el_id := "title"; el_type := text; el_shape := None;
     el_text := Some "Hello"%string; keyframes := singleOpacityExample |}.

(** Whether a text begins like a decimal number: a digit, or a point
    followed by a digit. *)
Definition startsNumber (s : string) : bool :=
  match s with
  | String c r =>
      Js.isDigit c
      || (Ascii.eqb c "." &&
          match r with String c' _ => Js.isDigit c' | EmptyString => false end)
  | EmptyString => false
  end.

(** The shape of the text the number pattern matches: an optional minus
    sign, then the beginning of a decimal number. *)
Definition numberShaped (num : string) : bool :=
  match num with
  | String c r => if Ascii.eqb c "-" then startsNumber r else startsNumber num
  | EmptyString => false
  end.

(** Function names that are plain dictionary keys: not the name of a
    member every object inherits, nor [value] or [unit]. *)
Definition ordinaryName (func : string) : bool :=
  negb (existsb (String.eqb func) ("value" :: "unit" :: objectPrototypeNames)%string).

(** The units the keyframes give a function, in keyframe order. *)
Fixpoint definedUnits (func : string) (sortedKeyframes : list AnimationKeyframe)
    : list string :=
  match sortedKeyframes with
  | [] => []
  | kf :: rest =>
      match slotAt func kf with
      | Own c => unit c :: definedUnits func rest
      | _ => definedUnits func rest
      end
  end.

(** The first unit that differs from [d], or [d] when there is none. *)
Definition firstOtherUnit (d : string) (units : list string) : string :=
  match List.filter (fun u => negb (String.eqb u d)) units with
  | u :: _ => u
  | [] => d
  end.

(** A channel given in pixels first and in percent later. *)
Definition mixedUnitExample : list AnimationKeyframe :=
  [ {| kf_at := 0; style := {[ "transform"%string := JStr "translateX(10px)" ]} |};
    {| kf_at := 1; style := {[ "transform"%string := JStr "translateX(50%)" ]} |} ].

(** The channels of a parsed transform all hold a finite number. *)
Definition finiteChannels (parsed : Parsed) : Prop :=
  (forall k c, assoc k (own parsed) = Some c -> is_Some (value c))
  /\ (forall c, proto parsed = Some c -> is_Some (value c)).

(** Numbers are exact in this development.  A transform string of at most
    308 characters keeps each of its literals below the largest double,
    so that the source's [parseFloat] is finite on it as well. *)
Definition withinDoubleRange (transform : option jsval) : Prop :=
  forall s, transform = Some (JStr s) -> (String.length s <= 308)%nat.

(** The output range of a channel when all of it is finite. *)
Definition finiteOutputs (func : string) (duration : Q)
    (sortedKeyframes : list AnimationKeyframe) : list Q :=
  default [] (Remotion.allFinite (channelOutputs func duration sortedKeyframes)).

(** The resolved transform in closed form: one term per function, in the
    order of [allFuncs], joined by spaces. *)
Definition resolvedTransform (sortedKeyframes : list AnimationKeyframe)
    (duration frame : Q) : string :=
  Js.join " "
    (map (fun func =>
            channelText func
              (segmentValue frame (map (position duration) sortedKeyframes)
                 (finiteOutputs func duration sortedKeyframes)
                 Remotion.defaultOptions)
              (channelUnit func duration sortedKeyframes))
         (allFuncs (filter (defines "transform") sortedKeyframes))).

(** ** The dimensions of the player *)

(** The aspect ratios the root document can carry. *)
Inductive AspectRatio : Type := Ratio16x9 | Ratio9x16 | Ratio1x1.

Definition aspectRatioText (aspectRatio : AspectRatio) : string :=
  match aspectRatio with
  | Ratio16x9 => "16:9"
  | Ratio9x16 => "9:16"
  | Ratio1x1 => "1:1"
  end.

(** [String.prototype.split] with a separator of one character. *)
Fixpoint splitOn (sep : ascii) (s : string) : list string :=
  match s with
  | EmptyString => [""%string]
  | String c s' =>
      if Ascii.eqb c sep then ""%string :: splitOn sep s'
      else match splitOn sep s' with
           | part :: parts => String c part :: parts
           | [] => [String c ""]
           end
  end.

(** [Number] on a string: the empty string is 0 and a run of decimal
    digits is its value.  Any other text is taken as not a number, which
    is what [Number] gives unless the text is padded with white space or
    is a signed, fractional, exponent or prefixed literal; none of these
    occurs in an aspect ratio. *)
Definition toNumber (s : string) : option Q :=
  if Js.isEmpty (snd (Js.span Js.isDigit s))
  then Some (inject_Z (Z.of_N (Js.digitsValue 0 s)))
  else None.

Record Dimensions : Type := {
  width : Q;
  height : Q
}.

(** An element of a destructured array of numbers; a missing element is
    [undefined], which compares like a value that is not a number. *)
Definition numberAt (i : nat) (parts : list (option Q)) : option Q :=
  match parts !! i with
  | Some n => n
  | None => None
  end.

(** [getDimensions(aspectRatio)], on the text of the ratio.  A comparison
    with a value that is not a number is false. *)
Definition getDimensions (aspectRatio : string) : Dimensions :=
  let baseResolution : Q := 1280 in
  let parts := map toNumber (splitOn ":" aspectRatio) in
  match numberAt 0 parts, numberAt 1 parts with
  | Some w, Some h =>
      if Remotion.Qltb h w then
        {| width := baseResolution; height := (baseResolution * h) / w |}
      else if Remotion.Qltb w h then
        {| width := (baseResolution * w) / h; height := baseResolution |}
      else {| width := 1080; height := 1080 |}
  | _, _ => {| width := 1080; height := 1080 |}
  end.


(** ** The rendering library: properties of [interpolate] *)

Section InterpolateFacts.

Import Remotion.

Lemma Qltb_lt (a b : Q) : Qltb a b = true <-> a < b.
Proof.
  unfold Qltb. rewrite negb_true_iff. split.
  - intros H. apply Qnot_le_lt. intros Hle.
    apply Qle_bool_iff in Hle. congruence.
  - intros H. destruct (Qle_bool b a) eqn:E; [|reflexivity].
    apply Qle_bool_iff in E. lra.
Qed.

Lemma Qltb_ge (a b : Q) : Qltb a b = false <-> b <= a.
Proof.
  unfold Qltb. rewrite negb_false_iff. apply Qle_bool_iff.
Qed.

Lemma Qle_bool_false (a b : Q) : Qle_bool a b = false <-> b < a.
Proof.
  rewrite <- Qltb_lt. unfold Qltb. rewrite negb_true_iff. reflexivity.
Qed.

Lemma linearBetween_flat (x0 y0 x1 y1 t : Q) :
  x0 < x1 -> y0 == y1 -> linearBetween x0 y0 x1 y1 t == y0.
Proof.
  intros Hx Hy. unfold linearBetween. rewrite Hy. field. lra.
Qed.



Lemma interpolateFunction_inside (t x0 x1 y0 y1 : Q) (o : InterpolateOptions) :
  x0 < x1 ->
  (extrapolateLeft o = extend \/ x0 <= t) ->
  (extrapolateRight o = extend \/ t <= x1) ->
  interpolateFunction t x0 x1 y0 y1 o == linearBetween x0 y0 x1 y1 t.
Proof.
  intros Hx Hl Hr. unfold interpolateFunction.
  assert (E1 : (if Qltb t x0
                then match extrapolateLeft o with clamp => x0 | extend => t end
                else t) = t).
  { destruct (Qltb t x0) eqn:E; [|reflexivity].
    apply Qltb_lt in E. destruct Hl as [-> | Hl]; [reflexivity | lra]. }
  rewrite E1.
  assert (E2 : (if Qltb x1 t
                then match extrapolateRight o with clamp => x1 | extend => t end
                else t) = t).
  { destruct (Qltb x1 t) eqn:E; [|reflexivity].
    apply Qltb_lt in E. destruct Hr as [-> | Hr]; [reflexivity | lra]. }
  rewrite E2.
  destruct (Qeq_bool y0 y1) eqn:Ey.
  - apply Qeq_bool_eq in Ey. symmetry. apply linearBetween_flat; assumption.
  - unfold linearBetween. field. lra.
Qed.

Lemma interpolateFunction_clamped_left (t x0 x1 y0 y1 : Q) (o : InterpolateOptions) :
  x0 < x1 -> extrapolateLeft o = clamp -> t <= x0 ->
  interpolateFunction t x0 x1 y0 y1 o == y0.
Proof.
  intros Hx Hl Ht.
  destruct (Qlt_le_dec t x0) as [Hlt | Hge].
  - unfold interpolateFunction. rewrite Hl.
    assert (E : Qltb t x0 = true) by (apply Qltb_lt; assumption).
    rewrite E.
    assert (E' : Qltb x1 x0 = false) by (apply Qltb_ge; lra).
    rewrite E'.
    destruct (Qeq_bool y0 y1); [reflexivity | field; lra].
  - rewrite interpolateFunction_inside; [| assumption | right; assumption | right; lra].
    assert (Et : t == x0) by lra.
    unfold linearBetween. rewrite Et. field. lra.
Qed.

Lemma interpolateFunction_clamped_right (t x0 x1 y0 y1 : Q) (o : InterpolateOptions) :
  x0 < x1 -> extrapolateRight o = clamp -> x1 <= t ->
  interpolateFunction t x0 x1 y0 y1 o == y1.
Proof.
  intros Hx Hr Ht.
  destruct (Qlt_le_dec x1 t) as [Hlt | Hge].
  - unfold interpolateFunction. rewrite Hr.
    assert (E : Qltb t x0 = false) by (apply Qltb_ge; lra).
    rewrite E.
    assert (E' : Qltb x1 t = true) by (apply Qltb_lt; assumption).
    rewrite E'.
    destruct (Qeq_bool y0 y1) eqn:Ey.
    + apply Qeq_bool_eq in Ey. assumption.
    + field. lra.
  - rewrite interpolateFunction_inside; [| assumption | right; lra | right; assumption].
    assert (Et : t == x1) by lra.
    unfold linearBetween. rewrite Et. field. lra.
Qed.

End InterpolateFacts.

Section InterpolateRanges.

Import Remotion.

Lemma findRangeFrom_step (i : nat) (t x x' : Q) (rest : list Q) :
  findRangeFrom i t (x :: x' :: rest) =
  if Qle_bool t x then i else findRangeFrom (S i) t (x' :: rest).
Proof. reflexivity. Qed.

Lemma findRangeFrom_succ (i : nat) (t : Q) (rest : list Q) :
  findRangeFrom (S i) t rest = S (findRangeFrom i t rest).
Proof.
  revert i. induction rest as [|x rest IH]; intros i; [reflexivity|].
  destruct rest as [|x' rest']; [reflexivity|].
  rewrite !findRangeFrom_step. destruct (Qle_bool t x); [reflexivity|]. apply IH.
Qed.

Lemma findRangeFrom_ge (i : nat) (t : Q) (rest : list Q) :
  (i <= findRangeFrom i t rest)%nat.
Proof.
  revert i. induction rest as [|x rest IH]; intros i; [cbn; lia|].
  destruct rest as [|x' rest']; [cbn; lia|].
  rewrite findRangeFrom_step. destruct (Qle_bool t x); [lia|].
  specialize (IH (S i)). lia.
Qed.

Lemma findRange_two (t x0 x1 : Q) : findRange t [x0; x1] = 0%nat.
Proof. reflexivity. Qed.

Lemma findRange_more (t x0 x1 x2 : Q) (ins : list Q) :
  findRange t (x0 :: x1 :: x2 :: ins) =
  if Qle_bool t x1 then 0%nat else S (findRange t (x1 :: x2 :: ins)).
Proof.
  unfold findRange. cbn [List.tl]. rewrite findRangeFrom_step.
  destruct (Qle_bool t x1); [reflexivity|].
  rewrite findRangeFrom_succ.
  pose proof (findRangeFrom_ge 1 t (x2 :: ins)). lia.
Qed.

Lemma segmentValue_step (t x0 x1 x2 y0 y1 : Q) (ins outs : list Q)
    (o : InterpolateOptions) :
  segmentValue t (x0 :: x1 :: x2 :: ins) (y0 :: y1 :: outs) o =
  if Qle_bool t x1 then interpolateFunction t x0 x1 y0 y1 o
  else segmentValue t (x1 :: x2 :: ins) (y1 :: outs) o.
Proof. reflexivity. Qed.

Lemma allFinite_Some (outs : list (option Q)) (os : list Q) :
  allFinite outs = Some os <-> outs = map Some os.
Proof.
  revert os. induction outs as [|o outs IH]; intros os.
  - cbn. split; [intros [= <-]; reflexivity | destruct os; [reflexivity | discriminate]].
  - destruct o as [q|]; cbn.
    + destruct (allFinite outs) as [os'|] eqn:E; cbn.
      * split.
        -- intros [= <-]. cbn. f_equal. apply IH. reflexivity.
        -- destruct os as [|q' os'']; [discriminate|]. cbn. intros [= -> H].
           apply IH in H. congruence.
      * split; [discriminate|].
        destruct os as [|q' os'']; [discriminate|]. cbn. intros [= -> H].
        apply IH in H. discriminate.
    + split; [discriminate | destruct os; discriminate].
Qed.

Lemma allFinite_length (outs : list (option Q)) (os : list Q) :
  allFinite outs = Some os -> List.length os = List.length outs.
Proof. intros H. apply allFinite_Some in H. subst. rewrite length_map. reflexivity. Qed.

Lemma segmentValue_findRange (t : Q) (ins outs : list Q) (o : InterpolateOptions) :
  List.length ins = List.length outs -> (2 <= List.length ins)%nat ->
  interpolateFunction t
    (List.nth (findRange t ins) ins 0) (List.nth (S (findRange t ins)) ins 0)
    (List.nth (findRange t ins) outs 0) (List.nth (S (findRange t ins)) outs 0) o
  = segmentValue t ins outs o.
Proof.
  revert outs. induction ins as [|x0 ins IH]; intros outs Hlen Hge; [cbn in Hge; lia|].
  destruct ins as [|x1 ins]; [cbn in Hge; lia|].
  destruct outs as [|y0 [|y1 outs]]; try discriminate.
  destruct ins as [|x2 ins].
  - reflexivity.
  - rewrite findRange_more, segmentValue_step.
    destruct (Qle_bool t x1); [reflexivity|].
    cbn [List.nth].
    apply (IH (y1 :: outs)); cbn in *; lia.
Qed.

(** With ranges of equal length, at least two knots, finite outputs and
    strictly increasing inputs, [interpolate] returns the segment value. *)
Lemma interpolate_returns (t : Q) (ins : list Q) (outs : list (option Q))
    (os : list Q) (o : InterpolateOptions) :
  List.length ins = List.length outs -> (2 <= List.length ins)%nat ->
  allFinite outs = Some os -> strictlyIncreasing ins = true ->
  interpolate t ins outs o = Returns (segmentValue t ins os o).
Proof.
  intros Hlen Hge Hfin Hinc. unfold interpolate.
  rewrite Hlen, Nat.eqb_refl. cbn [negb].
  destruct (Nat.ltb_spec (List.length outs) 2) as [Hlt|_]; [lia|].
  rewrite Hfin, Hinc. cbn [negb].
  rewrite segmentValue_findRange; [reflexivity | | assumption].
  rewrite (allFinite_length _ _ Hfin). assumption.
Qed.

Lemma interpolate_not_finite (t : Q) (ins : list Q) (outs : list (option Q))
    (o : InterpolateOptions) :
  List.length ins = List.length outs -> (2 <= List.length ins)%nat ->
  allFinite outs = None ->
  interpolate t ins outs o = Throws InterpolateNotFinite.
Proof.
  intros Hlen Hge Hfin. unfold interpolate.
  rewrite Hlen, Nat.eqb_refl. cbn [negb].
  destruct (Nat.ltb_spec (List.length outs) 2) as [Hlt|_]; [lia|].
  rewrite Hfin. reflexivity.
Qed.

Lemma interpolate_not_increasing (t : Q) (ins : list Q) (outs : list (option Q))
    (os : list Q) (o : InterpolateOptions) :
  List.length ins = List.length outs -> (2 <= List.length ins)%nat ->
  allFinite outs = Some os -> strictlyIncreasing ins = false ->
  interpolate t ins outs o = Throws InterpolateNotIncreasing.
Proof.
  intros Hlen Hge Hfin Hinc. unfold interpolate.
  rewrite Hlen, Nat.eqb_refl. cbn [negb].
  destruct (Nat.ltb_spec (List.length outs) 2) as [Hlt|_]; [lia|].
  rewrite Hfin, Hinc. reflexivity.
Qed.

Lemma strictlyIncreasing_cons (x y : Q) (l : list Q) :
  strictlyIncreasing (x :: y :: l) = true <->
  x < y /\ strictlyIncreasing (y :: l) = true.
Proof.
  cbn [strictlyIncreasing]. rewrite andb_true_iff, Qltb_lt. reflexivity.
Qed.

Lemma strictlyIncreasing_head_lt (x y : Q) (l : list Q) :
  strictlyIncreasing (x :: l) = true -> In y l -> x < y.
Proof.
  revert x. induction l as [|z l IH]; intros x H Hin; [destruct Hin|].
  apply strictlyIncreasing_cons in H as [Hxz Hrest].
  destruct Hin as [<- | Hin]; [assumption|].
  specialize (IH z Hrest Hin). lra.
Qed.

Lemma strictlyIncreasing_app_r (l1 l2 : list Q) :
  strictlyIncreasing (l1 ++ l2) = true -> strictlyIncreasing l2 = true.
Proof.
  induction l1 as [|x l1 IH]; [trivial|].
  intros H. apply IH. destruct l1 as [|y l1].
  - destruct l2; [reflexivity|]. cbn [app] in H.
    apply strictlyIncreasing_cons in H. tauto.
  - cbn [app] in H. apply strictlyIncreasing_cons in H. tauto.
Qed.

(** Up to the second knot the first segment is used. *)
Lemma segmentValue_first (t x0 x1 y0 y1 : Q) (ins outs : list Q)
    (o : InterpolateOptions) :
  t <= x1 ->
  segmentValue t (x0 :: x1 :: ins) (y0 :: y1 :: outs) o
  = interpolateFunction t x0 x1 y0 y1 o.
Proof.
  intros Ht. destruct ins; [reflexivity|]. rewrite segmentValue_step.
  assert (E : Qle_bool t x1 = true) by (apply Qle_bool_iff; lra).
  rewrite E. reflexivity.
Qed.

(** Between two neighbouring knots. *)
Lemma segmentValue_bracket (t x0 x1 y0 y1 : Q) (pre post pre' post' : list Q)
    (o : InterpolateOptions) :
  List.length pre = List.length pre' ->
  strictlyIncreasing (pre ++ x0 :: x1 :: post) = true ->
  x0 <= t <= x1 ->
  segmentValue t (pre ++ x0 :: x1 :: post) (pre' ++ y0 :: y1 :: post') o
  == linearBetween x0 y0 x1 y1 t.
Proof.
  revert pre'. induction pre as [|p pre IH]; intros pre' Hlen Hinc Ht.
  - destruct pre'; [|discriminate]. cbn [app] in *.
    rewrite segmentValue_first; [| tauto].
    apply strictlyIncreasing_cons in Hinc as [Hx _].
    apply interpolateFunction_inside; [assumption | right; tauto | right; tauto].
  - destruct pre' as [|p' pre']; [discriminate|].
    injection Hlen as Hlen. cbn [app] in *.
    assert (Hrest : strictlyIncreasing (pre ++ x0 :: x1 :: post) = true).
    { apply (strictlyIncreasing_app_r [p]). exact Hinc. }
    specialize (IH pre' Hlen Hrest Ht).
    destruct pre as [|q pre].
    + destruct pre'; [|discriminate]. cbn [app] in *.
      apply strictlyIncreasing_cons in Hinc as [Hp Hinc'].
      apply strictlyIncreasing_cons in Hinc' as [Hx _].
      rewrite segmentValue_step.
      destruct (Qle_bool t x0) eqn:E.
      * apply Qle_bool_iff in E. assert (Et : t == x0) by lra.
        rewrite interpolateFunction_inside; [| assumption | right; lra | right; lra].
        unfold linearBetween. rewrite Et. field. lra.
      * exact IH.
    + destruct pre' as [|q' pre']; [discriminate|]. cbn [app] in *.
      assert (Hshape : exists z zs, pre ++ x0 :: x1 :: post = z :: zs).
      { destruct pre; cbn [app]; eauto. }
      destruct Hshape as (z & zs & Hshape). rewrite Hshape in *.
      rewrite segmentValue_step. rewrite <- Hshape in *.
      destruct (Qle_bool t q) eqn:E; [|exact IH].
      exfalso. apply Qle_bool_iff in E.
      assert (Hq : q < x0 \/ q = x0).
      { destruct pre as [|r pre].
        - cbn [app] in Hrest. apply strictlyIncreasing_cons in Hrest. tauto.
        - left. apply (strictlyIncreasing_head_lt q x0 _ Hrest).
          cbn [app]. right. apply in_or_app. right. left. reflexivity. }
      assert (Hq' : q < x0).
      { destruct Hq as [Hq | ->]; [assumption|].
        exfalso. clear -Hrest. 
        assert (H : x0 < x0).
        { apply (strictlyIncreasing_head_lt x0 x0 _ Hrest).
          apply in_or_app. right. left. reflexivity. }
        lra. }
      lra.
Qed.

(** Beyond the last but one knot the last segment is used. *)
Lemma app_two_shape (pre : list Q) (x0 x1 : Q) :
  exists q r rest, pre ++ [x0; x1] = q :: r :: rest.
Proof.
  destruct pre as [|a [|b pre]]; cbn [app]; eauto.
Qed.

Lemma strictlyIncreasing_first_le (q x0 x1 : Q) (pre rest : list Q) :
  strictlyIncreasing (pre ++ x0 :: x1 :: rest) = true ->
  head (pre ++ x0 :: x1 :: rest) = Some q -> q <= x0.
Proof.
  intros Hinc Hhead. destruct pre as [|a pre]; cbn [app head] in *.
  - injection Hhead as <-. lra.
  - injection Hhead as <-.
    apply Qlt_le_weak, (strictlyIncreasing_head_lt a x0 _ Hinc).
    apply in_or_app. right. left. reflexivity.
Qed.

Lemma segmentValue_last (t x0 x1 y0 y1 : Q) (pre pre' : list Q)
    (o : InterpolateOptions) :
  List.length pre = List.length pre' ->
  strictlyIncreasing (pre ++ [x0; x1]) = true -> x0 < t ->
  segmentValue t (pre ++ [x0; x1]) (pre' ++ [y0; y1]) o
  = interpolateFunction t x0 x1 y0 y1 o.
Proof.
  revert pre'. induction pre as [|p pre IH]; intros pre' Hlen Hinc Ht.
  - destruct pre'; [reflexivity | discriminate].
  - destruct pre' as [|p' pre']; [discriminate|].
    injection Hlen as Hlen.
    assert (Hrest : strictlyIncreasing (pre ++ [x0; x1]) = true).
    { apply (strictlyIncreasing_app_r [p]). exact Hinc. }
    specialize (IH pre' Hlen Hrest Ht).
    destruct (app_two_shape pre x0 x1) as (q & r & rest & Hshape).
    destruct (app_two_shape pre' y0 y1) as (q' & r' & rest' & Hshape').
    assert (Hq : q <= x0).
    { apply (strictlyIncreasing_first_le q x0 x1 pre [] Hrest).
      rewrite Hshape. reflexivity. }
    cbn [app]. rewrite Hshape, Hshape' in *.
    rewrite segmentValue_step.
    assert (E : Qle_bool t q = false) by (apply Qle_bool_false; lra).
    rewrite E. exact IH.
Qed.

(** The same facts with the knots given by position in the ranges. *)
Lemma segmentValue_between (t x0 x1 y0 y1 : Q) (ins outs : list Q) (i : nat)
    (o : InterpolateOptions) :
  strictlyIncreasing ins = true ->
  ins !! i = Some x0 -> ins !! S i = Some x1 ->
  outs !! i = Some y0 -> outs !! S i = Some y1 ->
  x0 <= t <= x1 ->
  segmentValue t ins outs o == linearBetween x0 y0 x1 y1 t.
Proof.
  intros Hinc Hx0 Hx1 Hy0 Hy1 Ht.
  assert (Ei : ins = take i ins ++ x0 :: x1 :: drop (S (S i)) ins).
  { rewrite <- (take_drop_middle ins i x0 Hx0) at 1.
    rewrite (drop_S ins x1 (S i) Hx1). reflexivity. }
  assert (Eo : outs = take i outs ++ y0 :: y1 :: drop (S (S i)) outs).
  { rewrite <- (take_drop_middle outs i y0 Hy0) at 1.
    rewrite (drop_S outs y1 (S i) Hy1). reflexivity. }
  rewrite Ei, Eo. apply segmentValue_bracket.
  - rewrite !length_take. apply lookup_lt_Some in Hx1, Hy1. lia.
  - rewrite <- Ei. assumption.
  - assumption.
Qed.

Lemma segmentValue_beyond (t x0 x1 y0 y1 : Q) (ins outs : list Q)
    (o : InterpolateOptions) :
  List.length ins = List.length outs ->
  strictlyIncreasing ins = true ->
  ins !! (List.length ins - 2)%nat = Some x0 -> last ins = Some x1 ->
  outs !! (List.length outs - 2)%nat = Some y0 -> last outs = Some y1 ->
  (2 <= List.length ins)%nat ->
  x0 < t ->
  segmentValue t ins outs o = interpolateFunction t x0 x1 y0 y1 o.
Proof.
  intros Hlen Hinc Hx0 Hx1 Hy0 Hy1 Hge Ht.
  assert (Ei : ins = take (List.length ins - 2) ins ++ [x0; x1]).
  { rewrite <- (take_drop_middle ins _ x0 Hx0) at 1.
    rewrite last_lookup in Hx1.
    replace (S (List.length ins - 2)) with (Nat.pred (List.length ins)) by lia.
    rewrite (drop_S ins x1 _ Hx1), drop_ge; [reflexivity | lia]. }
  assert (Eo : outs = take (List.length outs - 2) outs ++ [y0; y1]).
  { rewrite <- (take_drop_middle outs _ y0 Hy0) at 1.
    rewrite last_lookup in Hy1.
    replace (S (List.length outs - 2)) with (Nat.pred (List.length outs)) by lia.
    rewrite (drop_S outs y1 _ Hy1), drop_ge; [reflexivity | lia]. }
  rewrite Ei, Eo. apply segmentValue_last.
  - rewrite !length_take. lia.
  - rewrite <- Ei. assumption.
  - assumption.
Qed.

End InterpolateRanges.

(** ** The cross-fade schedule *)

Section SceneOpacity.

Import Remotion.

Lemma interpolate_two (t x0 x1 y0 y1 : Q) (o : InterpolateOptions) :
  x0 < x1 ->
  interpolate t [x0; x1] [Some y0; Some y1] o
  = Returns (interpolateFunction t x0 x1 y0 y1 o).
Proof.
  intros Hx.
  rewrite (interpolate_returns t [x0; x1] [Some y0; Some y1] [y0; y1]);
    [reflexivity | reflexivity | cbn; lia | reflexivity |].
  apply strictlyIncreasing_cons. split; [assumption | reflexivity].
Qed.

Lemma fadeOut_clamped (sd td f : Q) :
  0 < td ->
  interpolateFunction f sd (sd + td) 1 0 clampBoth == fadeOutRamp sd td f.
Proof.
  intros Htd. unfold fadeOutRamp.
  destruct (Qle_bool f sd) eqn:E1.
  - apply Qle_bool_iff in E1.
    apply interpolateFunction_clamped_left; [lra | reflexivity | assumption].
  - apply Qle_bool_false in E1. destruct (Qle_bool (sd + td) f) eqn:E2.
    + apply Qle_bool_iff in E2.
      apply interpolateFunction_clamped_right; [lra | reflexivity | assumption].
    + apply Qle_bool_false in E2.
      rewrite interpolateFunction_inside; [| lra | right; lra | right; lra].
      unfold linearBetween. field. lra.
Qed.

Lemma fadeIn_clamped (td f : Q) :
  0 < td ->
  interpolateFunction f 0 td 0 1 clampBoth == fadeInRamp td f.
Proof.
  intros Htd. unfold fadeInRamp.
  destruct (Qle_bool f 0) eqn:E1.
  - apply Qle_bool_iff in E1.
    apply interpolateFunction_clamped_left; [lra | reflexivity | assumption].
  - apply Qle_bool_false in E1. destruct (Qle_bool td f) eqn:E2.
    + apply Qle_bool_iff in E2.
      apply interpolateFunction_clamped_right; [lra | reflexivity | assumption].
    + apply Qle_bool_false in E2.
      rewrite interpolateFunction_inside; [| lra | right; lra | right; lra].
      unfold linearBetween. field. lra.
Qed.

(** The fade-in of an interior scene: clamped on the right only. *)
Lemma fadeIn_interior (td f : Q) :
  0 < td ->
  (f <= td -> interpolateFunction f 0 td 0 1 clampRight == f / td)
  /\ (td <= f -> interpolateFunction f 0 td 0 1 clampRight == 1).
Proof.
  intros Htd. split; intros Hf.
  - rewrite interpolateFunction_inside; [| lra | left; reflexivity | right; lra].
    unfold linearBetween. field. lra.
  - apply interpolateFunction_clamped_right; [lra | reflexivity | assumption].
Qed.

(** The fade-out of an interior scene: clamped on the left only. *)
Lemma fadeOut_interior (sd td f : Q) :
  0 < td ->
  (f <= sd -> interpolateFunction f sd (sd + td) 1 0 clampLeft == 1)
  /\ (sd <= f ->
      interpolateFunction f sd (sd + td) 1 0 clampLeft == 1 - (f - sd) / td).
Proof.
  intros Htd. split; intros Hf.
  - apply interpolateFunction_clamped_left; [lra | reflexivity | assumption].
  - rewrite interpolateFunction_inside; [| lra | right; lra | left; reflexivity].
    unfold linearBetween. field. lra.
Qed.

Lemma sceneOpacity_first (sd td f : Q) :
  0 < td ->
  sceneOpacity true false sd td f
  = Returns (interpolateFunction f sd (sd + td) 1 0 clampBoth).
Proof.
  intros Htd. unfold sceneOpacity. cbn [andb]. apply interpolate_two. lra.
Qed.

Lemma sceneOpacity_last (sd td f : Q) :
  0 < td ->
  sceneOpacity false true sd td f
  = Returns (interpolateFunction f 0 td 0 1 clampBoth).
Proof.
  intros Htd. unfold sceneOpacity. cbn [andb]. apply interpolate_two. exact Htd.
Qed.

Lemma sceneOpacity_interior (sd td f : Q) :
  0 < td ->
  sceneOpacity false false sd td f
  = Returns (Qmin (interpolateFunction f 0 td 0 1 clampRight)
                  (interpolateFunction f sd (sd + td) 1 0 clampLeft)).
Proof.
  intros Htd. unfold sceneOpacity. cbn [andb].
  assert (Hwin : sd < sd + td) by lra.
  rewrite (interpolate_two _ _ _ _ _ _ Htd), (interpolate_two _ _ _ _ _ _ Hwin).
  reflexivity.
Qed.

Lemma Qdiv_nonneg_le_1 (a b : Q) : 0 < b -> a <= b -> a / b <= 1.
Proof.
  intros Hb Hab. apply Qle_shift_div_r; [assumption | lra].
Qed.

Lemma Qdiv_nonneg (a b : Q) : 0 < b -> 0 <= a -> 0 <= a / b.
Proof.
  intros Hb Ha. apply Qle_shift_div_l; [assumption | lra].
Qed.

End SceneOpacity.

Section SceneOpacityClaims.

Import Remotion.

(** C3.  The opacity of a scene as a function of its local frame [f]: the
    first of several scenes follows the fade-out ramp (1 up to
    [sceneDuration], then linearly to 0 over [transitionDuration], clamped
    outside); the last of several follows the fade-in ramp; an interior
    scene has the minimum of its fade-in and its fade-out, which never
    exceeds 1 and, inside the scene's window, is the minimum of the two
    ramps; a scene that is both first and last has opacity 1. *)
Theorem scene_opacity_schedule (sceneDuration transitionDuration f : Q) :
  0 < transitionDuration ->
  (exists v, sceneOpacity true false sceneDuration transitionDuration f = Returns v
             /\ v == fadeOutRamp sceneDuration transitionDuration f)
  /\ (exists v, sceneOpacity false true sceneDuration transitionDuration f = Returns v
                /\ v == fadeInRamp transitionDuration f)
  /\ (exists fadeIn fadeOut,
        sceneOpacity false false sceneDuration transitionDuration f
        = Returns (Qmin fadeIn fadeOut)
        /\ (f <= transitionDuration -> fadeIn == f / transitionDuration)
        /\ (transitionDuration <= f -> fadeIn == 1)
        /\ (f <= sceneDuration -> fadeOut == 1)
        /\ (sceneDuration <= f ->
            fadeOut == 1 - (f - sceneDuration) / transitionDuration)
        /\ Qmin fadeIn fadeOut <= 1
        /\ (0 <= f <= sceneDuration + transitionDuration ->
            Qmin fadeIn fadeOut
            == Qmin (fadeInRamp transitionDuration f)
                    (fadeOutRamp sceneDuration transitionDuration f)))
  /\ sceneOpacity true true sceneDuration transitionDuration f = Returns 1.
Proof.
  intros Htd.
  assert (Hwin : sceneDuration < sceneDuration + transitionDuration) by lra.
  repeat split.
  - eexists. split.
    + apply sceneOpacity_first. exact Htd.
    + apply fadeOut_clamped. exact Htd.
  - eexists. split.
    + apply sceneOpacity_last. exact Htd.
    + apply fadeIn_clamped. exact Htd.
  - exists (interpolateFunction f 0 transitionDuration 0 1 clampRight),
      (interpolateFunction f sceneDuration (sceneDuration + transitionDuration) 1 0
         clampLeft).
    destruct (fadeIn_interior transitionDuration f Htd) as [Hin1 Hin2].
    destruct (fadeOut_interior sceneDuration transitionDuration f Htd) as [Hout1 Hout2].
    split; [| split; [| split; [| split; [| split; [| split]]]]];
      try assumption.
    + apply sceneOpacity_interior. exact Htd.
    + destruct (Qlt_le_dec f sceneDuration) as [Hlt | Hge].
      * eapply Qle_trans; [apply Q.le_min_r|]. rewrite Hout1; lra.
      * eapply Qle_trans; [apply Q.le_min_l|].
        destruct (Qlt_le_dec f transitionDuration) as [Hlt' | Hge'].
        -- rewrite Hin1 by lra. apply Qdiv_nonneg_le_1; lra.
        -- rewrite Hin2 by lra. lra.
    + intros [Hf0 Hf1]. apply Q.min_compat.
      * unfold fadeInRamp. destruct (Qle_bool f 0) eqn:E1.
        -- apply Qle_bool_iff in E1. rewrite Hin1 by lra.
           assert (Ef : f == 0) by lra. rewrite Ef. field. lra.
        -- apply Qle_bool_false in E1. destruct (Qle_bool transitionDuration f) eqn:E2.
           ++ apply Qle_bool_iff in E2. apply Hin2. assumption.
           ++ apply Qle_bool_false in E2. apply Hin1. lra.
      * unfold fadeOutRamp. destruct (Qle_bool f sceneDuration) eqn:E1.
        -- apply Qle_bool_iff in E1. apply Hout1. assumption.
        -- apply Qle_bool_false in E1.
           destruct (Qle_bool (sceneDuration + transitionDuration) f) eqn:E2.
           ++ apply Qle_bool_iff in E2. rewrite Hout2 by lra.
              assert (Ef : f == sceneDuration + transitionDuration) by lra.
              rewrite Ef. field. lra.
           ++ apply Hout2. lra.
Qed.

Lemma scene_opacity_schedule_witness :
  0 < 30 /\
  (exists v, sceneOpacity true false 90 30 105 = Returns v
             /\ v == fadeOutRamp 90 30 105).
Proof.
  split; [reflexivity|].
  exact (proj1 (scene_opacity_schedule 90 30 105 eq_refl)).
Defined.

End SceneOpacityClaims.

(** ** Scenes inside their sequences *)

Section Sequencing.

Import Remotion.

Variable interpolateColors : Q -> list Q -> list string -> outcome string.

Lemma obind_Returns {A B : Type} (m : outcome A) (k : A -> outcome B) (b : B) :
  obind m k = Returns b -> exists a, m = Returns a /\ k a = Returns b.
Proof. destruct m as [a|e]; cbn; [eauto | discriminate]. Qed.

(** What a rendered scene shows is fixed by its opacity schedule and the
    background effect at the frame it is given. *)
Lemma SceneComponent_parts (scene : Scene) (isFirst isLast : bool)
    (sceneDuration transitionDuration : Q) (index : nat)
    (durationInFrames frame : Q) (r : RenderedScene) :
  SceneComponent interpolateColors scene isFirst isLast sceneDuration
    transitionDuration index durationInFrames frame = Returns r ->
  sceneOpacity isFirst isLast sceneDuration transitionDuration frame
  = Returns (sceneOpacityValue r)
  /\ exists t, getKenBurnsEffect frame durationInFrames index = Returns t
               /\ sceneImage r =
                  if nonEmpty (imageUrl scene)
                  then Some (default ""%string (imageUrl scene), t) else None.
Proof.
  unfold SceneComponent. intros H.
  apply obind_Returns in H as (opacity & Hop & H).
  apply obind_Returns in H as (t & Ht & H).
  apply obind_Returns in H as (cam & Hcam & H).
  apply obind_Returns in H as (els & Hels & H).
  injection H as <-. cbn. split; [assumption|]. eauto.
Qed.

(** Every layer of the composition is a scene rendered at the frame of its
    own sequence. *)
Lemma renderScenes_layers (rest : list Scene) (index count : nat)
    (videoBackground : option string) (frame : Q)
    (layers : list RenderedScene) :
  renderScenes interpolateColors rest index count videoBackground frame
  = Returns layers ->
  Forall
    (fun layer =>
       exists k scene,
         (index <= k < index + List.length rest)%nat
         /\ SceneComponent interpolateColors scene (Nat.eqb k 0)
              (Nat.eqb k (count - 1)) DURATION_PER_SCENE TRANSITION_DURATION k
              (DURATION_PER_SCENE + TRANSITION_DURATION)
              (sequenceFrame (inject_Z (Z.of_nat k) * DURATION_PER_SCENE) frame)
            = Returns layer)
    layers.
Proof.
  revert index layers. induction rest as [|scene rest IH]; intros index layers H.
  - injection H as <-. constructor.
  - cbn [renderScenes] in H.
    apply obind_Returns in H as (layer & Hlayer & H).
    apply obind_Returns in H as (others & Hothers & H).
    injection H as <-.
    apply Forall_app. split.
    + destruct (sequenceMounted _ _ frame).
      * apply obind_Returns in Hlayer as (r & Hr & Hlayer).
        injection Hlayer as <-. constructor; [|constructor].
        eexists index, _. split; [cbn [List.length]; lia | exact Hr].
      * injection Hlayer as <-. constructor.
    + apply IH in Hothers. eapply Forall_impl; [exact Hothers|].
      cbn beta. intros l (k & sc & Hk & Hsc). exists k, sc.
      split; [cbn [List.length]; lia | exact Hsc].
Qed.

Lemma Animation_layers (videoResult : VideoResult) (durationInFrames frame : Q)
    (layers : list RenderedScene) :
  Animation interpolateColors videoResult durationInFrames frame
  = Returns (Composition layers) ->
  exists count,
    Forall
      (fun layer =>
         exists k scene,
           SceneComponent interpolateColors scene (Nat.eqb k 0)
             (Nat.eqb k (count - 1)) DURATION_PER_SCENE TRANSITION_DURATION k
             (DURATION_PER_SCENE + TRANSITION_DURATION)
             (sequenceFrame (inject_Z (Z.of_nat k) * DURATION_PER_SCENE) frame)
           = Returns layer)
      layers.
Proof.
  unfold Animation. destruct (scenes videoResult) as [[|scene rest]|];
    try discriminate.
  intros H. apply obind_Returns in H as (ls & Hls & H). injection H as <-.
  exists (List.length (scene :: rest)).
  apply renderScenes_layers in Hls.
  eapply Forall_impl; [exact Hls|]. cbn beta.
  intros l (k & sc & _ & Hsc). eauto.
Qed.

End Sequencing.

Section CompositionClaims.

Import Remotion.

Local Open Scope string_scope.

(** C6, as stated, fails: in a three-scene composition, at master frame 90
    (where scene 1 begins) scene 0 is still fully opaque and scene 1 is
    fully transparent. *)
Lemma crossfade_boundary_counterexample :
  exists l0 l1,
    Animation noColors threeScenes 300 90 = Returns (Composition [l0; l1])
    /\ sceneOpacityAt 3 0 90 = Returns (sceneOpacityValue l0)
    /\ sceneOpacityAt 3 1 90 = Returns (sceneOpacityValue l1)
    /\ (sceneOpacityValue l0 == 1)%Q /\ (sceneOpacityValue l1 == 0)%Q
    /\ ~ (sceneOpacityValue l0 == sceneOpacityValue l1)%Q.
Proof.
  eexists _, _. split; [vm_compute; reflexivity|].
  cbn [sceneOpacityValue].
  split; [vm_compute; reflexivity|].
  split; [vm_compute; reflexivity|].
  split; [reflexivity|]. split; [reflexivity|].
  intros H. discriminate H.
Qed.

(** C6, amended.  During the overlap of scene 0 and scene 1 of a
    three-scene composition (master frames 90 to 120) scene 0 fades out as
    [1 - (m - 90) / 30] and scene 1 fades in as [(m - 90) / 30]; the two
    opacities are equal exactly at the middle of the overlap, master frame
    105. *)
Theorem crossfade_equal_at_midpoint (m : Q) :
  (90 <= m <= 120)%Q ->
  exists a b,
    sceneOpacityAt 3 0 m = Returns a /\ sceneOpacityAt 3 1 m = Returns b
    /\ (a == 1 - (m - 90) / 30)%Q /\ (b == (m - 90) / 30)%Q
    /\ ((a == b)%Q <-> (m == 105)%Q).
Proof.
  intros [Hlo Hhi].
  assert (Htd : (0 < TRANSITION_DURATION)%Q) by reflexivity.
  pose proof (sceneOpacity_first DURATION_PER_SCENE TRANSITION_DURATION
                (sequenceFrame (inject_Z (Z.of_nat 0) * DURATION_PER_SCENE) m) Htd)
    as Ha.
  pose proof (fadeOut_clamped DURATION_PER_SCENE TRANSITION_DURATION
                (sequenceFrame (inject_Z (Z.of_nat 0) * DURATION_PER_SCENE) m) Htd)
    as Hav.
  set (a := interpolateFunction
              (sequenceFrame (inject_Z (Z.of_nat 0) * DURATION_PER_SCENE) m)
              DURATION_PER_SCENE (DURATION_PER_SCENE + TRANSITION_DURATION) 1 0
              clampBoth) in *.
  pose proof (sceneOpacity_interior DURATION_PER_SCENE TRANSITION_DURATION
                (sequenceFrame (inject_Z (Z.of_nat 1) * DURATION_PER_SCENE) m) Htd)
    as Hb.
  destruct (fadeIn_interior TRANSITION_DURATION
              (sequenceFrame (inject_Z (Z.of_nat 1) * DURATION_PER_SCENE) m) Htd)
    as [Hin1 _].
  destruct (fadeOut_interior DURATION_PER_SCENE TRANSITION_DURATION
              (sequenceFrame (inject_Z (Z.of_nat 1) * DURATION_PER_SCENE) m) Htd)
    as [Hout1 _].
  set (fadeIn := interpolateFunction
                   (sequenceFrame (inject_Z (Z.of_nat 1) * DURATION_PER_SCENE) m)
                   0 TRANSITION_DURATION 0 1 clampRight) in *.
  set (fadeOut := interpolateFunction
                    (sequenceFrame (inject_Z (Z.of_nat 1) * DURATION_PER_SCENE) m)
                    DURATION_PER_SCENE (DURATION_PER_SCENE + TRANSITION_DURATION) 1 0
                    clampLeft) in *.
  assert (E0 : (sequenceFrame (inject_Z (Z.of_nat 0) * DURATION_PER_SCENE) m == m)%Q).
  { unfold sequenceFrame, DURATION_PER_SCENE. cbn [Z.of_nat]. ring. }
  assert (E1 : (sequenceFrame (inject_Z (Z.of_nat 1) * DURATION_PER_SCENE) m == m - 90)%Q).
  { unfold sequenceFrame, DURATION_PER_SCENE. cbn [Z.of_nat]. ring. }
  exists a, (Qmin fadeIn fadeOut).
  assert (Eva : (a == 1 - (m - 90) / 30)%Q).
  { rewrite Hav. unfold fadeOutRamp, DURATION_PER_SCENE, TRANSITION_DURATION.
    destruct (Qle_bool _ 90) eqn:C1.
    - apply Qle_bool_iff in C1. rewrite E0 in C1.
      assert (Em : (m == 90)%Q) by lra. rewrite Em. reflexivity.
    - destruct (Qle_bool (90 + 30) _) eqn:C2.
      + apply Qle_bool_iff in C2. rewrite E0 in C2.
        assert (Em : (m == 120)%Q) by lra. rewrite Em. reflexivity.
      + rewrite E0. reflexivity. }
  assert (Evb : (Qmin fadeIn fadeOut == (m - 90) / 30)%Q).
  { unfold DURATION_PER_SCENE, TRANSITION_DURATION in *.
    rewrite Hin1 by (rewrite E1; lra).
    rewrite Hout1 by (rewrite E1; lra).
    rewrite E1. apply Q.min_l.
    apply Qdiv_nonneg_le_1; [reflexivity | lra]. }
  split; [exact Ha|]. split; [exact Hb|]. split; [exact Eva|]. split; [exact Evb|].
  rewrite Eva, Evb.
  assert (Ediv : ((m - 90) / 30 == (m - 90) * (1 # 30))%Q) by (field; discriminate).
  rewrite Ediv. split; intros H; lra.
Qed.

Lemma crossfade_equal_at_midpoint_witness :
  (90 <= 105 <= 120)%Q
  /\ exists a b,
       sceneOpacityAt 3 0 105 = Returns a /\ sceneOpacityAt 3 1 105 = Returns b
       /\ (a == 1 - (105 - 90) / 30)%Q /\ (b == (105 - 90) / 30)%Q
       /\ ((a == b)%Q <-> (105 == 105)%Q).
Proof.
  assert (H : (90 <= 105 <= 120)%Q) by (split; discriminate).
  split; [exact H | exact (crossfade_equal_at_midpoint 105 H)].
Defined.

(** C7, as stated, fails: the effect does not follow the progress through
    the whole composition.  At master frame 180 of a three-scene
    composition of 300 frames (overall progress 0.6) scene 1 is at frame
    90 of its window of 120 frames and scene 2 begins: their backgrounds
    are drawn at scale 1.025 and at scale 1, not at 1.04 and 1.06. *)
Lemma ken_burns_overall_progress_counterexample :
  exists l1 l2,
    Animation noColors threeImageScenes (compositionDuration threeImageScenes) 180
    = Returns (Composition [l1; l2])
    /\ sceneImage l1 = Some ("bg.png", "scale(1.025) rotate(-0.5deg)")
    /\ sceneImage l2 = Some ("bg.png", "scale(1) rotate(-1deg)")
    /\ kenBurnsByOverallProgress threeImageScenes 1 180
       = Returns "scale(1.04) rotate(-0.2deg)"
    /\ kenBurnsByOverallProgress threeImageScenes 2 180
       = Returns "scale(1.06) rotate(0.2deg)".
Proof.
  eexists _, _. split; [vm_compute; reflexivity|].
  repeat split; vm_compute; reflexivity.
Qed.

(** C7, amended.  The background effect is a function of the scene's index
    and of [progress = frame / durationInFrames], for the frame and the
    positive duration the scene component is given: for an even index the
    scale is [1 + progress / 10] and the rotation [-1 + 2 * progress]
    degrees, for an odd index [1.1 - progress / 10] and [1 - 2 * progress];
    the camera keyframes of the scene play no part in it; and in the
    composition the player configures every scene [k] that [Animation]
    renders is given the frame counted from the start of its own
    sequence, [master - k * DURATION_PER_SCENE], and the duration of that
    sequence, [DURATION_PER_SCENE + TRANSITION_DURATION], so that its
    progress is that through its own window. *)
Theorem ken_burns_by_scene_progress (frame durationInFrames : Q) (index : nat) :
  (0 < durationInFrames)%Q ->
  let progress := (frame / durationInFrames)%Q in
  (exists scale rotate,
     getKenBurnsValues frame durationInFrames index = Returns (scale, rotate)
     /\ getKenBurnsEffect frame durationInFrames index
        = Returns ("scale(" +:+ Js.numberToString scale +:+ ") rotate("
                   +:+ Js.numberToString rotate +:+ "deg)")
     /\ ((index mod 2 = 0)%nat ->
         (scale == 1 + progress / 10)%Q /\ (rotate == -1 + 2 * progress)%Q)
     /\ ((index mod 2 <> 0)%nat ->
         (scale == (11 # 10) - progress / 10)%Q /\ (rotate == 1 - 2 * progress)%Q))
  /\ (forall interpolateColors scene isFirst isLast sceneDuration transitionDuration r,
        SceneComponent interpolateColors scene isFirst isLast sceneDuration
          transitionDuration index durationInFrames frame = Returns r ->
        exists t,
          getKenBurnsEffect frame durationInFrames index = Returns t
          /\ sceneImage r =
             if nonEmpty (imageUrl scene)
             then Some (default "" (imageUrl scene), t) else None)
  /\ (forall interpolateColors videoResult master layers,
        Animation interpolateColors videoResult (compositionDuration videoResult)
          master
        = Returns (Composition layers) ->
        exists count,
          Forall
            (fun layer =>
               exists k scene,
                 let local := (master - inject_Z (Z.of_nat k) * DURATION_PER_SCENE)%Q in
                 let window := (DURATION_PER_SCENE + TRANSITION_DURATION)%Q in
                 SceneComponent interpolateColors scene (Nat.eqb k 0)
                   (Nat.eqb k (count - 1)) DURATION_PER_SCENE TRANSITION_DURATION k
                   window local
                 = Returns layer
                 /\ exists t,
                      getKenBurnsEffect local window k = Returns t
                      /\ sceneImage layer =
                         if nonEmpty (imageUrl scene)
                         then Some (default "" (imageUrl scene), t) else None)
            layers).
Proof.
  intros Hpos progress. split; [|split].
  - unfold getKenBurnsEffect, getKenBurnsValues. fold progress.
    assert (H01 : (0 < 1)%Q) by reflexivity.
    destruct (Nat.eqb (index mod 2) 0) eqn:Epar.
    + rewrite !(interpolate_two _ _ _ _ _ _ H01). cbn [obind].
      eexists _, _. split; [reflexivity|]. split; [reflexivity|].
      apply Nat.eqb_eq in Epar. split; [|intros Hne; contradiction].
      intros _. split.
      * rewrite interpolateFunction_inside;
          [| assumption | left; reflexivity | left; reflexivity].
        unfold linearBetween. field.
      * rewrite interpolateFunction_inside;
          [| assumption | left; reflexivity | left; reflexivity].
        unfold linearBetween. field.
    + rewrite !(interpolate_two _ _ _ _ _ _ H01). cbn [obind].
      eexists _, _. split; [reflexivity|]. split; [reflexivity|].
      apply Nat.eqb_neq in Epar. split; [intros He; contradiction|].
      intros _. split.
      * rewrite interpolateFunction_inside;
          [| assumption | left; reflexivity | left; reflexivity].
        unfold linearBetween. field.
      * rewrite interpolateFunction_inside;
          [| assumption | left; reflexivity | left; reflexivity].
        unfold linearBetween. field.
  - intros ic scene isFirst isLast sd td r H.
    apply SceneComponent_parts in H. tauto.
  - intros ic vr master layers H.
    destruct (Animation_layers ic vr _ _ _ H) as (count & Hall).
    exists count. eapply Forall_impl; [exact Hall|]. cbn beta zeta.
    intros layer (k & scene & Hr). exists k, scene.
    split; [exact Hr|]. apply SceneComponent_parts in Hr. tauto.
Qed.

Lemma ken_burns_by_scene_progress_witness :
  exists scale rotate,
    getKenBurnsValues 60 120 2 = Returns (scale, rotate)
    /\ (scale == 1 + (60 / 120) / 10)%Q /\ (rotate == -1 + 2 * (60 / 120))%Q.
Proof.
  assert (Hpos : (0 < 120)%Q) by reflexivity.
  destruct (proj1 (ken_burns_by_scene_progress 60 120 2 Hpos))
    as (scale & rotate & Hv & _ & Heven & _).
  exists scale, rotate. split; [exact Hv|]. apply Heven. reflexivity.
Defined.

(** C8.  With no scenes (the sequence missing or empty) the compositor
    returns the placeholder frame, the message [Animation data is missing
    or invalid.] on black; it does so at every frame and whatever the
    resolver of styles would do, since no scene is rendered. *)
Theorem empty_scenes_placeholder
    (interpolateColors : Q -> list Q -> list string -> outcome string)
    (videoResult : VideoResult) (durationInFrames frame : Q) :
  scenes videoResult = None \/ scenes videoResult = Some [] ->
  Animation interpolateColors videoResult durationInFrames frame
  = Returns (Placeholder placeholderStyle placeholderMessage)
  /\ placeholderStyle !! "backgroundColor" = Some (JStr "black")
  /\ placeholderMessage = "Animation data is missing or invalid.".
Proof.
  intros [H | H]; unfold Animation; rewrite H; repeat split; reflexivity.
Qed.

Lemma empty_scenes_placeholder_witness :
  Animation noColors {| scenes := Some []; videoBackgroundColor := None |} 90 0
  = Returns (Placeholder placeholderStyle placeholderMessage).
Proof.
  exact (proj1 (empty_scenes_placeholder noColors
                  {| scenes := Some []; videoBackgroundColor := None |} 90 0
                  (or_intror eq_refl))).
Defined.

End CompositionClaims.

(** ** The resolver: sorting and the assembly of the style *)

Section ResolverFacts.

Variable interpolateColors : Q -> list Q -> list string -> outcome string.

Lemma insertKeyframe_Permutation (kf : AnimationKeyframe) (l : list AnimationKeyframe) :
  insertKeyframe kf l ≡ₚ kf :: l.
Proof.
  induction l as [|kf' l IH]; [reflexivity|].
  cbn [insertKeyframe]. destruct (Qle_bool (kf_at kf) (kf_at kf')); [reflexivity|].
  rewrite IH. apply Permutation_swap.
Qed.

Lemma sortKeyframes_Permutation (l : list AnimationKeyframe) :
  sortKeyframes l ≡ₚ l.
Proof.
  induction l as [|kf l IH]; [reflexivity|].
  unfold sortKeyframes in *. cbn [fold_right].
  rewrite insertKeyframe_Permutation, IH. reflexivity.
Qed.

Lemma insertKeyframe_sorted (kf : AnimationKeyframe) (l : list AnimationKeyframe) :
  StronglySorted atLe l -> StronglySorted atLe (insertKeyframe kf l).
Proof.
  induction l as [|kf' l IH]; intros Hs.
  - repeat constructor.
  - cbn [insertKeyframe]. destruct (Qle_bool (kf_at kf) (kf_at kf')) eqn:E.
    + apply Qle_bool_iff in E. constructor; [assumption|].
      apply StronglySorted_inv in Hs as [_ Hall].
      constructor; [exact E|].
      eapply Forall_impl; [exact Hall|]. cbn beta. unfold atLe. intros x Hx. lra.
    + apply Qle_bool_false in E.
      pose proof Hs as Hs'.
      apply StronglySorted_inv in Hs' as [Hl Hall].
      constructor; [apply IH; assumption|].
      rewrite insertKeyframe_Permutation.
      constructor; [unfold atLe; lra | assumption].
Qed.

Lemma sortKeyframes_sorted (l : list AnimationKeyframe) :
  StronglySorted atLe (sortKeyframes l).
Proof.
  induction l as [|kf l IH]; [constructor|].
  unfold sortKeyframes in *. cbn [fold_right].
  apply insertKeyframe_sorted. exact IH.
Qed.


(** Sorted keyframes at pairwise distinct [at] have strictly increasing
    positions when the duration is positive: the condition under which the
    library accepts them as an input range. *)
Lemma distinct_positions_increasing (duration : Q) (l : list AnimationKeyframe) :
  0 < duration -> StronglySorted atLe l ->
  (forall i j a b, (i < j)%nat -> l !! i = Some a -> l !! j = Some b ->
                   ~ kf_at a == kf_at b) ->
  Remotion.strictlyIncreasing (map (position duration) l) = true.
Proof.
  intros Hd Hs. induction Hs as [|a l Hs IH Hall]; intros Hdist; [reflexivity|].
  destruct l as [|b l]; [reflexivity|].
  cbn [map]. apply strictlyIncreasing_cons. split.
  - unfold position. apply Qmult_lt_compat_r; [exact Hd|].
    apply Forall_cons in Hall as [Hab _]. unfold atLe in Hab.
    specialize (Hdist 0%nat 1%nat a b ltac:(lia) eq_refl eq_refl).
    apply Qnot_le_lt. intros Hle. apply Hdist. lra.
  - apply IH. intros i j x y Hij Hx Hy.
    apply (Hdist (S i) (S j) x y); [lia | exact Hx | exact Hy].
Qed.

Lemma properties_elem (prop : string) (sorted : list AnimationKeyframe) :
  prop ∈ properties sorted <-> exists kf, kf ∈ sorted /\ defines prop kf.
Proof.
  induction sorted as [|kf sorted IH]; cbn [properties fold_right].
  - split; [set_solver | intros (kf & Hkf & _); inversion Hkf].
  - fold (properties sorted). rewrite elem_of_union, IH, elem_of_dom. split.
    + intros [H | (kf' & Hin & Hd)].
      * exists kf. split; [left | exact H].
      * exists kf'. split; [right; exact Hin | exact Hd].
    + intros (kf' & Hin & Hd). apply elem_of_cons in Hin as [-> | Hin].
      * left. exact Hd.
      * right. eauto.
Qed.

Lemma animateProperty_Some_defined (prop : string) (sorted : list AnimationKeyframe)
    (duration frame : Q) (v : jsval) :
  animateProperty interpolateColors prop sorted duration frame = Returns (Some v) ->
  exists kf, kf ∈ sorted /\ defines prop kf.
Proof.
  unfold animateProperty.
  destruct (filter (defines prop) sorted) as [|kf rest] eqn:E; [discriminate|].
  intros _. exists kf.
  assert (H : kf ∈ filter (defines prop) sorted) by (rewrite E; left).
  apply list_elem_of_filter in H. tauto.
Qed.

Lemma animateProperties_other (props : list string) (sorted : list AnimationKeyframe)
    (duration frame : Q) (st0 st : gmap string jsval) (prop : string) :
  animateProperties interpolateColors props sorted duration frame st0 = Returns st ->
  prop ∉ props -> st !! prop = st0 !! prop.
Proof.
  revert st0. induction props as [|p props IH]; intros st0 H Hnotin.
  - injection H as <-. reflexivity.
  - cbn [animateProperties] in H. apply obind_Returns in H as (r & Hr & H).
    apply not_elem_of_cons in Hnotin as [Hne Hnotin].
    rewrite (IH _ H Hnotin). destruct r; [|reflexivity].
    apply lookup_insert_ne. congruence.
Qed.

Lemma animateProperties_lookup (props : list string) (sorted : list AnimationKeyframe)
    (duration frame : Q) (st0 st : gmap string jsval) (prop : string) (v : jsval) :
  NoDup props ->
  animateProperties interpolateColors props sorted duration frame st0 = Returns st ->
  prop ∈ props ->
  animateProperty interpolateColors prop sorted duration frame = Returns (Some v) ->
  st !! prop = Some v.
Proof.
  revert st0. induction props as [|p props IH]; intros st0 Hnd H Hin Hv.
  - inversion Hin.
  - cbn [animateProperties] in H. apply obind_Returns in H as (r & Hr & H).
    apply NoDup_cons in Hnd as [Hp Hnd].
    apply elem_of_cons in Hin as [-> | Hin].
    + rewrite Hv in Hr. injection Hr as <-.
      rewrite (animateProperties_other _ _ _ _ _ _ _ H Hp).
      apply lookup_insert_eq.
    + eapply IH; eassumption.
Qed.

(** A property the resolver computes is the property of the returned style. *)
Lemma useAnimatedStyle_lookup (keyframes : list AnimationKeyframe)
    (duration frame : Q) (st : gmap string jsval) (prop : string) (v : jsval) :
  useAnimatedStyle interpolateColors (Some keyframes) duration frame = Returns st ->
  animateProperty interpolateColors prop (sortKeyframes keyframes) duration frame
  = Returns (Some v) ->
  st !! prop = Some v.
Proof.
  intros Hst Hv. destruct keyframes as [|kf keyframes]; [discriminate Hv|].
  cbn [useAnimatedStyle] in Hst.
  refine (animateProperties_lookup _ _ _ _ _ _ _ _ (NoDup_elements _) Hst _ Hv).
  apply elem_of_elements, properties_elem.
  eapply animateProperty_Some_defined. exact Hv.
Qed.

End ResolverFacts.

(** ** Behaviour at the ends of the range *)

Section RangeEnds.

Import Remotion.



Lemma strictlyIncreasing_lookup_lt (ins : list Q) (i j : nat) (x y : Q) :
  strictlyIncreasing ins = true -> (i < j)%nat ->
  ins !! i = Some x -> ins !! j = Some y -> x < y.
Proof.
  revert i j. induction ins as [|a ins IH]; intros i j Hinc Hij Hx Hy; [discriminate|].
  destruct j as [|j]; [lia|]. cbn in Hy.
  destruct i as [|i].
  - injection Hx as <-. apply (strictlyIncreasing_head_lt a y ins Hinc).
    apply list_elem_of_In. eapply list_elem_of_lookup_2. exact Hy.
  - cbn in Hx. apply (IH i j); [| lia | assumption | assumption].
    apply (strictlyIncreasing_app_r [a]). exact Hinc.
Qed.


Lemma segmentValue_extend_left (t x0 x1 y0 y1 : Q) (ins outs : list Q)
    (o : InterpolateOptions) :
  strictlyIncreasing ins = true -> extrapolateLeft o = extend ->
  ins !! 0%nat = Some x0 -> ins !! 1%nat = Some x1 ->
  outs !! 0%nat = Some y0 -> outs !! 1%nat = Some y1 -> t <= x0 ->
  segmentValue t ins outs o == linearBetween x0 y0 x1 y1 t.
Proof.
  intros Hinc Ho Hx0 Hx1 Hy0 Hy1 Ht.
  destruct ins as [|a [|b rest]]; try discriminate.
  destruct outs as [|a' [|b' rest']]; try discriminate.
  injection Hx0 as ->. injection Hx1 as ->. injection Hy0 as ->. injection Hy1 as ->.
  apply strictlyIncreasing_cons in Hinc as [Hab _].
  rewrite segmentValue_first by lra.
  apply interpolateFunction_inside; [assumption | left; assumption | right; lra].
Qed.


Lemma segmentValue_extend_right (t x0 x1 y0 y1 : Q) (ins outs : list Q)
    (o : InterpolateOptions) :
  List.length ins = List.length outs -> (2 <= List.length ins)%nat ->
  strictlyIncreasing ins = true -> extrapolateRight o = extend ->
  ins !! (List.length ins - 2)%nat = Some x0 -> last ins = Some x1 ->
  outs !! (List.length outs - 2)%nat = Some y0 -> last outs = Some y1 ->
  x1 <= t ->
  segmentValue t ins outs o == linearBetween x0 y0 x1 y1 t.
Proof.
  intros Hlen Hge Hinc Ho Hx0 Hx1 Hy0 Hy1 Ht.
  assert (Hlt : x0 < x1).
  { pose proof Hx1 as Hx1'. rewrite last_lookup in Hx1'.
    apply (strictlyIncreasing_lookup_lt ins (List.length ins - 2)
             (Nat.pred (List.length ins)) x0 x1 Hinc);
      [lia | exact Hx0 | exact Hx1']. }
  rewrite (segmentValue_beyond t x0 x1 y0 y1); try assumption; [| lra].
  apply interpolateFunction_inside; [assumption | right; lra | left; assumption].
Qed.

Lemma map_lookup {A B : Type} (f : A -> B) (l : list A) (i : nat) :
  map f l !! i = f <$> (l !! i).
Proof.
  revert i. induction l as [|a l IH]; intros [|i]; cbn; try reflexivity. apply IH.
Qed.

Lemma map_last {A B : Type} (f : A -> B) (l : list A) :
  last (map f l) = f <$> last l.
Proof.
  rewrite !last_lookup, length_map. apply map_lookup.
Qed.

Lemma all_Some {A : Type} (f : A -> option Q) (l : list A) :
  Forall (fun x => is_Some (f x)) l ->
  exists outs, map f l = map Some outs.
Proof.
  induction 1 as [|x l [q Hq] _ (outs & IH)].
  - exists []. reflexivity.
  - exists (q :: outs). cbn. rewrite Hq, IH. reflexivity.
Qed.

End RangeEnds.

(** ** Opacity *)

Section OpacityClaims.

Import Remotion.

Variable interpolateColors : Q -> list Q -> list string -> outcome string.

Lemma animateProperty_opacity (sorted : list AnimationKeyframe) (duration frame : Q) :
  (2 <= List.length (filter (defines "opacity") sorted))%nat ->
  animateProperty interpolateColors "opacity" sorted duration frame
  = obind (interpolate frame
             (map (position duration) (filter (defines "opacity") sorted))
             (map opacityOf (filter (defines "opacity") sorted)) clampBoth)
      (fun v => Returns (Some (JNum v))).
Proof.
  intros Hlen. unfold animateProperty.
  destruct (filter (defines "opacity") sorted) as [|a [|b rest]];
    cbn [List.length] in Hlen; try lia.
  reflexivity.
Qed.


(** The clamping and midpoint examples of the specification, evaluated. *)
Lemma clamping_example_values :
  exists a b c,
    animateProperty interpolateColors "opacity" (sortKeyframes clampingExample) 90 0
    = Returns (Some (JNum a))
    /\ animateProperty interpolateColors "opacity" (sortKeyframes clampingExample) 90 45
       = Returns (Some (JNum b))
    /\ animateProperty interpolateColors "opacity" (sortKeyframes clampingExample) 90 90
       = Returns (Some (JNum c))
    /\ a == 0 /\ b == 1 # 2 /\ c == 1.
Proof.
  eexists _, _, _. repeat split; vm_compute; reflexivity.
Qed.

(** Keyframes at the same position are refused by the interpolation: the
    resolver raises at every frame. *)
Lemma tied_opacity_throws (frame : Q) :
  useAnimatedStyle interpolateColors (Some tiedOpacityExample) 90 frame
  = Throws InterpolateNotIncreasing.
Proof. vm_compute. reflexivity. Qed.

(** C4 does not hold of the code.  An opacity that is a string without a
    number is parsed to a value that is not a finite number; no default
    takes its place, the interpolation rejects the output range at every
    frame, and the failure reaches the rendering of the whole composition. *)
Theorem opacity_string_not_coerced (frame : Q) :
  opacityOf {| kf_at := 0; style := {[ "opacity"%string := JStr "abc" ]} |} = None
  /\ useAnimatedStyle interpolateColors (Some badOpacityExample) 90 frame
     = Throws InterpolateNotFinite
  /\ Animation interpolateColors badOpacityVideo 120 45 = Throws InterpolateNotFinite.
Proof.
  split; [vm_compute; reflexivity|]. split; vm_compute; reflexivity.
Qed.

End OpacityClaims.



(** ** Step selection *)

Section StepClaims.

Variable interpolateColors : Q -> list Q -> list string -> outcome string.




Lemma animateProperty_step (prop : string) (sorted : list AnimationKeyframe)
    (duration frame : Q) (first : AnimationKeyframe) :
  prop <> "opacity"%string -> prop <> "color"%string ->
  prop <> "backgroundColor"%string -> prop <> "transform"%string ->
  (2 <= List.length (filter (defines prop) sorted))%nat ->
  filter (defines prop) sorted !! 0%nat = Some first ->
  animateProperty interpolateColors prop sorted duration frame
  = Returns (Some (stepValue frame duration (styleOf prop first) prop
                     (filter (defines prop) sorted))).
Proof.
  intros H1 H2 H3 H4 Hlen Hfirst. unfold animateProperty.
  destruct (filter (defines prop) sorted) as [|a [|b rest]];
    cbn [List.length] in Hlen; try lia.
  injection Hfirst as ->.
  apply String.eqb_neq in H1, H2, H3, H4. rewrite H1, H2, H3, H4. reflexivity.
Qed.


End StepClaims.


(** The step example, evaluated: the first value holds up to the middle of
    the scene and the second from there on. *)
Lemma filter_example_values (frame : Q) :
  0 <= frame ->
  animateProperty noColors "filter" (sortKeyframes filterExample) 90 frame
  = Returns (Some (JStr (if Qle_bool 45 frame then "blur(10px)" else "blur(0px)"))).
Proof.
  intros Hf.
  rewrite (animateProperty_step noColors "filter" _ 90 frame
             {| kf_at := 0; style := {[ "filter"%string := JStr "blur(0px)" ]} |});
    try discriminate; [| vm_compute; lia | reflexivity].
  change (filter (defines "filter") (sortKeyframes filterExample)) with filterExample.
  cbn [stepValue filterExample kf_at].
  assert (E0 : Qle_bool (0 * 90) frame = true) by (apply Qle_bool_iff; lra).
  rewrite E0.
  assert (E1 : Qle_bool ((1 # 2) * 90) frame = Qle_bool 45 frame).
  { destruct (Qle_bool 45 frame) eqn:E.
    - apply Qle_bool_iff in E. apply Qle_bool_iff. lra.
    - apply Qle_bool_false in E. apply Qle_bool_false. lra. }
  rewrite E1. destruct (Qle_bool 45 frame); reflexivity.
Qed.

(** ** The scan of a transform channel *)

Section ChannelScan.

Import Remotion.

Lemma scanVarsAfter_from (func : string) (l : list AnimationKeyframe) :
  scanVarsAfter func l = scanVarsFrom func initialVars l.
Proof. reflexivity. Qed.

Lemma channelScan_cons (func : string) (duration : Q) (vars : ScanVars)
    (kf : AnimationKeyframe) (rest : list AnimationKeyframe) :
  channelScan func duration vars (kf :: rest) =
  let vars' := channelStep func (parseTransform (style kf !! "transform")) vars in
  (kf_at kf * duration :: fst (fst (channelScan func duration vars' rest)),
   pushed vars' :: snd (fst (channelScan func duration vars' rest)),
   snd (channelScan func duration vars' rest)).
Proof.
  cbn [channelScan].
  destruct (channelScan func duration
              (channelStep func (parseTransform (style kf !! "transform")) vars) rest)
    as [[ins outs] final].
  reflexivity.
Qed.

Lemma channelScan_inputs (func : string) (duration : Q) (vars : ScanVars)
    (l : list AnimationKeyframe) :
  fst (fst (channelScan func duration vars l)) = map (position duration) l.
Proof.
  revert vars. induction l as [|kf l IH]; intros vars; [reflexivity|].
  rewrite channelScan_cons. cbn [fst map]. rewrite IH. reflexivity.
Qed.

Lemma channelScan_outputs_length (func : string) (duration : Q) (vars : ScanVars)
    (l : list AnimationKeyframe) :
  List.length (snd (fst (channelScan func duration vars l))) = List.length l.
Proof.
  revert vars. induction l as [|kf l IH]; intros vars; [reflexivity|].
  rewrite channelScan_cons. cbn [fst snd List.length]. rewrite IH. reflexivity.
Qed.

Lemma channelScan_final (func : string) (duration : Q) (vars : ScanVars)
    (l : list AnimationKeyframe) :
  snd (channelScan func duration vars l) = scanVarsFrom func vars l.
Proof.
  revert vars. induction l as [|kf l IH]; intros vars; [reflexivity|].
  rewrite channelScan_cons. cbn [snd]. rewrite IH. reflexivity.
Qed.

Lemma channelScan_outputs_lookup (func : string) (duration : Q) (vars : ScanVars)
    (l : list AnimationKeyframe) (i : nat) :
  (i < List.length l)%nat ->
  snd (fst (channelScan func duration vars l)) !! i
  = Some (pushed (scanVarsFrom func vars (take (S i) l))).
Proof.
  revert vars i. induction l as [|kf l IH]; intros vars i Hi; [cbn in Hi; lia|].
  rewrite channelScan_cons. cbn [fst snd]. destruct i as [|i].
  - reflexivity.
  - cbn [List.length] in Hi. cbn [lookup list_lookup].
    rewrite IH by lia. reflexivity.
Qed.

Lemma scanVarsFrom_snoc (func : string) (vars : ScanVars)
    (l : list AnimationKeyframe) (kf : AnimationKeyframe) :
  scanVarsFrom func vars (l ++ [kf])
  = channelStep func (parseTransform (style kf !! "transform"))
      (scanVarsFrom func vars l).
Proof. unfold scanVarsFrom. rewrite fold_left_app. reflexivity. Qed.

Lemma channelInputs_positions (func : string) (duration : Q)
    (sorted : list AnimationKeyframe) :
  channelInputs func duration sorted = map (position duration) sorted.
Proof. apply channelScan_inputs. Qed.

Lemma channelOutputs_length (func : string) (duration : Q)
    (sorted : list AnimationKeyframe) :
  List.length (channelOutputs func duration sorted) = List.length sorted.
Proof. apply channelScan_outputs_length. Qed.

(** The value pushed for keyframe [i] is the carried value after the first
    [i + 1] keyframes. *)
Lemma channelOutputs_lookup (func : string) (duration : Q)
    (sorted : list AnimationKeyframe) (i : nat) :
  (i < List.length sorted)%nat ->
  channelOutputs func duration sorted !! i
  = Some (pushed (scanVarsAfter func (take (S i) sorted))).
Proof. apply channelScan_outputs_lookup. Qed.

Lemma scanVarsAfter_step (func : string) (sorted : list AnimationKeyframe)
    (i : nat) (kf : AnimationKeyframe) :
  sorted !! i = Some kf ->
  scanVarsAfter func (take (S i) sorted)
  = channelStep func (parseTransform (style kf !! "transform"))
      (scanVarsAfter func (take i sorted)).
Proof.
  intros Hkf. rewrite (take_S_r sorted i kf Hkf).
  rewrite !scanVarsAfter_from. apply scanVarsFrom_snoc.
Qed.

(** With at least two keyframes, distinct positions and finite carried
    values, the channel is the segment value over all the keyframes. *)
Lemma animateChannel_returns (func : string) (sorted : list AnimationKeyframe)
    (duration frame : Q) (outs : list Q) :
  (2 <= List.length sorted)%nat ->
  strictlyIncreasing (map (position duration) sorted) = true ->
  allFinite (channelOutputs func duration sorted) = Some outs ->
  animateChannel func sorted duration frame
  = Returns (Some (channelText func
                     (segmentValue frame (map (position duration) sorted) outs
                        defaultOptions)
                     (channelUnit func duration sorted))).
Proof.
  intros Hlen Hinc Hfin. unfold animateChannel.
  pose proof (channelInputs_positions func duration sorted) as Hin.
  pose proof (channelOutputs_length func duration sorted) as Hout.
  unfold channelInputs, channelOutputs, channelUnit in *.
  destruct (channelScan func duration initialVars sorted) as [[ins os] final].
  cbn [fst snd] in *. subst ins.
  rewrite length_map.
  destruct (Nat.ltb_spec 1 (List.length sorted)) as [_ | Hlt]; [|lia].
  rewrite (interpolate_returns frame _ os outs defaultOptions);
    [reflexivity | | | assumption | assumption].
  - rewrite length_map. congruence.
  - rewrite length_map. exact Hlen.
Qed.

Lemma animateChannels_In (funcs : list string) (sorted : list AnimationKeyframe)
    (duration frame : Q) (ts : list string) (func t : string) :
  animateChannels funcs sorted duration frame = Returns ts ->
  In func funcs ->
  animateChannel func sorted duration frame = Returns (Some t) ->
  In t ts.
Proof.
  revert ts. induction funcs as [|f funcs IH]; intros ts H Hin Ht; [destruct Hin|].
  cbn [animateChannels] in H.
  apply obind_Returns in H as (r & Hr & H).
  apply obind_Returns in H as (ts' & Hts' & H).
  injection H as <-. destruct Hin as [-> | Hin].
  - rewrite Ht in Hr. injection Hr as <-. left. reflexivity.
  - specialize (IH ts' Hts' Hin Ht). destruct r; [right|]; exact IH.
Qed.

Lemma animateProperty_transform
    (interpolateColors : Q -> list Q -> list string -> outcome string)
    (sorted : list AnimationKeyframe) (duration frame : Q) :
  (2 <= List.length (filter (defines "transform") sorted))%nat ->
  animateProperty interpolateColors "transform" sorted duration frame
  = obind (animateChannels (allFuncs (filter (defines "transform") sorted))
             sorted duration frame)
      (fun finalTransforms => Returns (Some (JStr (Js.join " " finalTransforms)))).
Proof.
  intros Hlen. unfold animateProperty.
  destruct (filter (defines "transform") sorted) as [|a [|b rest]];
    cbn [List.length] in Hlen; try lia.
  reflexivity.
Qed.

End ChannelScan.

(** ** Transforms without any function *)

Section EmptyTransform.

Variable interpolateColors : Q -> list Q -> list string -> outcome string.

Lemma allFuncs_none (kfs : list AnimationKeyframe) :
  (forall kf, kf ∈ kfs -> objectKeys (parseTransform (style kf !! "transform")) = []) ->
  allFuncs kfs = [].
Proof.
  intros Hnone. unfold allFuncs.
  assert (H : forall acc : list string,
             fold_left
               (fun acc kf =>
                  addAll (objectKeys (parseTransform (style kf !! "transform"))) acc)
               kfs acc = acc); [|apply H].
  induction kfs as [|kf kfs IH]; intros acc; [reflexivity|].
  cbn [fold_left]. rewrite (Hnone kf) by left. cbn [addAll fold_left].
  apply IH. intros kf' Hin. apply Hnone. right. exact Hin.
Qed.

Lemma baseStyle_transform (element : AnimationElement) :
  baseStyle element !! "transform"%string = Some (JStr baseTransform).
Proof.
  unfold baseStyle.
  destruct (el_type element), (el_shape element) as [[|]|]; reflexivity.
Qed.

Lemma mergeStyles_empty_transform (base animatedStyle : gmap string jsval) (b : jsval) :
  base !! "transform"%string = Some b ->
  animatedStyle !! "transform"%string = Some (JStr "") ->
  mergeStyles base animatedStyle !! "transform"%string = Some (JStr "").
Proof.
  intros Hb Ha. unfold mergeStyles. rewrite Hb, Ha.
  cbn [truthy Js.isEmpty negb]. rewrite andb_false_r.
  apply lookup_union_Some_l. exact Ha.
Qed.

Lemma mergeStyles_joined_transform (base animatedStyle : gmap string jsval)
    (b a : jsval) :
  base !! "transform"%string = Some b ->
  animatedStyle !! "transform"%string = Some a ->
  truthy b = true -> truthy a = true ->
  mergeStyles base animatedStyle !! "transform"%string
  = Some (JStr (jsToString b +:+ " " +:+ jsToString a)).
Proof.
  intros Hb Ha Tb Ta. unfold mergeStyles. rewrite Hb, Ha, Tb, Ta.
  apply lookup_insert_eq.
Qed.

(** C10.  When at least two keyframes of an element define [transform]
    and no transform function can be parsed from any keyframe, the
    animated transform is the empty string, and the element is rendered
    with that empty transform: the base transform [translate(-50%, -50%)]
    is replaced, not kept in front. *)
Theorem empty_transform_replaces_centering (element : AnimationElement)
    (sceneDuration frame : Q) :
  let sorted := sortKeyframes (keyframes element) in
  (2 <= List.length (filter (defines "transform") sorted))%nat ->
  (forall kf, kf ∈ keyframes element ->
              objectKeys (parseTransform (style kf !! "transform")) = []) ->
  animateProperty interpolateColors "transform" sorted sceneDuration frame
  = Returns (Some (JStr ""))
  /\ baseStyle element !! "transform"%string = Some (JStr "translate(-50%, -50%)")
  /\ (forall st,
        useAnimatedStyle interpolateColors (Some (keyframes element))
          sceneDuration frame = Returns st ->
        exists r,
          AnimatedElement interpolateColors element sceneDuration frame = Returns r
          /\ divStyle r !! "transform"%string = Some (JStr "")).
Proof.
  intros sorted Hlen Hnone.
  assert (Hprop : animateProperty interpolateColors "transform" sorted
                    sceneDuration frame = Returns (Some (JStr ""))).
  { rewrite animateProperty_transform by exact Hlen.
    rewrite allFuncs_none; [reflexivity|].
    intros kf Hin. apply Hnone.
    apply list_elem_of_filter in Hin as [_ Hin].
    unfold sorted in Hin. rewrite sortKeyframes_Permutation in Hin. exact Hin. }
  split; [exact Hprop|]. split; [apply baseStyle_transform|].
  intros st Hst. unfold AnimatedElement. rewrite Hst. cbn [obind].
  eexists. split; [reflexivity|]. cbn [divStyle].
  eapply mergeStyles_empty_transform; [apply baseStyle_transform|].
  eapply useAnimatedStyle_lookup; eassumption.
Qed.

End EmptyTransform.

Lemma empty_transform_replaces_centering_witness :
  exists r,
    AnimatedElement noColors unparsableElement 90 45 = Returns r
    /\ divStyle r !! "transform"%string = Some (JStr "").
Proof.
  assert (Hlen : (2 <= List.length
                        (filter (defines "transform")
                           (sortKeyframes (keyframes unparsableElement))))%nat)
    by (vm_compute; lia).
  assert (Hnone : forall kf, kf ∈ keyframes unparsableElement ->
                    objectKeys (parseTransform (style kf !! "transform")) = []).
  { intros kf Hin. cbn [keyframes unparsableElement] in Hin.
    apply elem_of_cons in Hin as [-> | Hin]; [reflexivity|].
    apply elem_of_cons in Hin as [-> | Hin]; [reflexivity|].
    inversion Hin. }
  destruct (empty_transform_replaces_centering noColors unparsableElement 90 45
              Hlen Hnone) as (_ & _ & H).
  apply (H {[ "transform"%string := JStr "" ]}).
  vm_compute. reflexivity.
Defined.

(** With a parsable transform the two strings are joined, base first. *)
Lemma transform_example_rendered :
  exists r,
    AnimatedElement noColors transformElement 90 45 = Returns r
    /\ divStyle r !! "transform"%string
       = Some (JStr "translate(-50%, -50%) translateX(50px) scale(1)").
Proof.
  eexists. split; vm_compute; reflexivity.
Qed.

(** ** Transform channels *)

Section TransformClaims.

Import Remotion.

Variable interpolateColors : Q -> list Q -> list string -> outcome string.

Lemma linearBetween_leaves_left (x0 y0 x1 y1 t : Q) :
  x0 < x1 -> ~ t == x0 -> ~ y0 == y1 -> ~ linearBetween x0 y0 x1 y1 t == y0.
Proof.
  intros Hx Ht Hy H. unfold linearBetween in H.
  assert (E : (t - x0) * (y1 - y0) == 0).
  { assert (E1 : (t - x0) * (y1 - y0)
                 == (y0 + (t - x0) * (y1 - y0) / (x1 - x0) - y0) * (x1 - x0))
      by (field; lra).
    rewrite E1, H. ring. }
  apply Qmult_integral in E. destruct E as [E | E]; [apply Ht | apply Hy]; lra.
Qed.

Lemma linearBetween_leaves_right (x0 y0 x1 y1 t : Q) :
  x0 < x1 -> ~ t == x1 -> ~ y0 == y1 -> ~ linearBetween x0 y0 x1 y1 t == y1.
Proof.
  intros Hx Ht Hy H. unfold linearBetween in H.
  assert (E : (t - x1) * (y1 - y0) == 0).
  { assert (E1 : (t - x1) * (y1 - y0)
                 == (y0 + (t - x0) * (y1 - y0) / (x1 - x0) - y1) * (x1 - x0))
      by (field; lra).
    rewrite E1, H. ring. }
  apply Qmult_integral in E. destruct E as [E | E]; [apply Ht | apply Hy]; lra.
Qed.

Lemma filter_length_le (prop : string) (sorted : list AnimationKeyframe) :
  (List.length (filter (defines prop) sorted) <= List.length sorted)%nat.
Proof. apply length_filter. Qed.

Lemma outputs_lookup (func : string) (duration : Q) (sorted : list AnimationKeyframe)
    (outs : list Q) (i : nat) :
  allFinite (channelOutputs func duration sorted) = Some outs ->
  (i < List.length sorted)%nat ->
  Some <$> (outs !! i) = Some (pushed (scanVarsAfter func (take (S i) sorted))).
Proof.
  intros Hfin Hi. apply allFinite_Some in Hfin.
  rewrite <- (channelOutputs_lookup func duration sorted i Hi), Hfin.
  symmetry. apply map_lookup.
Qed.

(** C9.  The value of a transform channel is not clamped: before the
    first keyframe position it continues the line through the first two
    knots, after the last position the line through the last two, so it
    leaves the end value whenever the two knots differ.  The knots are the
    positions of all keyframes of the element and the carried values
    [outs] of the channel. *)
Theorem transform_extrapolated (func : string) (keyframes : list AnimationKeyframe)
    (duration frame : Q) (outs : list Q) :
  let sorted := sortKeyframes keyframes in
  let kfsT := filter (defines "transform") sorted in
  (2 <= List.length kfsT)%nat -> In func (allFuncs kfsT) ->
  strictlyIncreasing (map (position duration) sorted) = true ->
  allFinite (channelOutputs func duration sorted) = Some outs ->
  exists v,
    animateChannel func sorted duration frame
    = Returns (Some (channelText func v (channelUnit func duration sorted)))
    /\ (forall ts,
          animateChannels (allFuncs kfsT) sorted duration frame = Returns ts ->
          In (channelText func v (channelUnit func duration sorted)) ts)
    /\ (forall k0 k1 y0 y1,
          sorted !! 0%nat = Some k0 -> sorted !! 1%nat = Some k1 ->
          outs !! 0%nat = Some y0 -> outs !! 1%nat = Some y1 ->
          frame <= position duration k0 ->
          v == linearBetween (position duration k0) y0 (position duration k1) y1 frame
          /\ (frame < position duration k0 -> ~ y0 == y1 -> ~ v == y0))
    /\ (forall k0 k1 y0 y1,
          sorted !! (List.length sorted - 2)%nat = Some k0 -> last sorted = Some k1 ->
          outs !! (List.length outs - 2)%nat = Some y0 -> last outs = Some y1 ->
          position duration k1 <= frame ->
          v == linearBetween (position duration k0) y0 (position duration k1) y1 frame
          /\ (position duration k1 < frame -> ~ y0 == y1 -> ~ v == y1)).
Proof.
  intros sorted kfsT HlenT Hfunc Hinc Hfin.
  assert (Hlen : (2 <= List.length sorted)%nat).
  { pose proof (filter_length_le "transform" sorted). fold kfsT in H. lia. }
  assert (Hlo : List.length outs = List.length sorted).
  { rewrite (allFinite_length _ _ Hfin). apply channelOutputs_length. }
  set (ins := map (position duration) sorted) in *.
  assert (Hpos : forall i k, sorted !! i = Some k -> ins !! i = Some (position duration k)).
  { intros i k Hk. unfold ins. rewrite map_lookup, Hk. reflexivity. }
  exists (segmentValue frame ins outs defaultOptions).
  assert (Hchan : animateChannel func sorted duration frame
                  = Returns (Some (channelText func
                                     (segmentValue frame ins outs defaultOptions)
                                     (channelUnit func duration sorted)))).
  { apply animateChannel_returns; assumption. }
  split; [exact Hchan|]. split; [|split].
  - intros ts Hts. eapply animateChannels_In; eassumption.
  - intros k0 k1 y0 y1 Hk0 Hk1 Hy0 Hy1 Ht.
    assert (Hlt : position duration k0 < position duration k1).
    { apply (strictlyIncreasing_lookup_lt ins 0 1 _ _ Hinc); auto. }
    assert (Hv : segmentValue frame ins outs defaultOptions
                 == linearBetween (position duration k0) y0 (position duration k1) y1
                      frame).
    { apply (segmentValue_extend_left frame _ _ y0 y1 ins outs); auto. }
    split; [exact Hv|]. intros Hstrict Hy. rewrite Hv.
    apply linearBetween_leaves_left; [assumption | lra | assumption].
  - intros k0 k1 y0 y1 Hk0 Hk1 Hy0 Hy1 Ht.
    assert (Hli : List.length ins = List.length sorted) by apply length_map.
    assert (Hk1' : last ins = Some (position duration k1)).
    { unfold ins. rewrite map_last, Hk1. reflexivity. }
    assert (Hk0' : ins !! (List.length ins - 2)%nat = Some (position duration k0)).
    { rewrite Hli. apply Hpos. exact Hk0. }
    assert (Hlt : position duration k0 < position duration k1).
    { pose proof Hk1' as Hl. rewrite last_lookup in Hl.
      apply (strictlyIncreasing_lookup_lt ins (List.length ins - 2)
               (Nat.pred (List.length ins)) _ _ Hinc); [lia | assumption | assumption]. }
    assert (Hv : segmentValue frame ins outs defaultOptions
                 == linearBetween (position duration k0) y0 (position duration k1) y1
                      frame).
    { apply (segmentValue_extend_right frame _ _ y0 y1 ins outs); auto; lia. }
    split; [exact Hv|]. intros Hstrict Hy. rewrite Hv.
    apply linearBetween_leaves_right; [assumption | lra | assumption].
Qed.

End TransformClaims.

Lemma transform_extrapolated_witness :
  exists v,
    animateChannel "translateX" (sortKeyframes transformExample) 90 108
    = Returns (Some (channelText "translateX" v
                       (channelUnit "translateX" 90 (sortKeyframes transformExample)))).
Proof.
  assert (H1 : (2 <= List.length
                      (filter (defines "transform") (sortKeyframes transformExample)))%nat)
    by (vm_compute; lia).
  assert (H2 : In "translateX"%string
                 (allFuncs (filter (defines "transform") (sortKeyframes transformExample))))
    by (vm_compute; tauto).
  assert (H3 : Remotion.strictlyIncreasing
                 (map (position 90) (sortKeyframes transformExample)) = true)
    by (vm_compute; reflexivity).
  assert (H4 : Remotion.allFinite
                 (channelOutputs "translateX" 90 (sortKeyframes transformExample))
               = Some [0; 100])
    by (vm_compute; reflexivity).
  destruct (transform_extrapolated "translateX" transformExample 90 108 [0; 100]
              H1 H2 H3 H4) as (v & Hv & _).
  exists v. exact Hv.
Defined.

(** In the overlap after the scene's own duration the channel runs past
    its last keyframe value: 120 at frame 108, where the keyframes end at
    100 at frame 90. *)
Lemma transform_example_overlap :
  useAnimatedStyle noColors (Some transformExample) 90 108
  = Returns {[ "transform"%string := JStr "translateX(120px) scale(1)" ]}.
Proof. vm_compute. reflexivity. Qed.

(** ** Carried values and defaults of a channel *)

Section CarryForward.

Import Remotion.

Variable interpolateColors : Q -> list Q -> list string -> outcome string.

Lemma prefix_includes (hay needle : string) :
  String.prefix needle hay = true -> Js.includes hay needle = true.
Proof.
  intros H. destruct hay; cbn [Js.includes]; rewrite H; reflexivity.
Qed.

Lemma defaultValue_scale (func : string) :
  (String.prefix "scale" func = true -> defaultValue func = 1)
  /\ (Js.includes func "scale" = false -> defaultValue func = 0).
Proof.
  unfold defaultValue. split; intros H.
  - rewrite (prefix_includes _ _ H). reflexivity.
  - rewrite H. reflexivity.
Qed.

Lemma defaultUnit_cases (func : string) :
  (String.prefix "rotate" func = true -> defaultUnit func = "deg"%string)
  /\ (Js.includes func "rotate" = false -> String.prefix "translate" func = true ->
      defaultUnit func = "px"%string)
  /\ (Js.includes func "rotate" = false -> Js.includes func "translate" = false ->
      defaultUnit func = ""%string).
Proof.
  unfold defaultUnit. repeat split.
  - intros H. rewrite (prefix_includes _ _ H). reflexivity.
  - intros H1 H2. rewrite H1, (prefix_includes _ _ H2). reflexivity.
  - intros H1 H2. rewrite H1, H2. reflexivity.
Qed.

Lemma channelStep_absent_default (func : string) (parsed : Parsed) (vars : ScanVars) :
  getProp parsed func = Absent ->
  vars = initialVars
  \/ vars = {| lastValue := Some (Some (defaultValue func));
               lastUnit := Some (defaultUnit func) |} ->
  channelStep func parsed vars
  = {| lastValue := Some (Some (defaultValue func));
       lastUnit := Some (defaultUnit func) |}.
Proof.
  intros Hslot [-> | ->]; unfold channelStep; rewrite Hslot; reflexivity.
Qed.

(** While no keyframe has defined the channel, the scan carries the
    default value and the default unit. *)
Lemma scan_without_definition (func : string) (sorted : list AnimationKeyframe)
    (i : nat) :
  (i < List.length sorted)%nat ->
  (forall j kf, (j <= i)%nat -> sorted !! j = Some kf -> slotAt func kf = Absent) ->
  scanVarsAfter func (take (S i) sorted)
  = {| lastValue := Some (Some (defaultValue func));
       lastUnit := Some (defaultUnit func) |}.
Proof.
  induction i as [|i IH]; intros Hi Habs.
  - destruct (lookup_lt_is_Some_2 sorted 0 Hi) as [kf Hkf].
    rewrite (scanVarsAfter_step func sorted 0 kf Hkf).
    apply channelStep_absent_default; [|left; reflexivity].
    apply (Habs 0%nat kf); [lia | exact Hkf].
  - destruct (lookup_lt_is_Some_2 sorted (S i) Hi) as [kf Hkf].
    rewrite (scanVarsAfter_step func sorted (S i) kf Hkf).
    apply channelStep_absent_default.
    + apply (Habs (S i) kf); [lia | exact Hkf].
    + right. apply IH; [lia|]. intros j kf' Hj. apply Habs. lia.
Qed.

Lemma fmap_Some_inv (o x : option Q) : Some <$> o = Some x -> o = x.
Proof.
  destruct o as [q|]; intros H; [injection H as <-; reflexivity | discriminate H].
Qed.

Lemma pushed_Some (vars : ScanVars) (y : Q) :
  pushed vars = Some y -> lastValue vars = Some (Some y).
Proof.
  unfold pushed. destruct (lastValue vars) as [[q|]|]; congruence.
Qed.

(** C2.  With at least two keyframes defining [transform], the resolved
    transform is the join of one text per function name, and each channel
    is interpolated linearly on its own over all the keyframes of the
    element: its knots are the positions of all sorted keyframes and its
    carried values; a keyframe that defines the function contributes its
    value, a keyframe that omits it repeats the value carried so far, and
    before any definition the value is the default, 1 for a [scale]
    function and 0 otherwise, with default unit [deg] for [rotate], [px]
    for [translate] and none otherwise.  For the two keyframes
    [translateX(0px) scale(1)] at 0 and [translateX(100px)] at 1 the
    transform resolved halfway is [translateX(50px) scale(1)]. *)
Theorem transform_channels (func : string) (keyframes : list AnimationKeyframe)
    (duration frame : Q) (outs : list Q) :
  let sorted := sortKeyframes keyframes in
  let kfsT := filter (defines "transform") sorted in
  (2 <= List.length kfsT)%nat -> In func (allFuncs kfsT) ->
  strictlyIncreasing (map (position duration) sorted) = true ->
  allFinite (channelOutputs func duration sorted) = Some outs ->
  animateProperty interpolateColors "transform" sorted duration frame
  = obind (animateChannels (allFuncs kfsT) sorted duration frame)
      (fun ts => Returns (Some (JStr (Js.join " " ts))))
  /\ (exists v,
        animateChannel func sorted duration frame
        = Returns (Some (channelText func v (channelUnit func duration sorted)))
        /\ (forall ts,
              animateChannels (allFuncs kfsT) sorted duration frame = Returns ts ->
              In (channelText func v (channelUnit func duration sorted)) ts)
        /\ (forall i k0 k1 y0 y1,
              sorted !! i = Some k0 -> sorted !! S i = Some k1 ->
              outs !! i = Some y0 -> outs !! S i = Some y1 ->
              position duration k0 <= frame <= position duration k1 ->
              v == linearBetween (position duration k0) y0
                     (position duration k1) y1 frame))
  /\ (forall i kf,
        sorted !! i = Some kf ->
        (forall c, slotAt func kf = Own c -> outs !! i = value c)
        /\ (slotAt func kf = Absent ->
            outs !! i = match i with
                        | O => Some (defaultValue func)
                        | S j => outs !! j
                        end)
        /\ slotAt func kf <> Alien)
  /\ (forall i,
        (i < List.length sorted)%nat ->
        (forall j kf, (j <= i)%nat -> sorted !! j = Some kf -> slotAt func kf = Absent) ->
        outs !! i = Some (defaultValue func)
        /\ lastUnit (scanVarsAfter func (take (S i) sorted)) = Some (defaultUnit func))
  /\ ((String.prefix "scale" func = true -> defaultValue func = 1)
      /\ (Js.includes func "scale" = false -> defaultValue func = 0))
  /\ ((String.prefix "rotate" func = true -> defaultUnit func = "deg"%string)
      /\ (Js.includes func "rotate" = false -> String.prefix "translate" func = true ->
          defaultUnit func = "px"%string)
      /\ (Js.includes func "rotate" = false -> Js.includes func "translate" = false ->
          defaultUnit func = ""%string))
  /\ useAnimatedStyle interpolateColors (Some transformExample) 90 45
     = Returns {[ "transform"%string := JStr "translateX(50px) scale(1)" ]}.
Proof.
  intros sorted kfsT HlenT Hfunc Hinc Hfin.
  assert (Hlen : (2 <= List.length sorted)%nat).
  { pose proof (filter_length_le "transform" sorted). fold kfsT in H. lia. }
  assert (Hout : forall i, (i < List.length sorted)%nat ->
                 Some <$> (outs !! i)
                 = Some (pushed (scanVarsAfter func (take (S i) sorted)))).
  { intros i Hi. apply (outputs_lookup func duration); assumption. }
  split; [apply animateProperty_transform; exact HlenT|].
  split; [|split; [|split; [|split; [|split]]]].
  - exists (segmentValue frame (map (position duration) sorted) outs defaultOptions).
    assert (Hchan : animateChannel func sorted duration frame
                    = Returns (Some (channelText func
                                       (segmentValue frame
                                          (map (position duration) sorted) outs
                                          defaultOptions)
                                       (channelUnit func duration sorted)))).
    { apply animateChannel_returns; assumption. }
    split; [exact Hchan|]. split.
    + intros ts Hts. eapply animateChannels_In; eassumption.
    + intros i k0 k1 y0 y1 Hk0 Hk1 Hy0 Hy1 Ht.
      apply (segmentValue_between frame _ _ y0 y1 _ outs i); auto.
      * rewrite map_lookup, Hk0. reflexivity.
      * rewrite map_lookup, Hk1. reflexivity.
  - intros i kf Hkf.
    assert (Hi : (i < List.length sorted)%nat) by (eapply lookup_lt_Some; exact Hkf).
    pose proof (Hout i Hi) as Hi'.
    rewrite (scanVarsAfter_step func sorted i kf Hkf) in Hi'.
    fold (slotAt func kf) in Hi'. unfold channelStep in Hi'.
    fold (slotAt func kf) in Hi'.
    destruct (slotAt func kf) as [c | |] eqn:Hslot.
    + split; [|split; [discriminate | discriminate]].
      intros c' [= <-]. cbn [pushed lastValue] in Hi'.
      apply fmap_Some_inv. exact Hi'.
    + exfalso. cbn [pushed lastValue] in Hi'.
      destruct (outs !! i); discriminate Hi'.
    + split; [discriminate|]. split; [|discriminate]. intros _.
      destruct i as [|j].
      * cbn [take scanVarsAfter fold_left initialVars lastValue pushed] in Hi'.
        apply fmap_Some_inv. exact Hi'.
      * assert (Hj : (j < List.length sorted)%nat) by lia.
        pose proof (Hout j Hj) as Hj'.
        apply fmap_Some_inv in Hj'.
        destruct (outs !! j) as [y|] eqn:Ey.
        -- symmetry in Hj'. apply pushed_Some in Hj'.
           rewrite Hj' in Hi'. cbn [pushed lastValue] in Hi'.
           apply fmap_Some_inv. exact Hi'.
        -- exfalso. apply lookup_ge_None in Ey.
           rewrite (allFinite_length _ _ Hfin), channelOutputs_length in Ey. lia.
  - intros i Hi Habs.
    pose proof (Hout i Hi) as Hi'.
    rewrite (scan_without_definition func sorted i Hi Habs) in *.
    cbn [pushed lastValue lastUnit] in *. split; [|reflexivity].
    apply fmap_Some_inv. exact Hi'.
  - apply defaultValue_scale.
  - apply defaultUnit_cases.
  - vm_compute. reflexivity.
Qed.

End CarryForward.

Lemma transform_channels_witness :
  exists v,
    animateChannel "scale" (sortKeyframes transformExample) 90 45
    = Returns (Some (channelText "scale" v
                       (channelUnit "scale" 90 (sortKeyframes transformExample)))).
Proof.
  assert (H1 : (2 <= List.length
                      (filter (defines "transform") (sortKeyframes transformExample)))%nat)
    by (vm_compute; lia).
  assert (H2 : In "scale"%string
                 (allFuncs (filter (defines "transform") (sortKeyframes transformExample))))
    by (vm_compute; tauto).
  assert (H3 : Remotion.strictlyIncreasing
                 (map (position 90) (sortKeyframes transformExample)) = true)
    by (vm_compute; reflexivity).
  assert (H4 : Remotion.allFinite
                 (channelOutputs "scale" 90 (sortKeyframes transformExample))
               = Some [1; 1])
    by (vm_compute; reflexivity).
  destruct (transform_channels noColors "scale" transformExample 90 45 [1; 1]
              H1 H2 H3 H4) as (_ & (v & Hv & _) & _).
  exists v. exact Hv.
Defined.

(** * Further properties of the player *)

(** ** Bounds of the cross-fade and of the background effect *)

Section SceneBounds.

Import Remotion.

Lemma fadeOutRamp_bounds (sd td f : Q) :
  0 < td -> 0 <= fadeOutRamp sd td f <= 1.
Proof.
  intros Htd. unfold fadeOutRamp.
  destruct (Qle_bool f sd) eqn:E1; [lra|].
  destruct (Qle_bool (sd + td) f) eqn:E2; [lra|].
  apply Qle_bool_false in E1, E2.
  pose proof (Qdiv_nonneg (f - sd) td Htd ltac:(lra)).
  pose proof (Qdiv_nonneg_le_1 (f - sd) td Htd ltac:(lra)). lra.
Qed.

Lemma fadeInRamp_bounds (td f : Q) :
  0 < td -> 0 <= fadeInRamp td f <= 1.
Proof.
  intros Htd. unfold fadeInRamp.
  destruct (Qle_bool f 0) eqn:E1; [lra|].
  destruct (Qle_bool td f) eqn:E2; [lra|].
  apply Qle_bool_false in E1, E2.
  pose proof (Qdiv_nonneg f td Htd ltac:(lra)).
  pose proof (Qdiv_nonneg_le_1 f td Htd ltac:(lra)). lra.
Qed.

(** X1.  While a scene is inside its window, frames 0 to
    [sceneDuration + transitionDuration], its opacity lies between 0 and
    1 whatever its place in the composition; an interior scene asked
    before frame 0 has a negative opacity, so the window matters. *)
Theorem scene_opacity_bounds (sceneDuration transitionDuration f : Q) :
  0 < transitionDuration ->
  (0 <= f <= sceneDuration + transitionDuration ->
   forall isFirst isLast,
   exists v,
     sceneOpacity isFirst isLast sceneDuration transitionDuration f = Returns v
     /\ 0 <= v <= 1)
  /\ (0 <= sceneDuration -> f < 0 ->
      exists v,
        sceneOpacity false false sceneDuration transitionDuration f = Returns v
        /\ v < 0).
Proof.
  intros Htd.
  destruct (fadeIn_interior transitionDuration f Htd) as [Hin1 Hin2].
  destruct (fadeOut_interior sceneDuration transitionDuration f Htd) as [Hout1 Hout2].
  split.
  - intros [Hf0 Hf1] [|] [|].
    + exists 1. split; [reflexivity | lra].
    + eexists. split; [apply sceneOpacity_first; exact Htd|].
      rewrite fadeOut_clamped by exact Htd. apply fadeOutRamp_bounds. exact Htd.
    + eexists. split; [apply sceneOpacity_last; exact Htd|].
      rewrite fadeIn_clamped by exact Htd. apply fadeInRamp_bounds. exact Htd.
    + eexists. split; [apply sceneOpacity_interior; exact Htd|]. split.
      * apply Q.min_glb.
        -- destruct (Qlt_le_dec f transitionDuration) as [Hlt | Hge].
           ++ rewrite Hin1 by lra. apply Qdiv_nonneg; lra.
           ++ rewrite Hin2 by lra. lra.
        -- destruct (Qlt_le_dec f sceneDuration) as [Hlt | Hge].
           ++ rewrite Hout1 by lra. lra.
           ++ rewrite Hout2 by lra.
              pose proof (Qdiv_nonneg_le_1 (f - sceneDuration) transitionDuration
                            Htd ltac:(lra)). lra.
      * destruct (Qlt_le_dec f transitionDuration) as [Hlt | Hge].
        -- eapply Qle_trans; [apply Q.le_min_l|]. rewrite Hin1 by lra.
           apply Qdiv_nonneg_le_1; lra.
        -- eapply Qle_trans; [apply Q.le_min_l|]. rewrite Hin2 by lra. lra.
  - intros Hsd Hneg. eexists. split; [apply sceneOpacity_interior; exact Htd|].
    eapply Qle_lt_trans; [apply Q.le_min_l|]. rewrite Hin1 by lra.
    apply Qlt_shift_div_r; [exact Htd | lra].
Qed.

Lemma scene_opacity_bounds_witness :
  exists v, sceneOpacity false false 90 30 100 = Returns v /\ 0 <= v <= 1.
Proof.
  assert (Htd : 0 < 30) by reflexivity.
  assert (Hf : 0 <= 100 <= 90 + 30) by (split; discriminate).
  exact (proj1 (scene_opacity_bounds 90 30 100 Htd) Hf false false).
Defined.

Lemma sequenceFrame_succ (k : nat) (m : Q) :
  sequenceFrame (inject_Z (Z.of_nat (S k)) * DURATION_PER_SCENE) m
  == sequenceFrame (inject_Z (Z.of_nat k) * DURATION_PER_SCENE) m - 90.
Proof.
  unfold sequenceFrame, DURATION_PER_SCENE.
  rewrite Nat2Z.inj_succ. unfold Z.succ. rewrite inject_Z_plus. ring.
Qed.

(** X2.  While two consecutive scenes overlap, the thirty frames from the
    start of the later one, their opacities add up to 1: the earlier scene
    has [1 - p] and the later one [p], with [p] the part of the transition
    that has passed. *)
Theorem crossfade_weights_sum (count k : nat) (m : Q) :
  (S k < count)%nat ->
  let start := inject_Z (Z.of_nat (S k)) * DURATION_PER_SCENE in
  start <= m <= start + TRANSITION_DURATION ->
  exists a b,
    sceneOpacityAt count k m = Returns a
    /\ sceneOpacityAt count (S k) m = Returns b
    /\ b == (m - start) / TRANSITION_DURATION
    /\ a + b == 1.
Proof.
  intros Hk start [Hlo Hhi].
  unfold sceneOpacityAt, TRANSITION_DURATION, DURATION_PER_SCENE in *.
  assert (Htd : 0 < 30) by reflexivity.
  set (f1 := sequenceFrame (inject_Z (Z.of_nat (S k)) * 90) m).
  set (f0 := sequenceFrame (inject_Z (Z.of_nat k) * 90) m).
  assert (Ef : f1 == f0 - 90) by apply sequenceFrame_succ.
  assert (Ef1 : f1 == m - start) by (unfold f1, sequenceFrame, start; ring).
  assert (Hf1 : 0 <= f1 <= 30) by (rewrite Ef1; lra).
  assert (Hf0 : 90 <= f0 <= 120) by lra.
  assert (Hp0 : 0 <= f1 / 30) by (apply Qdiv_nonneg; [reflexivity | lra]).
  assert (Hp1 : f1 / 30 <= 1) by (apply Qdiv_nonneg_le_1; [reflexivity | lra]).
  assert (Hshift : (f0 - 90) / 30 == f1 / 30) by (rewrite Ef; reflexivity).
  (* the earlier scene *)
  assert (Ha : exists a,
             sceneOpacity (Nat.eqb k 0) (Nat.eqb k (count - 1)) 90 30 f0 = Returns a
             /\ a == 1 - (f0 - 90) / 30).
  { assert (Elast : Nat.eqb k (count - 1) = false) by (apply Nat.eqb_neq; lia).
    rewrite Elast. destruct (Nat.eqb k 0).
    - eexists. split; [apply sceneOpacity_first; reflexivity|].
      rewrite (fadeOut_clamped 90 30 f0 Htd). unfold fadeOutRamp.
      destruct (Qle_bool f0 90) eqn:C1.
      + apply Qle_bool_iff in C1. assert (E : f0 == 90) by lra.
        rewrite E. reflexivity.
      + destruct (Qle_bool (90 + 30) f0) eqn:C2; [|reflexivity].
        apply Qle_bool_iff in C2. assert (E : f0 == 120) by lra.
        rewrite E. reflexivity.
    - eexists. split; [apply sceneOpacity_interior; reflexivity|].
      destruct (fadeIn_interior 30 f0 Htd) as [_ Hin].
      destruct (fadeOut_interior 90 30 f0 Htd) as [_ Hout].
      rewrite Hin by lra. rewrite Hout by lra.
      apply Q.min_r. rewrite Hshift. lra. }
  (* the later scene *)
  assert (Hb : exists b,
             sceneOpacity (Nat.eqb (S k) 0) (Nat.eqb (S k) (count - 1)) 90 30 f1
             = Returns b /\ b == f1 / 30).
  { change (Nat.eqb (S k) 0) with false. destruct (Nat.eqb (S k) (count - 1)).
    - eexists. split; [apply sceneOpacity_last; reflexivity|].
      rewrite (fadeIn_clamped 30 f1 Htd). unfold fadeInRamp.
      destruct (Qle_bool f1 0) eqn:C1.
      + apply Qle_bool_iff in C1. assert (E : f1 == 0) by lra.
        rewrite E. reflexivity.
      + destruct (Qle_bool 30 f1) eqn:C2; [|reflexivity].
        apply Qle_bool_iff in C2. assert (E : f1 == 30) by lra.
        rewrite E. reflexivity.
    - eexists. split; [apply sceneOpacity_interior; reflexivity|].
      destruct (fadeIn_interior 30 f1 Htd) as [Hin _].
      destruct (fadeOut_interior 90 30 f1 Htd) as [Hout _].
      rewrite Hin by lra. rewrite Hout by lra.
      apply Q.min_l. exact Hp1. }
  destruct Ha as (a & Ha & Eva). destruct Hb as (b & Hb & Evb).
  exists a, b. split; [exact Ha|]. split; [exact Hb|]. split.
  - rewrite Evb, Ef1. reflexivity.
  - rewrite Eva, Evb, Hshift. ring.
Qed.

Lemma crossfade_weights_sum_witness :
  exists a b,
    sceneOpacityAt 4 1 190 = Returns a /\ sceneOpacityAt 4 2 190 = Returns b
    /\ a + b == 1.
Proof.
  assert (Hk : (2 < 4)%nat) by lia.
  assert (Hm : inject_Z (Z.of_nat 2) * DURATION_PER_SCENE <= 190
               <= inject_Z (Z.of_nat 2) * DURATION_PER_SCENE + TRANSITION_DURATION)
    by (split; discriminate).
  destruct (crossfade_weights_sum 4 1 190 Hk Hm) as (a & b & Ha & Hb & _ & Hsum).
  exists a, b. tauto.
Defined.

Lemma getKenBurnsValues_formula (frame duration : Q) (index : nat) :
  exists scale rotate,
    getKenBurnsValues frame duration index = Returns (scale, rotate)
    /\ ((index mod 2 = 0)%nat ->
        scale == 1 + (frame / duration) / 10 /\ rotate == -1 + 2 * (frame / duration))
    /\ ((index mod 2 <> 0)%nat ->
        scale == (11 # 10) - (frame / duration) / 10
        /\ rotate == 1 - 2 * (frame / duration)).
Proof.
  unfold getKenBurnsValues. set (p := frame / duration).
  assert (H01 : 0 < 1) by reflexivity.
  destruct (Nat.eqb (index mod 2) 0) eqn:Epar.
  - rewrite !(interpolate_two _ _ _ _ _ _ H01). cbn [obind].
    eexists _, _. split; [reflexivity|].
    apply Nat.eqb_eq in Epar. split; [|intros Hne; contradiction].
    intros _. split.
    + rewrite interpolateFunction_inside;
        [| assumption | left; reflexivity | left; reflexivity].
      unfold linearBetween. field.
    + rewrite interpolateFunction_inside;
        [| assumption | left; reflexivity | left; reflexivity].
      unfold linearBetween. field.
  - rewrite !(interpolate_two _ _ _ _ _ _ H01). cbn [obind].
    eexists _, _. split; [reflexivity|].
    apply Nat.eqb_neq in Epar. split; [intros He; contradiction|].
    intros _. split.
    + rewrite interpolateFunction_inside;
        [| assumption | left; reflexivity | left; reflexivity].
      unfold linearBetween. field.
    + rewrite interpolateFunction_inside;
        [| assumption | left; reflexivity | left; reflexivity].
      unfold linearBetween. field.
Qed.

(** X3.  While the frame lies between 0 and the duration the background is
    drawn at a scale between 1 and 1.1 and tilted by at most one degree; at
    frame 0 an even scene starts at scale 1 and -1 degree, an odd one at
    1.1 and +1 degree. *)
Theorem ken_burns_bounds (frame duration : Q) (index : nat) :
  0 < duration -> 0 <= frame <= duration ->
  exists scale rotate,
    getKenBurnsValues frame duration index = Returns (scale, rotate)
    /\ 1 <= scale <= 11 # 10 /\ -1 <= rotate <= 1
    /\ (frame == 0 ->
        if Nat.eqb (index mod 2) 0 then scale == 1 /\ rotate == -1
        else scale == 11 # 10 /\ rotate == 1).
Proof.
  intros Hd [Hf0 Hf1].
  destruct (getKenBurnsValues_formula frame duration index)
    as (scale & rotate & Hv & Heven & Hodd).
  exists scale, rotate. split; [exact Hv|].
  pose proof (Qdiv_nonneg frame duration Hd Hf0) as Hp0.
  pose proof (Qdiv_nonneg_le_1 frame duration Hd Hf1) as Hp1.
  assert (Hzero : frame == 0 -> frame / duration == 0).
  { intros E. rewrite E. field. lra. }
  set (p := frame / duration) in *.
  assert (Ediv : p / 10 == p * (1 # 10)) by (field; discriminate).
  destruct (Nat.eqb (index mod 2) 0) eqn:Epar.
  - apply Nat.eqb_eq in Epar. destruct (Heven Epar) as [Es Er].
    rewrite Es, Er, Ediv. split; [lra|]. split; [lra|].
    intros H. rewrite (Hzero H). split; ring.
  - apply Nat.eqb_neq in Epar. destruct (Hodd Epar) as [Es Er].
    rewrite Es, Er, Ediv. split; [lra|]. split; [lra|].
    intros H. rewrite (Hzero H). split; ring.
Qed.

Lemma ken_burns_bounds_witness :
  exists scale rotate,
    getKenBurnsValues 60 120 3 = Returns (scale, rotate)
    /\ 1 <= scale <= 11 # 10 /\ -1 <= rotate <= 1.
Proof.
  assert (Hd : 0 < 120) by reflexivity.
  assert (Hf : 0 <= 60 <= 120) by (split; discriminate).
  destruct (ken_burns_bounds 60 120 3 Hd Hf) as (s & r & Hv & Hs & Hr & _).
  exists s, r. tauto.
Defined.

End SceneBounds.

(** ** The resolved style as a whole *)

Section StyleFacts.

Import Remotion.

Variable interpolateColors : Q -> list Q -> list string -> outcome string.

Lemma filter_sorted_Permutation (prop : string) (keyframes : list AnimationKeyframe) :
  filter (defines prop) (sortKeyframes keyframes) ≡ₚ filter (defines prop) keyframes.
Proof. rewrite sortKeyframes_Permutation. reflexivity. Qed.

Lemma sortKeyframes_elem (kf : AnimationKeyframe) (keyframes : list AnimationKeyframe) :
  kf ∈ sortKeyframes keyframes <-> kf ∈ keyframes.
Proof. rewrite sortKeyframes_Permutation. reflexivity. Qed.

(** X4.  A property that exactly one keyframe defines resolves to that
    keyframe's value as it stands, at every frame and for every duration:
    nothing is interpolated, parsed or coerced, whatever the property. *)
Theorem single_keyframe_constant (prop : string) (keyframes : list AnimationKeyframe)
    (kf : AnimationKeyframe) (v : jsval) (duration frame : Q) :
  filter (defines prop) keyframes = [kf] ->
  style kf !! prop = Some v ->
  animateProperty interpolateColors prop (sortKeyframes keyframes) duration frame
  = Returns (Some v)
  /\ (forall st,
        useAnimatedStyle interpolateColors (Some keyframes) duration frame = Returns st ->
        st !! prop = Some v).
Proof.
  intros Hone Hv.
  assert (Hsorted : filter (defines prop) (sortKeyframes keyframes) = [kf]).
  { apply Permutation_singleton_r. rewrite filter_sorted_Permutation, Hone.
    reflexivity. }
  assert (Hprop : animateProperty interpolateColors prop (sortKeyframes keyframes)
                    duration frame = Returns (Some v)).
  { unfold animateProperty. rewrite Hsorted. unfold styleOf. rewrite Hv.
    reflexivity. }
  split; [exact Hprop|].
  intros st Hst. eapply useAnimatedStyle_lookup; eassumption.
Qed.

Lemma animateProperty_returns_defined (prop : string) (sorted : list AnimationKeyframe)
    (duration frame : Q) (r : option jsval) :
  animateProperty interpolateColors prop sorted duration frame = Returns r ->
  (is_Some r <-> exists kf, kf ∈ sorted /\ defines prop kf).
Proof.
  intros H.
  assert (Hfilter : (exists kf, kf ∈ sorted /\ defines prop kf)
                    <-> filter (defines prop) sorted <> []).
  { split.
    - intros (kf & Hin & Hd) Hnil.
      assert (Hk : kf ∈ filter (defines prop) sorted)
        by (apply list_elem_of_filter; tauto).
      rewrite Hnil in Hk. inversion Hk.
    - intros Hne. destruct (filter (defines prop) sorted) as [|kf rest] eqn:E;
        [contradiction|].
      exists kf. assert (Hk : kf ∈ filter (defines prop) sorted) by (rewrite E; left).
      apply list_elem_of_filter in Hk. tauto. }
  rewrite Hfilter. unfold animateProperty in H.
  destruct (filter (defines prop) sorted) as [|a [|b rest]].
  - injection H as <-. split; [intros [x Hx]; discriminate | intros Hne; contradiction].
  - injection H as <-. split; [discriminate | eauto].
  - split; [discriminate|]. intros _.
    destruct (String.eqb prop "opacity").
    { apply obind_Returns in H as (x & _ & H). injection H as <-. eauto. }
    destruct (String.eqb prop "color" || String.eqb prop "backgroundColor").
    { apply obind_Returns in H as (x & _ & H). injection H as <-. eauto. }
    destruct (String.eqb prop "transform").
    { apply obind_Returns in H as (x & _ & H). injection H as <-. eauto. }
    injection H as <-. eauto.
Qed.

Lemma animateProperties_each (props : list string) (sorted : list AnimationKeyframe)
    (duration frame : Q) (st0 st : gmap string jsval) (prop : string) :
  NoDup props ->
  animateProperties interpolateColors props sorted duration frame st0 = Returns st ->
  prop ∈ props ->
  exists r,
    animateProperty interpolateColors prop sorted duration frame = Returns r
    /\ st !! prop = match r with Some v => Some v | None => st0 !! prop end.
Proof.
  revert st0. induction props as [|p props IH]; intros st0 Hnd H Hin.
  - inversion Hin.
  - cbn [animateProperties] in H. apply obind_Returns in H as (r & Hr & H).
    apply NoDup_cons in Hnd as [Hp Hnd].
    apply elem_of_cons in Hin as [-> | Hin].
    + exists r. split; [exact Hr|].
      rewrite (animateProperties_other _ _ _ _ _ _ _ _ H Hp).
      destruct r; [apply lookup_insert_eq | reflexivity].
    + destruct (IH _ Hnd H Hin) as (r' & Hr' & Hlook).
      exists r'. split; [exact Hr'|]. rewrite Hlook.
      destruct r'; [reflexivity|]. destruct r; [|reflexivity].
      apply lookup_insert_ne. intros ->. contradiction.
Qed.

(** X5.  The resolved style has exactly the properties that some keyframe
    defines: a property no keyframe mentions is absent (not defaulted),
    and every property that is mentioned receives a value. *)
Theorem resolved_style_domain (keyframes : list AnimationKeyframe)
    (duration frame : Q) (st : gmap string jsval) (prop : string) :
  useAnimatedStyle interpolateColors (Some keyframes) duration frame = Returns st ->
  (is_Some (st !! prop) <-> exists kf, kf ∈ keyframes /\ defines prop kf).
Proof.
  intros Hst. destruct keyframes as [|kf0 keyframes].
  - injection Hst as <-. rewrite lookup_empty. split.
    + intros [x Hx]. discriminate.
    + intros (kf & Hin & _). inversion Hin.
  - cbn [useAnimatedStyle] in Hst.
    set (sorted := sortKeyframes (kf0 :: keyframes)) in *.
    assert (Hdef : (exists kf, kf ∈ kf0 :: keyframes /\ defines prop kf)
                   <-> exists kf, kf ∈ sorted /\ defines prop kf).
    { split; intros (kf & Hin & Hd); exists kf; (split; [|exact Hd]);
        apply sortKeyframes_elem; exact Hin. }
    rewrite Hdef.
    destruct (decide (prop ∈ elements (properties sorted))) as [Hin | Hnotin].
    + destruct (animateProperties_each _ _ _ _ _ _ prop (NoDup_elements _) Hst Hin)
        as (r & Hr & Hlook).
      rewrite Hlook. rewrite <- (animateProperty_returns_defined _ _ _ _ _ Hr).
      destruct r; [reflexivity|]. rewrite lookup_empty. reflexivity.
    + rewrite (animateProperties_other _ _ _ _ _ _ _ _ Hst Hnotin), lookup_empty.
      split; [intros [x Hx]; discriminate|].
      intros Hex. exfalso. apply Hnotin.
      apply elem_of_elements, properties_elem. exact Hex.
Qed.

Lemma animateProperties_throws (props : list string) (sorted : list AnimationKeyframe)
    (duration frame : Q) (st0 : gmap string jsval) (prop : string) (e : error) :
  prop ∈ props ->
  animateProperty interpolateColors prop sorted duration frame = Throws e ->
  exists e', animateProperties interpolateColors props sorted duration frame st0
             = Throws e'.
Proof.
  revert st0. induction props as [|p props IH]; intros st0 Hin He; [inversion Hin|].
  cbn [animateProperties].
  destruct (animateProperty interpolateColors p sorted duration frame) as [r|e0] eqn:Hp.
  - cbn [obind]. apply elem_of_cons in Hin as [-> | Hin]; [congruence|].
    apply IH; assumption.
  - cbn [obind]. eauto.
Qed.

Lemma animateProperty_throws_defined (prop : string) (sorted : list AnimationKeyframe)
    (duration frame : Q) (e : error) :
  animateProperty interpolateColors prop sorted duration frame = Throws e ->
  exists kf, kf ∈ sorted /\ defines prop kf.
Proof.
  unfold animateProperty.
  destruct (filter (defines prop) sorted) as [|kf rest] eqn:E; [discriminate|].
  intros _. exists kf.
  assert (H : kf ∈ filter (defines prop) sorted) by (rewrite E; left).
  apply list_elem_of_filter in H. tauto.
Qed.

Lemma useAnimatedStyle_throws (keyframes : list AnimationKeyframe)
    (duration frame : Q) (prop : string) (e : error) :
  animateProperty interpolateColors prop (sortKeyframes keyframes) duration frame
  = Throws e ->
  exists e', useAnimatedStyle interpolateColors (Some keyframes) duration frame
             = Throws e'.
Proof.
  intros He. destruct keyframes as [|kf0 keyframes]; [discriminate He|].
  cbn [useAnimatedStyle].
  eapply animateProperties_throws; [|exact He].
  apply elem_of_elements, properties_elem.
  eapply animateProperty_throws_defined. exact He.
Qed.

Lemma renderElements_throws (elements : list AnimationElement)
    (element : AnimationElement) (sceneDuration frame : Q) (e : error) :
  element ∈ elements ->
  AnimatedElement interpolateColors element sceneDuration frame = Throws e ->
  exists e', renderElements interpolateColors elements sceneDuration frame = Throws e'.
Proof.
  induction elements as [|el els IH]; intros Hin He; [inversion Hin|].
  cbn [renderElements].
  destruct (AnimatedElement interpolateColors el sceneDuration frame) as [r|e0] eqn:Hel.
  - cbn [obind]. apply elem_of_cons in Hin as [-> | Hin]; [congruence|].
    destruct (IH Hin He) as (e' & ->). cbn [obind]. eauto.
  - cbn [obind]. eauto.
Qed.

Lemma SceneComponent_throws (scene : Scene) (isFirst isLast : bool)
    (sceneDuration transitionDuration : Q) (index : nat) (durationInFrames frame : Q)
    (element : AnimationElement) (e : error) :
  element ∈ animationElements scene ->
  AnimatedElement interpolateColors element sceneDuration frame = Throws e ->
  exists e',
    SceneComponent interpolateColors scene isFirst isLast sceneDuration
      transitionDuration index durationInFrames frame = Throws e'.
Proof.
  intros Hin He. unfold SceneComponent.
  destruct (sceneOpacity _ _ _ _ _); cbn [obind]; [|eauto].
  destruct (getKenBurnsEffect _ _ _); cbn [obind]; [|eauto].
  destruct (useAnimatedStyle _ _ _ _); cbn [obind]; [|eauto].
  destruct (renderElements_throws _ _ _ _ _ Hin He) as (e' & ->).
  cbn [obind]. eauto.
Qed.

Lemma renderScenes_throws (rest : list Scene) (index count : nat)
    (videoBackground : option string) (frame : Q)
    (j : nat) (scene : Scene) (element : AnimationElement) (e : error) :
  rest !! j = Some scene ->
  sequenceMounted (inject_Z (Z.of_nat (index + j)) * DURATION_PER_SCENE)
    (DURATION_PER_SCENE + TRANSITION_DURATION) frame = true ->
  element ∈ animationElements scene ->
  AnimatedElement interpolateColors element DURATION_PER_SCENE
    (sequenceFrame (inject_Z (Z.of_nat (index + j)) * DURATION_PER_SCENE) frame)
  = Throws e ->
  exists e',
    renderScenes interpolateColors rest index count videoBackground frame
    = Throws e'.
Proof.
  revert index j. induction rest as [|sc rest IH]; intros index j Hj Hm Hin He;
    [discriminate|].
  cbn [renderScenes]. destruct j as [|j].
  - injection Hj as ->. rewrite Nat.add_0_r in Hm, He. rewrite Hm.
    destruct (SceneComponent_throws
                {| animationElements := animationElements scene;
                   cameraAnimation := cameraAnimation scene;
                   imageUrl := imageUrl scene;
                   backgroundColor :=
                     if negb (nonEmpty (imageUrl scene)) && nonEmpty videoBackground
                     then videoBackground else backgroundColor scene |}
                (Nat.eqb index 0) (Nat.eqb index (count - 1))
                DURATION_PER_SCENE TRANSITION_DURATION index
                (DURATION_PER_SCENE + TRANSITION_DURATION)
                (sequenceFrame (inject_Z (Z.of_nat index) * DURATION_PER_SCENE) frame)
                element e Hin He) as (e' & ->).
    cbn [obind]. eauto.
  - cbn [lookup list_lookup] in Hj.
    replace (index + S j)%nat with (S index + j)%nat in Hm, He by lia.
    destruct (IH (S index) j Hj Hm Hin He) as (e' & ->).
    match goal with
    | |- context [obind ?m _] => destruct m; cbn [obind]; eauto
    end.
Qed.

(** X6.  Failures are not contained.  When the resolution of one property
    of an element fails, the element's whole style fails, the element
    fails to render, and with it the composition, at every frame at which
    the element's scene is mounted. *)
Theorem failure_propagates (videoResult : VideoResult) (sceneList : list Scene)
    (k : nat) (scene : Scene) (element : AnimationElement) (prop : string)
    (durationInFrames frame : Q) (e : error) :
  let from := inject_Z (Z.of_nat k) * DURATION_PER_SCENE in
  scenes videoResult = Some sceneList ->
  sceneList !! k = Some scene ->
  element ∈ animationElements scene ->
  sequenceMounted from (DURATION_PER_SCENE + TRANSITION_DURATION) frame = true ->
  animateProperty interpolateColors prop (sortKeyframes (keyframes element))
    DURATION_PER_SCENE (sequenceFrame from frame) = Throws e ->
  (exists e1,
     useAnimatedStyle interpolateColors (Some (keyframes element)) DURATION_PER_SCENE
       (sequenceFrame from frame) = Throws e1)
  /\ (exists e2,
        AnimatedElement interpolateColors element DURATION_PER_SCENE
          (sequenceFrame from frame) = Throws e2)
  /\ (exists e3,
        Animation interpolateColors videoResult durationInFrames frame = Throws e3).
Proof.
  intros from Hscenes Hk Hin Hm He.
  destruct (useAnimatedStyle_throws _ _ _ _ _ He) as (e1 & H1).
  assert (H2 : AnimatedElement interpolateColors element DURATION_PER_SCENE
                 (sequenceFrame from frame) = Throws e1).
  { unfold AnimatedElement. rewrite H1. reflexivity. }
  split; [eauto|]. split; [eauto|].
  unfold Animation. rewrite Hscenes.
  destruct sceneList as [|s0 rest]; [discriminate|].
  destruct (renderScenes_throws (s0 :: rest) 0 (List.length (s0 :: rest))
              (videoBackgroundColor videoResult) frame
              k scene element e1 Hk Hm Hin H2) as (e3 & ->).
  cbn [obind]. eauto.
Qed.

End StyleFacts.

Lemma single_keyframe_constant_witness :
  animateProperty noColors "opacity" (sortKeyframes singleOpacityExample) 90 45
  = Returns (Some (JNum (3 # 10))).
Proof.
  exact (proj1 (single_keyframe_constant noColors "opacity" singleOpacityExample
                  {| kf_at := 1 # 2; style := {[ "opacity"%string := JNum (3 # 10) ]} |}
                  (JNum (3 # 10)) 90 45 eq_refl eq_refl)).
Defined.

Lemma resolved_style_domain_witness :
  exists st,
    useAnimatedStyle noColors (Some singleOpacityExample) 90 45 = Returns st
    /\ (is_Some (st !! "width"%string)
        <-> exists kf, kf ∈ singleOpacityExample /\ defines "width" kf).
Proof.
  eexists. split; [vm_compute; reflexivity|].
  apply (resolved_style_domain noColors singleOpacityExample 90 45).
  vm_compute. reflexivity.
Defined.

Lemma failure_propagates_witness :
  exists e3, Animation noColors badOpacityVideo 120 45 = Throws e3.
Proof.
  assert (Hin : badOpacityElement ∈ animationElements badOpacityScene) by left.
  assert (Hm : Remotion.sequenceMounted (inject_Z (Z.of_nat 0) * DURATION_PER_SCENE)
                 (DURATION_PER_SCENE + TRANSITION_DURATION) 45 = true)
    by reflexivity.
  assert (He : animateProperty noColors "opacity"
                 (sortKeyframes (keyframes badOpacityElement)) DURATION_PER_SCENE
                 (Remotion.sequenceFrame (inject_Z (Z.of_nat 0) * DURATION_PER_SCENE) 45)
               = Throws InterpolateNotFinite)
    by (vm_compute; reflexivity).
  exact (proj2 (proj2 (failure_propagates noColors badOpacityVideo [badOpacityScene]
                         0 badOpacityScene badOpacityElement "opacity" 120 45
                         InterpolateNotFinite eq_refl eq_refl Hin Hm He))).
Defined.

(** ** Independence of the storage order *)

Section StorageOrder.

Variable interpolateColors : Q -> list Q -> list string -> outcome string.

Lemma Qred_neq (a b : Q) : Qred a <> Qred b -> ~ a == b.
Proof. intros Hne Heq. apply Hne. apply Qred_complete. exact Heq. Qed.

Lemma sorted_distinct_strict (l : list AnimationKeyframe) :
  StronglySorted atLe l -> distinctAts l -> StronglySorted atLt l.
Proof.
  unfold distinctAts. induction 1 as [|a l Hs IH Hall]; intros Hnd; [constructor|].
  cbn [map] in Hnd. apply NoDup_cons in Hnd as [Ha Hnd].
  constructor; [apply IH; exact Hnd|].
  apply Forall_forall. intros b Hb. rewrite Forall_forall in Hall.
  specialize (Hall b Hb). unfold atLe in Hall. unfold atLt.
  assert (Hne : ~ kf_at a == kf_at b).
  { apply Qred_neq. intros Heq. apply Ha. rewrite Heq.
    apply list_elem_of_In.
    apply (in_map (fun kf => Qred (kf_at kf)) l b).
    apply list_elem_of_In. exact Hb. }
  apply Qnot_le_lt. intros Hle. apply Hne. lra.
Qed.

Lemma distinctAts_Permutation (l1 l2 : list AnimationKeyframe) :
  l1 ≡ₚ l2 -> distinctAts l1 -> distinctAts l2.
Proof.
  unfold distinctAts. intros Hp Hnd.
  assert (Hp' : map (fun kf => Qred (kf_at kf)) l1
                ≡ₚ map (fun kf => Qred (kf_at kf)) l2)
    by (apply Permutation_map; exact Hp).
  rewrite <- Hp'. exact Hnd.
Qed.

Lemma sortKeyframes_unique (l1 l2 : list AnimationKeyframe) :
  l1 ≡ₚ l2 -> distinctAts l1 -> sortKeyframes l1 = sortKeyframes l2.
Proof.
  intros Hp Hd.
  apply (StronglySorted_unique_strong atLt).
  - intros x1 x2 _ _ H12 H21. unfold atLt in *. lra.
  - apply sorted_distinct_strict; [apply sortKeyframes_sorted|].
    eapply distinctAts_Permutation; [|exact Hd].
    symmetry. apply sortKeyframes_Permutation.
  - apply sorted_distinct_strict; [apply sortKeyframes_sorted|].
    eapply distinctAts_Permutation; [|exact Hd].
    rewrite Hp. symmetry. apply sortKeyframes_Permutation.
  - rewrite !sortKeyframes_Permutation. exact Hp.
Qed.

(** X7.  Keyframes need not be stored in order: when no two keyframes
    share a value of [at], any rearrangement of the list resolves to the
    same style, or fails with the same error, at every frame. *)
Theorem storage_order_irrelevant (keyframes1 keyframes2 : list AnimationKeyframe)
    (duration frame : Q) :
  keyframes1 ≡ₚ keyframes2 -> distinctAts keyframes1 ->
  useAnimatedStyle interpolateColors (Some keyframes1) duration frame
  = useAnimatedStyle interpolateColors (Some keyframes2) duration frame.
Proof.
  intros Hp Hd.
  pose proof (sortKeyframes_unique _ _ Hp Hd) as Hsort.
  destruct keyframes1 as [|a l1], keyframes2 as [|b l2].
  - reflexivity.
  - apply Permutation_nil_l in Hp. discriminate.
  - symmetry in Hp. apply Permutation_nil_l in Hp. discriminate.
  - cbn [useAnimatedStyle]. rewrite Hsort. reflexivity.
Qed.

End StorageOrder.

Lemma storage_order_irrelevant_witness :
  useAnimatedStyle noColors (Some clampingExample) 90 45
  = useAnimatedStyle noColors (Some (rev clampingExample)) 90 45.
Proof.
  apply storage_order_irrelevant.
  - apply Permutation_rev.
  - unfold distinctAts. vm_compute.
    repeat (constructor; [rewrite ?list_elem_of_In; cbn; intuition discriminate|]).
    constructor.
Defined.

(** ** Opacity stays within its keyframes; keyframes are honoured *)

Section KnotFacts.

Import Remotion.

Variable interpolateColors : Q -> list Q -> list string -> outcome string.

Lemma linearBetween_bounds (x0 y0 x1 y1 t lo hi : Q) :
  x0 < x1 -> x0 <= t <= x1 -> lo <= y0 <= hi -> lo <= y1 <= hi ->
  lo <= linearBetween x0 y0 x1 y1 t <= hi.
Proof.
  intros Hx [Ht0 Ht1] [Hy0 Hy0'] [Hy1 Hy1']. unfold linearBetween.
  set (p := (t - x0) / (x1 - x0)).
  assert (Hp0 : 0 <= p) by (apply Qdiv_nonneg; lra).
  assert (Hp1 : p <= 1) by (apply Qdiv_nonneg_le_1; lra).
  assert (E : y0 + (t - x0) * (y1 - y0) / (x1 - x0) == y0 + p * (y1 - y0)).
  { unfold p. field. lra. }
  rewrite E.
  assert (Ha : 0 <= p * (y1 - lo)) by (apply Qmult_le_0_compat; lra).
  assert (Hb : 0 <= (1 - p) * (y0 - lo)) by (apply Qmult_le_0_compat; lra).
  assert (Hc : 0 <= p * (hi - y1)) by (apply Qmult_le_0_compat; lra).
  assert (Hd : 0 <= (1 - p) * (hi - y0)) by (apply Qmult_le_0_compat; lra).
  split.
  - assert (E1 : y0 + p * (y1 - y0) - lo == p * (y1 - lo) + (1 - p) * (y0 - lo))
      by ring.
    lra.
  - assert (E1 : hi - (y0 + p * (y1 - y0)) == p * (hi - y1) + (1 - p) * (hi - y0))
      by ring.
    lra.
Qed.

Lemma interpolateFunction_clamped_bounds (t x0 x1 y0 y1 lo hi : Q) :
  x0 < x1 -> lo <= y0 <= hi -> lo <= y1 <= hi ->
  lo <= interpolateFunction t x0 x1 y0 y1 clampBoth <= hi.
Proof.
  intros Hx Hy0 Hy1.
  destruct (Qlt_le_dec t x0) as [Hlt | Hge].
  - rewrite interpolateFunction_clamped_left; [exact Hy0 | exact Hx | reflexivity | lra].
  - destruct (Qlt_le_dec x1 t) as [Hlt' | Hge'].
    + rewrite interpolateFunction_clamped_right;
        [exact Hy1 | exact Hx | reflexivity | lra].
    + rewrite interpolateFunction_inside; [| exact Hx | right; lra | right; lra].
      apply linearBetween_bounds; try assumption. split; assumption.
Qed.

Lemma segmentValue_clamped_bounds (t lo hi : Q) (ins outs : list Q) :
  List.length ins = List.length outs -> (2 <= List.length ins)%nat ->
  strictlyIncreasing ins = true ->
  Forall (fun y => lo <= y <= hi) outs ->
  lo <= segmentValue t ins outs clampBoth <= hi.
Proof.
  revert outs. induction ins as [|x0 ins IH]; intros outs Hlen Hge Hinc Hall;
    [cbn in Hge; lia|].
  destruct ins as [|x1 ins]; [cbn in Hge; lia|].
  destruct outs as [|y0 [|y1 outs]]; try discriminate.
  apply strictlyIncreasing_cons in Hinc as [Hx Hinc].
  apply Forall_cons in Hall as [Hy0 Hall].
  pose proof Hall as Hall'. apply Forall_cons in Hall' as [Hy1 _].
  destruct ins as [|x2 ins].
  - cbn [segmentValue]. apply interpolateFunction_clamped_bounds; assumption.
  - rewrite segmentValue_step. destruct (Qle_bool t x1).
    + apply interpolateFunction_clamped_bounds; assumption.
    + apply IH; [cbn in *; lia | cbn; lia | exact Hinc | exact Hall].
Qed.

(** X8.  The resolved opacity never leaves the range of the keyframes'
    opacities: when every opacity keyframe lies between [lo] and [hi], so
    does the resolved opacity at every frame; opacities between 0 and 1
    give an opacity between 0 and 1. *)
Theorem opacity_within_keyframes (keyframes : list AnimationKeyframe)
    (duration frame lo hi : Q) :
  let kfs := filter (defines "opacity") (sortKeyframes keyframes) in
  (2 <= List.length kfs)%nat ->
  strictlyIncreasing (map (position duration) kfs) = true ->
  Forall (fun kf => exists y, opacityOf kf = Some y /\ lo <= y <= hi) kfs ->
  exists v,
    animateProperty interpolateColors "opacity" (sortKeyframes keyframes)
      duration frame = Returns (Some (JNum v))
    /\ lo <= v <= hi.
Proof.
  intros kfs Hlen Hinc Hall.
  assert (Hnum : Forall (fun kf => is_Some (opacityOf kf)) kfs).
  { eapply Forall_impl; [exact Hall|]. cbn beta. intros kf (y & Hy & _). eauto. }
  destruct (all_Some opacityOf kfs Hnum) as (outs & Houts).
  assert (Hlo : List.length outs = List.length kfs).
  { rewrite <- (length_map Some outs), <- Houts, length_map. reflexivity. }
  assert (Hbounds : Forall (fun y => lo <= y <= hi) outs).
  { apply Forall_forall. intros y Hy.
    apply list_elem_of_lookup in Hy as [i Hi].
    destruct (lookup_lt_is_Some_2 kfs i) as [kf Hkf].
    { rewrite <- Hlo. eapply lookup_lt_Some. exact Hi. }
    rewrite Forall_forall in Hall.
    destruct (Hall kf (list_elem_of_lookup_2 _ _ _ Hkf)) as (y' & Hy' & Hb).
    assert (E : map opacityOf kfs !! i = Some (Some y'))
      by (rewrite map_lookup, Hkf; cbn; congruence).
    rewrite Houts, map_lookup, Hi in E. injection E as ->. exact Hb. }
  exists (segmentValue frame (map (position duration) kfs) outs clampBoth).
  split.
  - rewrite animateProperty_opacity by exact Hlen. fold kfs.
    rewrite (interpolate_returns frame _ _ outs); try assumption.
    + reflexivity.
    + rewrite !length_map. reflexivity.
    + rewrite length_map. exact Hlen.
    + apply allFinite_Some. exact Houts.
  - apply segmentValue_clamped_bounds; try assumption.
    + rewrite length_map. congruence.
    + rewrite length_map. exact Hlen.
Qed.



End KnotFacts.

Lemma opacity_within_keyframes_witness :
  exists v,
    animateProperty noColors "opacity" (sortKeyframes clampingExample) 90 200
    = Returns (Some (JNum v))
    /\ 0 <= v <= 1.
Proof.
  apply (opacity_within_keyframes noColors clampingExample 90 200 0 1).
  - vm_compute. lia.
  - vm_compute. reflexivity.
  - vm_compute. repeat constructor.
    + exists 0. split; [reflexivity | split; discriminate].
    + exists 1. split; [reflexivity | split; discriminate].
Defined.


(** ** The element's style and the layers of the composition *)

Section Layers.

Import Remotion.

Variable interpolateColors : Q -> list Q -> list string -> outcome string.

Lemma mergeStyles_other (base animatedStyle : gmap string jsval) (k : string) :
  k <> "transform"%string ->
  mergeStyles base animatedStyle !! k
  = match animatedStyle !! k with Some v => Some v | None => base !! k end.
Proof.
  intros Hk.
  assert (Hunion : (animatedStyle ∪ base) !! k
                   = match animatedStyle !! k with
                     | Some v => Some v
                     | None => base !! k
                     end).
  { rewrite lookup_union. destruct (animatedStyle !! k), (base !! k); reflexivity. }
  unfold mergeStyles.
  destruct (base !! "transform"%string) as [b|];
    destruct (animatedStyle !! "transform"%string) as [a|]; try exact Hunion.
  destruct (truthy b && truthy a); [|exact Hunion].
  rewrite lookup_insert_ne by congruence. exact Hunion.
Qed.

Lemma mergeStyles_transform_absent (base animatedStyle : gmap string jsval) :
  animatedStyle !! "transform"%string = None ->
  mergeStyles base animatedStyle !! "transform"%string = base !! "transform"%string.
Proof.
  intros Ha. unfold mergeStyles. rewrite Ha.
  assert (Hunion : (animatedStyle ∪ base) !! "transform"%string
                   = base !! "transform"%string).
  { rewrite lookup_union, Ha. destruct (base !! "transform"%string); reflexivity. }
  destruct (base !! "transform"%string); exact Hunion.
Qed.

Lemma mergeStyles_transform_falsy (base animatedStyle : gmap string jsval) (a : jsval) :
  animatedStyle !! "transform"%string = Some a -> truthy a = false ->
  mergeStyles base animatedStyle !! "transform"%string = Some a.
Proof.
  intros Ha Hf. unfold mergeStyles. rewrite Ha.
  destruct (base !! "transform"%string) as [b|];
    [rewrite Hf, andb_false_r|]; apply lookup_union_Some_l; exact Ha.
Qed.

(** X10.  The style of a rendered element is the base style overlaid with
    the animated style: for every key other than [transform] the animated
    value wins and the base value shows through where nothing is
    animated; a truthy animated transform is appended to the centring
    transform, a falsy one replaces it, and without an animated transform
    the centring transform stays. *)
Theorem element_style_merge (element : AnimationElement) (sceneDuration frame : Q)
    (r : RenderedElement) :
  AnimatedElement interpolateColors element sceneDuration frame = Returns r ->
  exists st,
    useAnimatedStyle interpolateColors (Some (keyframes element)) sceneDuration frame
    = Returns st
    /\ (forall k, k <> "transform"%string ->
                  divStyle r !! k
                  = match st !! k with Some v => Some v | None => baseStyle element !! k end)
    /\ (forall a, st !! "transform"%string = Some a -> truthy a = true ->
                  divStyle r !! "transform"%string
                  = Some (JStr ("translate(-50%, -50%) " +:+ jsToString a)))
    /\ (forall a, st !! "transform"%string = Some a -> truthy a = false ->
                  divStyle r !! "transform"%string = Some a)
    /\ (st !! "transform"%string = None ->
        divStyle r !! "transform"%string = Some (JStr "translate(-50%, -50%)")).
Proof.
  unfold AnimatedElement. intros H.
  apply obind_Returns in H as (st & Hst & H). injection H as <-.
  exists st. split; [exact Hst|]. cbn [divStyle].
  split; [|split; [|split]].
  - intros k Hk. apply mergeStyles_other. exact Hk.
  - intros a Ha Ht.
    rewrite (mergeStyles_joined_transform _ _ (JStr baseTransform) a);
      [reflexivity | apply baseStyle_transform | exact Ha | reflexivity | exact Ht].
  - intros a Ha Hf. apply mergeStyles_transform_falsy; assumption.
  - intros Ha. rewrite mergeStyles_transform_absent by exact Ha.
    apply baseStyle_transform.
Qed.

Lemma renderElements_Forall2 (elements : list AnimationElement)
    (sceneDuration frame : Q) (rendered : list RenderedElement) :
  renderElements interpolateColors elements sceneDuration frame = Returns rendered ->
  Forall2
    (fun el r => AnimatedElement interpolateColors el sceneDuration frame = Returns r)
    elements rendered.
Proof.
  revert rendered. induction elements as [|el els IH]; intros rendered H.
  - injection H as <-. constructor.
  - cbn [renderElements] in H.
    apply obind_Returns in H as (r & Hr & H).
    apply obind_Returns in H as (rs & Hrs & H). injection H as <-.
    constructor; [exact Hr | apply IH; exact Hrs].
Qed.

Lemma SceneComponent_elements (scene : Scene) (isFirst isLast : bool)
    (sceneDuration transitionDuration : Q) (index : nat)
    (durationInFrames frame : Q) (r : RenderedScene) :
  SceneComponent interpolateColors scene isFirst isLast sceneDuration
    transitionDuration index durationInFrames frame = Returns r ->
  Forall2
    (fun el re => AnimatedElement interpolateColors el sceneDuration frame = Returns re)
    (animationElements scene) (sceneElements r).
Proof.
  unfold SceneComponent. intros H.
  apply obind_Returns in H as (opacity & _ & H).
  apply obind_Returns in H as (t & _ & H).
  apply obind_Returns in H as (cam & _ & H).
  apply obind_Returns in H as (els & Hels & H).
  injection H as <-. cbn [sceneElements].
  apply renderElements_Forall2. exact Hels.
Qed.

Lemma mountedIndices_cons (index n : nat) (frame : Q) :
  mountedIndices index (S n) frame
  = (if sceneMountedAt index frame then [index] else [])
    ++ mountedIndices (S index) n frame.
Proof.
  unfold mountedIndices. cbn [seq List.filter].
  destruct (sceneMountedAt index frame); reflexivity.
Qed.

(** The layers are the mounted scenes, in scene order. *)
Lemma renderScenes_mounted (rest : list Scene) (index count : nat)
    (videoBackground : option string) (frame : Q)
    (layers : list RenderedScene) :
  renderScenes interpolateColors rest index count videoBackground frame
  = Returns layers ->
  Forall2
    (fun k layer =>
       (index <= k)%nat
       /\ exists scene,
            rest !! (k - index)%nat = Some scene
            /\ SceneComponent interpolateColors
                 (withVideoBackground videoBackground scene) (Nat.eqb k 0)
                 (Nat.eqb k (count - 1)) DURATION_PER_SCENE TRANSITION_DURATION k
                 (DURATION_PER_SCENE + TRANSITION_DURATION)
                 (sequenceFrame (inject_Z (Z.of_nat k) * DURATION_PER_SCENE) frame)
               = Returns layer)
    (mountedIndices index (List.length rest) frame) layers.
Proof.
  revert index layers. induction rest as [|scene rest IH]; intros index layers H.
  - injection H as <-. constructor.
  - cbn [renderScenes] in H.
    apply obind_Returns in H as (layer & Hlayer & H).
    apply obind_Returns in H as (others & Hothers & H).
    injection H as <-.
    cbn [List.length]. rewrite mountedIndices_cons.
    apply Forall2_app.
    + unfold sceneMountedAt. destruct (sequenceMounted _ _ frame).
      * apply obind_Returns in Hlayer as (r & Hr & Hlayer).
        injection Hlayer as <-. constructor; [|constructor].
        split; [lia|]. exists scene. rewrite Nat.sub_diag. split; [reflexivity|].
        exact Hr.
      * injection Hlayer as <-. constructor.
    + apply IH in Hothers. eapply Forall2_impl; [exact Hothers|].
      cbn beta. intros k l (Hk & sc & Hsc & Hr). split; [lia|].
      exists sc. split; [|exact Hr].
      replace (k - index)%nat with (S (k - S index)) by lia. exact Hsc.
Qed.

(** X11.  At every frame the composition consists of exactly the scenes
    whose window contains the frame, drawn in scene order (a later scene
    on top); each layer has the opacity of the cross-fade schedule at the
    scene's own frame and one rendered element per element of its scene,
    in list order. *)
Theorem composition_layers (videoResult : VideoResult) (sceneList : list Scene)
    (durationInFrames frame : Q) (layers : list RenderedScene) :
  scenes videoResult = Some sceneList ->
  Animation interpolateColors videoResult durationInFrames frame
  = Returns (Composition layers) ->
  Forall2
    (fun k layer =>
       exists scene,
         sceneList !! k = Some scene
         /\ sceneOpacityAt (List.length sceneList) k frame
            = Returns (sceneOpacityValue layer)
         /\ Forall2
              (fun el re =>
                 AnimatedElement interpolateColors el DURATION_PER_SCENE
                   (sequenceFrame (inject_Z (Z.of_nat k) * DURATION_PER_SCENE) frame)
                 = Returns re)
              (animationElements scene) (sceneElements layer))
    (mountedIndices 0 (List.length sceneList) frame) layers.
Proof.
  intros Hscenes H. unfold Animation in H. rewrite Hscenes in H.
  destruct sceneList as [|s0 rest]; [discriminate|].
  apply obind_Returns in H as (ls & Hls & H). injection H as <-.
  apply renderScenes_mounted in Hls.
  eapply Forall2_impl; [exact Hls|]. cbn beta.
  intros k layer (_ & scene & Hscene & Hr).
  rewrite Nat.sub_0_r in Hscene. exists scene. split; [exact Hscene|].
  split.
  - unfold sceneOpacityAt. apply SceneComponent_parts in Hr. tauto.
  - apply SceneComponent_elements in Hr. exact Hr.
Qed.

End Layers.

Lemma element_style_merge_witness :
  exists r st,
    AnimatedElement noColors titleElement 90 45 = Returns r
    /\ useAnimatedStyle noColors (Some (keyframes titleElement)) 90 45 = Returns st
    /\ divStyle r !! "transform"%string = Some (JStr "translate(-50%, -50%)").
Proof.
  assert (H : AnimatedElement noColors titleElement 90 45
              = Returns {| divStyle :=
                             mergeStyles (baseStyle titleElement)
                               (<["opacity"%string := JNum (3 # 10)]>
                                  {[ "filter"%string := JStr "blur(0px)" ]});
                           divText := Some "Hello"%string |})
    by (vm_compute; reflexivity).
  destruct (element_style_merge noColors titleElement 90 45 _ H)
    as (st & Hst & _ & _ & _ & Habsent).
  eexists _, st. split; [exact H|]. split; [exact Hst|].
  apply Habsent.
  assert (E : useAnimatedStyle noColors (Some (keyframes titleElement)) 90 45
              = Returns (<["opacity"%string := JNum (3 # 10)]>
                           {[ "filter"%string := JStr "blur(0px)" ]}))
    by (vm_compute; reflexivity).
  rewrite E in Hst. injection Hst as <-. reflexivity.
Defined.

Lemma composition_layers_witness :
  exists l0 l1,
    Animation noColors threeScenes 300 100 = Returns (Composition [l0; l1])
    /\ mountedIndices 0 3 100 = [0%nat; 1%nat].
Proof.
  assert (H : exists ls, Animation noColors threeScenes 300 100
                         = Returns (Composition ls)
                         /\ List.length ls = 2%nat).
  { eexists. split; vm_compute; reflexivity. }
  destruct H as (ls & H & Hlen).
  pose proof (composition_layers noColors threeScenes _ 300 100 ls eq_refl H) as HF.
  destruct ls as [|l0 [|l1 [|l2 ls]]]; try discriminate Hlen.
  exists l0, l1. split; [exact H | reflexivity].
Defined.

(** ** The windows of the scenes cover the composition *)

Section Coverage.

Import Remotion.

Variable interpolateColors : Q -> list Q -> list string -> outcome string.

Lemma sceneMountedAt_spec (k : nat) (frame : Q) :
  sceneMountedAt k frame = true
  <-> inject_Z (Z.of_nat k) * 90 <= frame <= inject_Z (Z.of_nat k) * 90 + 119.
Proof.
  unfold sceneMountedAt, sequenceMounted, DURATION_PER_SCENE, TRANSITION_DURATION.
  rewrite andb_true_iff, !Qle_bool_iff. split; intros [H1 H2]; split; lra.
Qed.

Lemma scaled_index_le (a b : Z) :
  inject_Z a * 90 <= inject_Z b * 90 + 119 -> (a <= b + 1)%Z.
Proof.
  intros H.
  assert (H' : inject_Z (a * 90) <= inject_Z (b * 90 + 119)).
  { rewrite inject_Z_plus, !inject_Z_mult. exact H. }
  rewrite <- Zle_Qle in H'. lia.
Qed.

Lemma mounted_adjacent (k k' : nat) (frame : Q) :
  sceneMountedAt k frame = true -> sceneMountedAt k' frame = true ->
  (k' <= k + 1)%nat.
Proof.
  rewrite !sceneMountedAt_spec. intros [H1 H2] [H1' H2'].
  assert (H : (Z.of_nat k' <= Z.of_nat k + 1)%Z) by (apply scaled_index_le; lra).
  lia.
Qed.

Lemma filter_none (P : nat -> bool) (l : list nat) :
  (forall k, In k l -> P k = false) -> List.filter P l = [].
Proof.
  induction l as [|a l IH]; intros H; [reflexivity|].
  cbn [List.filter]. rewrite (H a) by (left; reflexivity).
  apply IH. intros k Hk. apply H. right. exact Hk.
Qed.

Lemma filter_seq_at_most_two (P : nat -> bool) (i n : nat) :
  (forall k k', P k = true -> P k' = true -> (k' <= k + 1)%nat) ->
  (List.length (List.filter P (seq i n)) <= 2)%nat.
Proof.
  intros Hadj. revert i. induction n as [|n IH]; intros i; [cbn; lia|].
  cbn [seq List.filter]. destruct (P i) eqn:Ei; [|apply IH].
  cbn [List.length]. destruct n as [|n]; [cbn; lia|].
  cbn [seq List.filter]. destruct (P (S i)); cbn [List.length].
  - rewrite filter_none; [cbn; lia|].
    intros k Hk. apply in_seq in Hk.
    destruct (P k) eqn:Ek; [|reflexivity].
    specialize (Hadj i k Ei Ek). lia.
  - rewrite filter_none; [cbn; lia|].
    intros k Hk. apply in_seq in Hk.
    destruct (P k) eqn:Ek; [|reflexivity].
    specialize (Hadj i k Ei Ek). lia.
Qed.

Lemma filter_length_pos (P : nat -> bool) (l : list nat) (k : nat) :
  In k l -> P k = true -> (1 <= List.length (List.filter P l))%nat.
Proof.
  intros Hin Hk.
  assert (H : In k (List.filter P l)) by (apply filter_In; tauto).
  destruct (List.filter P l); [destruct H | cbn; lia].
Qed.

(** Inside the composition some scene is mounted. *)
Lemma some_scene_mounted (n : nat) (frame : Q) :
  (1 <= n)%nat ->
  0 <= frame <= inject_Z (Z.of_nat n) * 90 + 30 - 1 ->
  exists k, (k < n)%nat /\ sceneMountedAt k frame = true.
Proof.
  intros Hn [Hf0 Hf1].
  set (j := Qfloor (frame / 90)).
  assert (Hdiv : frame == (frame / 90) * 90) by (field; discriminate).
  pose proof (Qfloor_le (frame / 90)) as Hfl. fold j in Hfl.
  pose proof (Qlt_floor (frame / 90)) as Hfu. fold j in Hfu.
  remember (frame / 90) as p eqn:Ep. clear Ep.
  assert (Hj0 : inject_Z j * 90 <= frame).
  { assert (H : inject_Z j * 90 <= p * 90)
      by (apply Qmult_le_compat_r; [exact Hfl | discriminate]).
    lra. }
  assert (Hj1 : frame < inject_Z (j + 1) * 90).
  { assert (H : p * 90 < inject_Z (j + 1) * 90)
      by (apply Qmult_lt_compat_r; [reflexivity | exact Hfu]).
    lra. }
  assert (Hjpos : (0 <= j)%Z).
  { assert (H : inject_Z 0 * 90 <= inject_Z (j + 1) * 90 + 119).
    { rewrite inject_Z_plus in *. change (inject_Z 0) with 0.
      change (inject_Z 1) with 1 in *. lra. }
    assert (Hlt : 0 < inject_Z (j + 1) * 90) by lra.
    assert (Hlt' : inject_Z 0 < inject_Z (j + 1)).
    { change (inject_Z 0) with 0. apply Qnot_le_lt. intros Hle.
      assert (inject_Z (j + 1) * 90 <= 0 * 90)
        by (apply Qmult_le_compat_r; [exact Hle | discriminate]).
      lra. }
    rewrite <- Zlt_Qlt in Hlt'. lia. }
  rewrite inject_Z_plus in Hj1. change (inject_Z 1) with 1 in Hj1.
  destruct (Z_lt_le_dec j (Z.of_nat n)) as [Hlt | Hge].
  - exists (Z.to_nat j). split; [lia|].
    apply sceneMountedAt_spec. rewrite Z2Nat.id by exact Hjpos. lra.
  - exists (n - 1)%nat. split; [lia|].
    apply sceneMountedAt_spec.
    assert (En : inject_Z (Z.of_nat n) == inject_Z (Z.of_nat (n - 1)) + 1).
    { rewrite <- (inject_Z_plus _ 1). f_equiv. lia. }
    assert (Hn' : inject_Z (Z.of_nat n) <= inject_Z j) by (rewrite <- Zle_Qle; exact Hge).
    rewrite En in Hf1, Hn'. split; lra.
Qed.

(** Outside the composition no scene is mounted. *)
Lemma no_scene_mounted (n k : nat) (frame : Q) :
  (k < n)%nat ->
  frame < 0 \/ inject_Z (Z.of_nat n) * 90 + 30 - 1 < frame ->
  sceneMountedAt k frame = false.
Proof.
  intros Hk Hout. destruct (sceneMountedAt k frame) eqn:E; [|reflexivity].
  exfalso. apply sceneMountedAt_spec in E as [H1 H2].
  assert (Hk0 : 0 <= inject_Z (Z.of_nat k)).
  { change 0 with (inject_Z 0). rewrite <- Zle_Qle. lia. }
  assert (Hkn : inject_Z (Z.of_nat k) + 1 <= inject_Z (Z.of_nat n)).
  { rewrite <- (inject_Z_plus _ 1), <- Zle_Qle. lia. }
  destruct Hout as [Hneg | Hpast]; lra.
Qed.

(** X12.  The length the player gives the composition,
    [scenes * 90 + 30] frames, is exactly what the scenes' windows cover:
    at every frame from 0 to the last one at least one scene is drawn and
    never more than two; before frame 0 and after the last frame nothing
    is drawn. *)
Theorem timeline_coverage (videoResult : VideoResult) (sceneList : list Scene)
    (durationInFrames frame : Q) (layers : list RenderedScene) :
  scenes videoResult = Some sceneList -> sceneList <> [] ->
  Animation interpolateColors videoResult durationInFrames frame
  = Returns (Composition layers) ->
  (List.length layers <= 2)%nat
  /\ (0 <= frame <= compositionDuration videoResult - 1 ->
      (1 <= List.length layers)%nat)
  /\ (frame < 0 \/ compositionDuration videoResult - 1 < frame -> layers = []).
Proof.
  intros Hscenes Hne H.
  assert (Hdur : compositionDuration videoResult
                 = inject_Z (Z.of_nat (List.length sceneList)) * 90 + 30).
  { unfold compositionDuration. rewrite Hscenes.
    destruct sceneList; [contradiction | reflexivity]. }
  assert (Hlen : List.length layers
                 = List.length (mountedIndices 0 (List.length sceneList) frame)).
  { unfold Animation in H. rewrite Hscenes in H.
    destruct sceneList as [|s0 rest]; [contradiction|].
    apply obind_Returns in H as (ls & Hls & H). injection H as <-.
    apply renderScenes_mounted in Hls. symmetry.
    eapply Forall2_length. exact Hls. }
  rewrite Hlen, Hdur. unfold mountedIndices. split; [|split].
  - apply filter_seq_at_most_two. intros k k'. apply mounted_adjacent.
  - intros Hin.
    destruct (some_scene_mounted (List.length sceneList) frame) as (k & Hk & Hm).
    + destruct sceneList; [contradiction | cbn; lia].
    + exact Hin.
    + apply (filter_length_pos _ _ k); [apply in_seq; lia | exact Hm].
  - intros Hout.
    assert (E : List.filter (fun k => sceneMountedAt k frame)
                  (seq 0 (List.length sceneList)) = []).
    { apply filter_none. intros k Hk. apply in_seq in Hk.
      apply (no_scene_mounted (List.length sceneList)); [lia | exact Hout]. }
    unfold mountedIndices in Hlen. rewrite E in Hlen.
    destruct layers; [reflexivity | discriminate].
Qed.

End Coverage.

Lemma timeline_coverage_witness :
  exists layers,
    Animation noColors threeScenes 300 299 = Returns (Composition layers)
    /\ (1 <= List.length layers <= 2)%nat.
Proof.
  assert (H : exists ls, Animation noColors threeScenes 300 299
                         = Returns (Composition ls)).
  { eexists. vm_compute. reflexivity. }
  destruct H as (ls & H). exists ls. split; [exact H|].
  destruct (timeline_coverage noColors threeScenes
              [emptyScene; emptyScene; emptyScene] 300 299 ls eq_refl
              ltac:(discriminate) H) as (Hle & Hge & _).
  split; [|exact Hle]. apply Hge. split; discriminate.
Defined.

(** ** The transform parser *)

Section ParserFacts.

Local Open Scope string_scope.

Lemma includes_cons (c : ascii) (s : string) (d : ascii) :
  Js.includes (String c s) (String d "") = false ->
  Ascii.eqb c d = false /\ Js.includes s (String d "") = false.
Proof.
  cbn [Js.includes String.prefix]. intros H.
  apply orb_false_iff in H as [H1 H2]. split; [|exact H2].
  destruct (ascii_dec d c) as [->|Hne].
  - destruct s; discriminate H1.
  - apply Ascii.eqb_neq. congruence.
Qed.

Lemma scanTerms_no_open (s : string) (st : ScanState) :
  Js.includes s "(" = false ->
  (forall func args, st <> InArgs func args) ->
  scanTerms st s = [].
Proof.
  revert st. induction s as [|c s IH]; intros st Hno Hst; [reflexivity|].
  apply includes_cons in Hno as [Hc Hs].
  destruct st as [|w|func args]; [| |exfalso; eapply Hst; reflexivity].
  - cbn [scanTerms]. destruct (Js.isWordChar c); apply IH; try assumption;
      intros f a; discriminate.
  - cbn [scanTerms]. rewrite Hc.
    destruct (Js.isWordChar c); apply IH; try assumption; intros f a; discriminate.
Qed.

Lemma scanTerms_no_close (s : string) (st : ScanState) :
  Js.includes s ")" = false -> scanTerms st s = [].
Proof.
  revert st. induction s as [|c s IH]; intros st Hno; [reflexivity|].
  apply includes_cons in Hno as [Hc Hs].
  destruct st as [|w|func args]; cbn [scanTerms].
  - destruct (Js.isWordChar c); apply IH; assumption.
  - destruct (Js.isWordChar c); [apply IH; assumption|].
    destruct (Ascii.eqb c "("); apply IH; assumption.
  - rewrite Hc. apply IH. assumption.
Qed.

(** X13.  Input that holds no transform function is tolerated: a missing,
    null or numeric transform, and a string without an opening or without
    a closing parenthesis, all parse to the empty mapping. *)
Theorem parse_malformed_empty (transform : option jsval) :
  (forall s, transform = Some (JStr s) ->
             Js.includes s "(" = false \/ Js.includes s ")" = false) ->
  parseTransform transform = emptyObject
  /\ objectKeys (parseTransform transform) = []
  /\ (forall func, ordinaryName func = true ->
                   getProp (parseTransform transform) func = Absent).
Proof.
  intros H.
  assert (E : parseTransform transform = emptyObject).
  { destruct transform as [[q|s|]|]; try reflexivity.
    unfold parseTransform.
    destruct (H s eq_refl) as [Hno | Hno].
    - rewrite scanTerms_no_open; [reflexivity | exact Hno | intros f a; discriminate].
    - rewrite scanTerms_no_close; [reflexivity | exact Hno]. }
  rewrite E. split; [reflexivity|]. split; [reflexivity|].
  intros func Hord. unfold getProp, emptyObject, inheritedSlot. cbn [own proto assoc].
  unfold ordinaryName in Hord. apply negb_true_iff in Hord.
  cbn [existsb] in Hord. apply orb_false_iff in Hord as [_ Hord].
  apply orb_false_iff in Hord as [_ Hord]. rewrite Hord. reflexivity.
Qed.

End ParserFacts.

Lemma parse_malformed_empty_witness :
  parseTransform (Some (JStr "rotate 45deg")) = emptyObject.
Proof.
  apply (parse_malformed_empty (Some (JStr "rotate 45deg"))).
  intros s [= <-]. left. reflexivity.
Defined.

(** ** Numbers in transform strings *)

Section NumberFacts.

Local Open Scope string_scope.

Ltac bits c := destruct c as [[|] [|] [|] [|] [|] [|] [|] [|]].

Lemma startsNumber_digits (s d r tail : string) :
  Js.span Js.isDigit s = (d, r) -> Js.isEmpty d = false ->
  startsNumber (d +:+ tail) = true.
Proof.
  destruct s as [|c s']; cbn [Js.span].
  - intros [= <- <-]. discriminate.
  - destruct (Js.isDigit c) eqn:E.
    + destruct (Js.span Js.isDigit s') as [a b]. intros [= <- <-] _.
      change (String c a +:+ tail) with (String c (a +:+ tail)).
      cbn [startsNumber]. rewrite E. reflexivity.
    + intros [= <- <-]. discriminate.
Qed.

Lemma startsNumber_fraction (s d r : string) :
  Js.span Js.isDigit s = (d, r) -> Js.isEmpty d = false ->
  startsNumber ("." +:+ d) = true.
Proof.
  destruct s as [|c s']; cbn [Js.span].
  - intros [= <- <-]. discriminate.
  - destruct (Js.isDigit c) eqn:E.
    + destruct (Js.span Js.isDigit s') as [a b]. intros [= <- <-] _.
      change ("." +:+ String c a) with (String "." (String c a)).
      cbn [startsNumber]. rewrite E. reflexivity.
    + intros [= <- <-]. discriminate.
Qed.

Lemma span_digit_empty (s d r : string) :
  Js.span Js.isDigit s = (d, r) -> Js.isEmpty d = true -> d = "".
Proof. destruct d; [reflexivity | discriminate]. Qed.

Lemma append_empty_r (s : string) : s +:+ "" = s.
Proof.
  induction s as [|c s IH]; [reflexivity|].
  change (String c s +:+ "") with (String c (s +:+ "")). rewrite IH. reflexivity.
Qed.

Lemma unsigned_shaped (sign s1 num rest : string) :
  (let '(d1, s2) := Js.span Js.isDigit s1 in
   let integerOnly :=
     if Js.isEmpty d1 then None else Some (sign +:+ d1, s2) in
   match s2 with
   | String "." s3 =>
       let '(d2, s4) := Js.span Js.isDigit s3 in
       if Js.isEmpty d2 then integerOnly
       else Some (sign +:+ d1 +:+ "." +:+ d2, s4)
   | _ => integerOnly
   end) = Some (num, rest) ->
  exists body, num = sign +:+ body /\ startsNumber body = true.
Proof.
  destruct (Js.span Js.isDigit s1) as [d1 s2] eqn:E1. cbv zeta.
  assert (Hint : forall s2',
    (if Js.isEmpty d1 then None else Some (sign +:+ d1, s2')) = Some (num, rest) ->
    exists body, num = sign +:+ body /\ startsNumber body = true).
  { intros s2'. destruct (Js.isEmpty d1) eqn:Ed; [discriminate|].
    intros [= <- <-]. exists d1. split; [reflexivity|].
    rewrite <- (append_empty_r d1). eapply startsNumber_digits; eassumption. }
  destruct s2 as [|c2 s3]; [apply Hint|].
  bits c2; try apply Hint.
  destruct (Js.span Js.isDigit s3) as [d2 s4] eqn:E2.
  destruct (Js.isEmpty d2) eqn:Ed2; [apply Hint|].
  intros [= <- <-]. exists (d1 +:+ "." +:+ d2). split; [reflexivity|].
  destruct (Js.isEmpty d1) eqn:Ed1.
  - rewrite (span_digit_empty _ _ _ E1 Ed1).
    change ("" +:+ "." +:+ d2) with ("." +:+ d2).
    eapply startsNumber_fraction; eassumption.
  - eapply startsNumber_digits; eassumption.
Qed.

Lemma startsNumber_facts (s : string) :
  startsNumber s = true ->
  Js.span Js.isWhiteSpace s = ("", s)
  /\ Js.readSign s = (false, s)
  /\ String.prefix "Infinity" s = false
  /\ numberShaped s = true.
Proof.
  destruct s as [|c r]; [discriminate|].
  intros H. bits c; simpl in H; try discriminate H;
    repeat split; try reflexivity; exact H.
Qed.

Lemma matchNumberAt_shaped (s num rest : string) :
  matchNumberAt s = Some (num, rest) -> numberShaped num = true.
Proof.
  unfold matchNumberAt.
  assert (Hplain : forall s',
    (let '(sign, s1) := ("", s') in
     let '(d1, s2) := Js.span Js.isDigit s1 in
     let integerOnly :=
       if Js.isEmpty d1 then None else Some (sign +:+ d1, s2) in
     match s2 with
     | String "." s3 =>
         let '(d2, s4) := Js.span Js.isDigit s3 in
         if Js.isEmpty d2 then integerOnly
         else Some (sign +:+ d1 +:+ "." +:+ d2, s4)
     | _ => integerOnly
     end) = Some (num, rest) -> numberShaped num = true).
  { intros s' H. apply unsigned_shaped in H as (body & -> & Hb).
    change ("" +:+ body) with body. apply startsNumber_facts. exact Hb. }
  destruct s as [|c r]; [apply Hplain|].
  bits c; try apply Hplain.
  intros H. apply unsigned_shaped in H as (body & -> & Hb).
  change ("-" +:+ body) with (String "-" body). cbn [numberShaped]. exact Hb.
Qed.

Lemma parse_body (negative : bool) (s : string) :
  startsNumber s = true ->
  exists q,
    (let '(ip, s1) := Js.span Js.isDigit s in
     let '(fp, s2) :=
       match s1 with
       | String "." r => Js.span Js.isDigit r
       | _ => ("", s1)
       end in
     if Js.isEmpty ip && Js.isEmpty fp then None
     else Some (Js.decimalValue negative ip fp (Js.readExponent s2))) = Some q.
Proof.
  destruct s as [|c r]; [discriminate|].
  cbn [startsNumber]. destruct (Js.isDigit c) eqn:Ed.
  - intros _. cbn [Js.span]. rewrite Ed.
    destruct (Js.span Js.isDigit r) as [a b].
    match goal with |- context [let '(_, _) := ?M in _] => destruct M as [fp s2] end.
    cbn [Js.isEmpty andb]. eauto.
  - cbn [orb]. intros H. apply andb_true_iff in H as [Hdot Hr].
    apply Ascii.eqb_eq in Hdot. subst c.
    destruct r as [|c' r']; [discriminate|].
    change (Js.span Js.isDigit (String "." (String c' r')))
      with ("", String "." (String c' r')).
    cbv iota beta. cbn [Js.span]. rewrite Hr.
    destruct (Js.span Js.isDigit r') as [a b].
    cbn [Js.isEmpty andb]. eauto.
Qed.

Lemma parseFloat_shaped (num : string) :
  numberShaped num = true -> exists q, Js.parseFloat num = Some q.
Proof.
  destruct num as [|c r]; [discriminate|].
  cbn [numberShaped]. destruct (Ascii.eqb c "-") eqn:Ec; intros H.
  - apply Ascii.eqb_eq in Ec. subst c.
    destruct (startsNumber_facts _ H) as (_ & _ & Hinf & _).
    unfold Js.parseFloat.
    change (Js.span Js.isWhiteSpace (String "-" r)) with ("", String "-" r).
    cbv iota beta.
    change (Js.readSign (String "-" r)) with (true, r).
    cbv iota beta. rewrite Hinf. apply parse_body. exact H.
  - destruct (startsNumber_facts _ H) as (Hws & Hsign & Hinf & _).
    unfold Js.parseFloat. rewrite Hws, Hsign, Hinf. apply parse_body. exact H.
Qed.

Lemma valMatch_shaped (valStr num u : string) :
  valMatch valStr = Some (num, u) -> numberShaped num = true.
Proof.
  induction valStr as [|c s IH]; cbn [valMatch].
  - destruct (matchNumberAt "") as [[n r]|] eqn:E; [|discriminate].
    intros [= <- <-]. eapply matchNumberAt_shaped; eassumption.
  - destruct (matchNumberAt (String c s)) as [[n r]|] eqn:E; [|exact IH].
    intros [= <- <-]. eapply matchNumberAt_shaped; eassumption.
Qed.

End NumberFacts.

(** ** Totality of the transform branch and the unit of a channel *)

Section TransformFacts.

Import Remotion.
Local Open Scope string_scope.

Variable interpolateColors : Q -> list Q -> list string -> outcome string.

Lemma assoc_assign {A : Type} (k k' : string) (v c : A) (l : list (string * A)) :
  assoc k (assign k' v l) = Some c -> c = v \/ assoc k l = Some c.
Proof.
  induction l as [|[k0 v0] l IH]; cbn [assign assoc].
  - destruct (String.eqb k k'); [intros [= <-]; left; reflexivity | discriminate].
  - destruct (String.eqb k' k0) eqn:E; cbn [assoc].
    + apply String.eqb_eq in E. subst k0.
      destruct (String.eqb k k'); [intros [= <-]; left; reflexivity | auto].
    + destruct (String.eqb k k0); [auto | exact IH].
Qed.

Lemma setProp_finite (parsed : Parsed) (func : string) (c : Channel) :
  finiteChannels parsed -> is_Some (value c) ->
  finiteChannels (setProp parsed func c).
Proof.
  intros [Hown Hproto] Hc. unfold setProp.
  destruct (String.eqb func "__proto__"); split; cbn [own proto].
  - exact Hown.
  - intros c' [= <-]. exact Hc.
  - intros k c' H. apply assoc_assign in H as [-> | H]; [exact Hc | eauto].
  - exact Hproto.
Qed.

Lemma parseTransform_finite (transform : option jsval) :
  finiteChannels (parseTransform transform).
Proof.
  assert (Hempty : finiteChannels emptyObject).
  { split; [intros k c; discriminate | intros c; discriminate]. }
  destruct transform as [[q|s|]|]; try exact Hempty.
  unfold parseTransform. generalize (scanTerms Idle s) as terms.
  generalize dependent emptyObject.
  intros acc Hacc terms. revert acc Hacc.
  induction terms as [|[func valStr] terms IH]; intros acc Hacc; [exact Hacc|].
  cbn [fold_left]. apply IH.
  destruct (valMatch valStr) as [[num u]|] eqn:E; [|exact Hacc].
  apply setProp_finite; [exact Hacc|]. cbn [value].
  destruct (parseFloat_shaped num (valMatch_shaped _ _ _ E)) as [q ->]. eauto.
Qed.

Lemma getProp_Own_finite (transform : option jsval) (func : string) (c : Channel) :
  getProp (parseTransform transform) func = Own c -> exists q, value c = Some q.
Proof.
  intros H. destruct (parseTransform_finite transform) as [Hown _].
  unfold getProp in H.
  destruct (assoc func (own (parseTransform transform))) as [c'|] eqn:E.
  - injection H as <-. destruct (Hown _ _ E) as [q Hq]. eauto.
  - exfalso. destruct (proto (parseTransform transform)) as [c'|].
    + destruct (String.eqb func "value").
      { destruct (value c') as [v|]; [destruct (Qeq_bool v 0)|]; discriminate. }
      destruct (String.eqb func "unit").
      { destruct (Js.isEmpty (unit c')); discriminate. }
      unfold inheritedSlot in H. destruct (existsb _ _); discriminate.
    + unfold inheritedSlot in H. destruct (existsb _ _); discriminate.
Qed.

(** X14.  Every channel the parser stores holds a finite number: the text
    matched by the number pattern is always a decimal literal, so that
    [parseFloat] never fails on it.  The bound on the length of the
    transform string keeps the literal within the range of a double. *)
Theorem parsed_values_finite (transform : option jsval) (func : string)
    (c : Channel) :
  withinDoubleRange transform ->
  getProp (parseTransform transform) func = Own c ->
  exists q, value c = Some q.
Proof.
  intros _ H. destruct (parseTransform_finite transform) as [Hown _].
  unfold getProp in H.
  destruct (assoc func (own (parseTransform transform))) as [c'|] eqn:E.
  - injection H as <-. destruct (Hown _ _ E) as [q Hq]. exists q. exact Hq.
  - exfalso. destruct (proto (parseTransform transform)) as [c'|].
    + destruct (String.eqb func "value").
      { destruct (value c') as [v|]; [destruct (Qeq_bool v 0)|]; discriminate. }
      destruct (String.eqb func "unit").
      { destruct (Js.isEmpty (unit c')); discriminate. }
      unfold inheritedSlot in H. destruct (existsb _ _); discriminate.
    + unfold inheritedSlot in H. destruct (existsb _ _); discriminate.
Qed.

Lemma getProp_ordinary (parsed : Parsed) (func : string) :
  ordinaryName func = true -> getProp parsed func <> Alien.
Proof.
  unfold ordinaryName. intros H. apply negb_true_iff in H.
  cbn [existsb] in H. apply orb_false_iff in H as [Hv H].
  apply orb_false_iff in H as [Hu H].
  unfold getProp. destruct (assoc func (own parsed)); [discriminate|].
  unfold inheritedSlot. rewrite Hv, Hu, H. destruct (proto parsed); discriminate.
Qed.

Lemma channelStep_finite (func : string) (transform : option jsval)
    (vars : ScanVars) :
  ordinaryName func = true ->
  lastValue vars = None \/ (exists q, lastValue vars = Some (Some q)) ->
  exists q, lastValue (channelStep func (parseTransform transform) vars)
            = Some (Some q).
Proof.
  intros Hord Hvars. unfold channelStep.
  destruct (getProp (parseTransform transform) func) as [c| |] eqn:E.
  - destruct (getProp_Own_finite _ _ _ E) as [q Hq]. cbn [lastValue].
    rewrite Hq. eauto.
  - exfalso. exact (getProp_ordinary _ _ Hord E).
  - cbn [lastValue]. destruct Hvars as [-> | [q ->]]; eauto.
Qed.

Lemma channelScan_finite (func : string) (duration : Q)
    (l : list AnimationKeyframe) (vars : ScanVars) :
  ordinaryName func = true ->
  lastValue vars = None \/ (exists q, lastValue vars = Some (Some q)) ->
  exists outs, allFinite (snd (fst (channelScan func duration vars l))) = Some outs.
Proof.
  intros Hord. revert vars. induction l as [|kf l IH]; intros vars Hvars.
  - exists []. reflexivity.
  - rewrite channelScan_cons. cbn [fst snd].
    destruct (channelStep_finite func (style kf !! "transform") vars Hord Hvars)
      as [q Hq].
    destruct (IH (channelStep func (parseTransform (style kf !! "transform")) vars))
      as [outs Houts]; [right; eauto|].
    exists (q :: outs). apply allFinite_Some. cbn [map].
    apply allFinite_Some in Houts. rewrite Houts.
    unfold pushed. rewrite Hq. reflexivity.
Qed.

Lemma channelOutputs_finite (func : string) (duration : Q)
    (sorted : list AnimationKeyframe) :
  ordinaryName func = true ->
  allFinite (channelOutputs func duration sorted)
  = Some (finiteOutputs func duration sorted).
Proof.
  intros Hord. unfold finiteOutputs, channelOutputs.
  destruct (channelScan_finite func duration sorted initialVars Hord) as [outs ->];
    [left; reflexivity | reflexivity].
Qed.

Lemma animateChannels_closed (funcs : list string) (sorted : list AnimationKeyframe)
    (duration frame : Q) :
  (2 <= List.length sorted)%nat ->
  strictlyIncreasing (map (position duration) sorted) = true ->
  Forall (fun func => ordinaryName func = true) funcs ->
  animateChannels funcs sorted duration frame
  = Returns
      (map (fun func =>
              channelText func
                (segmentValue frame (map (position duration) sorted)
                   (finiteOutputs func duration sorted) defaultOptions)
                (channelUnit func duration sorted))
           funcs).
Proof.
  intros Hlen Hinc Hall. induction Hall as [|func funcs Hord _ IH]; [reflexivity|].
  cbn [animateChannels map].
  rewrite (animateChannel_returns func sorted duration frame
             (finiteOutputs func duration sorted) Hlen Hinc
             (channelOutputs_finite func duration sorted Hord)).
  cbn [obind]. rewrite IH. reflexivity.
Qed.

(** X15.  The transform branch cannot fail on ordinary input: with at
    least two transform keyframes, distinct positions and function names
    that are plain dictionary keys, it returns the space-joined list of
    one term per function, each interpolated over all keyframes and
    printed with the unit of its channel.  The terms come in the order in
    which [allFuncs] collects the names, keyframe by keyframe in the key
    order of the parsed transform: names that are array indices first, in
    ascending order, then the other names as they first appear, so that
    [b(1) 2(3) 1(4)] resolves to the terms of [1], [2] and [b] in that
    order.  The transform strings are bounded in length so that their
    literals stay within the range of a double. *)
Theorem transform_never_fails (keyframes : list AnimationKeyframe)
    (duration frame : Q) :
  let sorted := sortKeyframes keyframes in
  let kfsT := filter (defines "transform") sorted in
  (2 <= List.length kfsT)%nat ->
  strictlyIncreasing (map (position duration) sorted) = true ->
  Forall (fun func => ordinaryName func = true) (allFuncs kfsT) ->
  Forall (fun kf => withinDoubleRange (style kf !! "transform")) keyframes ->
  animateProperty interpolateColors "transform" sorted duration frame
  = Returns (Some (JStr (resolvedTransform sorted duration frame))).
Proof.
  intros sorted kfsT Hlen Hinc Hord _.
  rewrite (animateProperty_transform interpolateColors sorted duration frame Hlen).
  rewrite animateChannels_closed; [reflexivity | | exact Hinc | exact Hord].
  pose proof (length_filter (defines "transform") sorted). fold kfsT in H. lia.
Qed.

Lemma firstOtherUnit_cons (d u : string) (units : list string) :
  firstOtherUnit d (u :: units)
  = if String.eqb u d then firstOtherUnit d units else u.
Proof.
  unfold firstOtherUnit. cbn [List.filter].
  destruct (String.eqb u d); reflexivity.
Qed.

Lemma scanVarsFrom_cons (func : string) (vars : ScanVars)
    (kf : AnimationKeyframe) (l : list AnimationKeyframe) :
  scanVarsFrom func vars (kf :: l)
  = scanVarsFrom func
      (channelStep func (parseTransform (style kf !! "transform")) vars) l.
Proof. reflexivity. Qed.

Lemma scan_unit (func : string) (l : list AnimationKeyframe) (vars : ScanVars)
    (u : string) :
  Forall (fun kf => slotAt func kf <> Alien) l ->
  lastUnit vars = Some u ->
  lastUnit (scanVarsFrom func vars l)
  = Some (if String.eqb u (defaultUnit func)
          then firstOtherUnit (defaultUnit func) (definedUnits func l)
          else u).
Proof.
  intros Hall. revert vars u.
  induction Hall as [|kf l Hkf _ IH]; intros vars u Hu.
  - cbn [scanVarsFrom fold_left definedUnits]. rewrite Hu.
    unfold firstOtherUnit. cbn [List.filter].
    destruct (String.eqb u (defaultUnit func)) eqn:E; [|reflexivity].
    apply String.eqb_eq in E. congruence.
  - rewrite scanVarsFrom_cons. cbn [definedUnits].
    unfold slotAt in Hkf |- *. unfold channelStep. rewrite Hu.
    destruct (getProp (parseTransform (style kf !! "transform")) func) as [c| |];
      [| congruence |].
    + cbv zeta. destruct (String.eqb u (defaultUnit func)) eqn:E.
      * erewrite IH by reflexivity. rewrite firstOtherUnit_cons. reflexivity.
      * erewrite IH by reflexivity. rewrite E. reflexivity.
    + cbv zeta. erewrite IH by reflexivity. reflexivity.
Qed.

(** X16.  The unit a channel is printed with is the first unit, in
    keyframe order, that differs from the function's default unit, and
    the default unit when no keyframe gives another: a channel given in
    pixels first and in percent later is printed in percent. *)
Theorem channel_unit_policy (func : string) (duration : Q)
    (sorted : list AnimationKeyframe) :
  sorted <> [] ->
  Forall (fun kf => slotAt func kf <> Alien) sorted ->
  channelUnit func duration sorted
  = firstOtherUnit (defaultUnit func) (definedUnits func sorted).
Proof.
  intros Hne Hall. unfold channelUnit. rewrite channelScan_final.
  destruct sorted as [|kf l]; [congruence|].
  apply Forall_cons in Hall as [Hkf Hall].
  rewrite scanVarsFrom_cons. cbn [definedUnits].
  unfold slotAt in Hkf |- *. unfold channelStep.
  change (lastUnit initialVars) with (@None string). cbv zeta iota beta.
  rewrite String.eqb_refl.
  destruct (getProp (parseTransform (style kf !! "transform")) func) as [c| |];
    [| congruence |].
  - erewrite (scan_unit func l _ _ Hall) by reflexivity.
    rewrite firstOtherUnit_cons. reflexivity.
  - erewrite (scan_unit func l _ _ Hall) by reflexivity.
    rewrite String.eqb_refl. reflexivity.
Qed.

End TransformFacts.

Lemma parsed_values_finite_witness :
  exists q, value {| value := Some (100 # 1); unit := "px" |} = Some q.
Proof.
  apply (parsed_values_finite (Some (JStr "translateX(100px)")) "translateX").
  - intros s [= <-]. cbn. lia.
  - vm_compute. reflexivity.
Defined.

Lemma transform_never_fails_witness :
  animateProperty noColors "transform" (sortKeyframes transformExample) 90 45
  = Returns (Some (JStr (resolvedTransform (sortKeyframes transformExample) 90 45))).
Proof.
  apply (transform_never_fails noColors transformExample 90 45).
  - vm_compute. lia.
  - vm_compute. reflexivity.
  - repeat constructor.
  - repeat (apply List.Forall_cons); try apply List.Forall_nil;
      intros s Hs; vm_compute in Hs; injection Hs as <-; cbn; lia.
Defined.

Lemma channel_unit_policy_witness :
  channelUnit "translateX" 90 mixedUnitExample = "%"%string.
Proof.
  rewrite (channel_unit_policy "translateX" 90 mixedUnitExample).
  - vm_compute. reflexivity.
  - discriminate.
  - repeat constructor; vm_compute; discriminate.
Defined.

(** ** The dimensions of the player *)

Section DimensionFacts.

Import Remotion.

(** X17.  The dimensions follow the aspect ratio: for a ratio [w:h] of
    two positive numbers that differ, the long edge is 1280 pixels and
    the short edge is scaled in proportion; a square ratio gives 1080 by
    1080, not 1280 by 1280. *)
Theorem dimensions_follow_ratio (aspectRatio : string) (w h : Q) (rest : list string)
    (sw sh : string) :
  splitOn ":" aspectRatio = sw :: sh :: rest ->
  toNumber sw = Some w -> toNumber sh = Some h ->
  0 < w -> 0 < h ->
  let d := getDimensions aspectRatio in
  0 < width d /\ 0 < height d
  /\ (~ w == h ->
      width d * h == height d * w /\ Qmax (width d) (height d) == 1280)
  /\ (w == h -> width d == 1080 /\ height d == 1080).
Proof.
  intros Hsplit Hw Hh Hwpos Hhpos d. subst d. unfold getDimensions.
  rewrite Hsplit. cbn [map]. unfold numberAt. cbn [lookup list_lookup].
  rewrite Hw, Hh. unfold Qltb.
  destruct (Qle_bool w h) eqn:E1; cbn [negb].
  - apply Qle_bool_iff in E1.
    destruct (Qle_bool h w) eqn:E2; cbn [negb width height].
    + apply Qle_bool_iff in E2.
      repeat split; try lra; intros Hne; exfalso; apply Hne; lra.
    + apply Qle_bool_false in E2.
      assert (Hq : 1280 * w / h * h == 1280 * w) by (field; lra).
      assert (Hpos : 0 < 1280 * w / h).
      { apply Qlt_shift_div_l; lra. }
      assert (Hle : 1280 * w / h <= 1280).
      { apply Qle_shift_div_r; lra. }
      split; [exact Hpos|]. split; [lra|]. split.
      * intros _. split; [rewrite Hq; ring|].
        apply Q.max_r. exact Hle.
      * intros Heq. lra.
  - apply Qle_bool_false in E1. cbn [width height].
    assert (Hq : 1280 * h / w * w == 1280 * h) by (field; lra).
    assert (Hpos : 0 < 1280 * h / w).
    { apply Qlt_shift_div_l; lra. }
    assert (Hle : 1280 * h / w <= 1280).
    { apply Qle_shift_div_r; lra. }
    split; [lra|]. split; [exact Hpos|]. split.
    + intros _. split; [rewrite Hq; ring|].
      apply Q.max_l. exact Hle.
    + intros Heq. lra.
Qed.

(** X18.  Each aspect ratio the document type admits gives a whole number
    of pixels in both directions: 1280 by 720, 720 by 1280 and 1080 by
    1080. *)
Theorem declared_ratios_whole_pixels (aspectRatio : AspectRatio) :
  getDimensions (aspectRatioText aspectRatio)
  = match aspectRatio with
    | Ratio16x9 => {| width := 1280; height := 1280 * 9 / 16 |}
    | Ratio9x16 => {| width := 1280 * 9 / 16; height := 1280 |}
    | Ratio1x1 => {| width := 1080; height := 1080 |}
    end
  /\ exists W H : Z,
       Qred (width (getDimensions (aspectRatioText aspectRatio))) = inject_Z W
       /\ Qred (height (getDimensions (aspectRatioText aspectRatio))) = inject_Z H
       /\ (0 < W)%Z /\ (0 < H)%Z.
Proof.
  destruct aspectRatio.
  - split; [reflexivity|]. exists 1280%Z, 720%Z. repeat split; reflexivity.
  - split; [reflexivity|]. exists 720%Z, 1280%Z. repeat split; reflexivity.
  - split; [reflexivity|]. exists 1080%Z, 1080%Z. repeat split; reflexivity.
Qed.

End DimensionFacts.

Lemma dimensions_follow_ratio_witness :
  width (getDimensions "16:9") * 9 == height (getDimensions "16:9") * 16.
Proof.
  apply (dimensions_follow_ratio "16:9" 16 9 [] "16" "9");
    try reflexivity.
  intros H. vm_compute in H. discriminate H.
Defined.
